(** * A shallow embedding of the sudoku solver [solve_sudoku.c]

    The 9x9 table [int table[][9]] is a list of rows of machine integers
    (no arithmetic on cell values can overflow: they are only compared and
    copied).  Loops [for(int i = a; i < a + n; ++i)] are left folds over
    [seq a n]; a loop whose body can [return false] is a [forallb].  The
    functions that write into the table thread a memory made of the cells
    and of a journal of the stores performed, newest first. *)

From Stdlib Require Import Ascii String.
From Stdlib Require Import ZArith List Bool Lia Sorted.
From stdpp Require Import base tactics option list list_numbers relations.
From stdpp Require Import pretty.

Open Scope Z_scope.

(** ** The table *)

Abbreviation table := (list (list Z)).

(** [int table[9][9]]: nine rows of nine cells. *)
Definition wf_table (t : table) : Prop :=
  length t = 9%nat ∧ Forall (λ row, length row = 9%nat) t.

(** [table[i][j]] *)
Definition get (t : table) (i j : nat) : Z :=
  default 0 (t !! i ≫= λ row : list Z, row !! j).

(** [table[i][j] = v] *)
Definition set (t : table) (i j : nat) (v : Z) : table :=
  alter (λ row : list Z, <[j:=v]> row) i t.

(** [for(int i = lo; i < lo + n; ++i) body], on a state of type [S]. *)
Definition for_range {S : Type} (lo n : nat) (body : S → nat → S) (s : S) : S :=
  fold_left body (seq lo n) s.

(** [for(int num = 1; num <= 9; ++num)] *)
Definition nums : list Z := seqZ 1 9.

(** ** Counting the empty cells *)

Definition number_of_empty_cells (t : table) : Z :=
  for_range 0 9 (λ zeros i,
    for_range 0 9 (λ zeros j,
      if get t i j =? 0 then zeros + 1 else zeros) zeros) 0.

(** ** The constraint checks *)

Definition allowed_in_row (t : table) (row : nat) (num : Z) : bool :=
  forallb (λ j, negb (get t row j =? num)) (seq 0 9).

Definition allowed_in_col (t : table) (col : nat) (num : Z) : bool :=
  forallb (λ i, negb (get t i col =? num)) (seq 0 9).

Definition allowed_in_block (t : table) (row col : nat) (num : Z) : bool :=
  let block_row_start := (row - row mod 3)%nat in
  let block_col_start := (col - col mod 3)%nat in
  forallb (λ i,
    forallb (λ j,
      negb (negb (i =? row)%nat && negb (j =? col)%nat && (get t i j =? num)))
      (seq block_col_start 3))
    (seq block_row_start 3).

Definition allowed_at_position (t : table) (row col : nat) (num : Z) : bool :=
  allowed_in_row t row num
  && allowed_in_col t col num
  && allowed_in_block t row col num.

(** ** The memory: cells and the journal of stores *)

Record write := Write { w_row : nat; w_col : nat; w_old : Z; w_new : Z }.

Record mem := Mem { cells : table; writes : list write }.

Definition load (t : table) : mem := Mem t [].

(** The statement [table[i][j] = v], which also records what it replaced. *)
Definition store (m : mem) (i j : nat) (v : Z) : mem :=
  Mem (set (cells m) i j v) (Write i j (get (cells m) i j) v :: writes m).

(** ** Naked singles and the guess *)

(** The scan of [select_allowed]: the last allowed number and how many are
    allowed.  [allowed] is uninitialised in the source and read only when
    [count_allowed >= 1]; it starts at 0 here. *)
Definition scan_allowed (t : table) (row col : nat) : Z * Z :=
  fold_left (λ '(allowed, count_allowed) num,
    if allowed_at_position t row col num
    then (num, count_allowed + 1)
    else (allowed, count_allowed)) nums (0, 0).

Definition select_allowed (m : mem) (row col : nat) (assign_random : bool) : mem :=
  let '(allowed, count_allowed) := scan_allowed (cells m) row col in
  if (count_allowed =? 1) || ((1 <=? count_allowed) && assign_random)
  then store m row col allowed
  else m.

(** ** Hidden singles *)

Definition scan_row (t : table) (row : nat) (num : Z) : nat * Z :=
  for_range 0 9 (λ '(possible_col, count_possible) j,
    if (get t row j =? 0) && allowed_in_col t j num && allowed_in_block t row j num
    then (j, count_possible + 1)
    else (possible_col, count_possible)) (0%nat, 0).

Definition select_possible_in_row (m : mem) (row : nat) (num : Z) : mem :=
  if negb (allowed_in_row (cells m) row num) then m
  else
    let '(possible_col, count_possible) := scan_row (cells m) row num in
    if count_possible =? 1 then store m row possible_col num else m.

Definition scan_col (t : table) (col : nat) (num : Z) : nat * Z :=
  for_range 0 9 (λ '(possible_row, count_possible) i,
    if (get t i col =? 0) && allowed_in_row t i num && allowed_in_block t i col num
    then (i, count_possible + 1)
    else (possible_row, count_possible)) (0%nat, 0).

Definition select_possible_in_col (m : mem) (col : nat) (num : Z) : mem :=
  if negb (allowed_in_col (cells m) col num) then m
  else
    let '(possible_row, count_possible) := scan_col (cells m) col num in
    if count_possible =? 1 then store m possible_row col num else m.

Definition scan_block (t : table) (row col : nat) (num : Z) : nat * nat * Z :=
  for_range row 3 (λ st i,
    for_range col 3 (λ '(possible_row, possible_col, count_possible) j,
      if (get t i j =? 0) && allowed_at_position t i j num
      then (i, j, count_possible + 1)
      else (possible_row, possible_col, count_possible)) st) (0%nat, 0%nat, 0).

Definition select_possible_in_block (m : mem) (row col : nat) (num : Z) : mem :=
  if negb (allowed_in_block (cells m) row col num) then m
  else
    let '(possible_row, possible_col, count_possible) := scan_block (cells m) row col num in
    if count_possible =? 1 then store m possible_row possible_col num else m.

(** [for(int i = 0; i < 9; i += 3)] *)
Definition block_starts : list nat := [0; 3; 6]%nat.

Definition select_possible (m : mem) (num : Z) : mem :=
  let m := for_range 0 9 (λ m i, select_possible_in_row m i num) m in
  let m := for_range 0 9 (λ m j, select_possible_in_col m j num) m in
  fold_left (λ m i,
    fold_left (λ m j, select_possible_in_block m i j num) block_starts m)
    block_starts m.

(** ** One pass *)

(** The first loop nest of [single_pass]; the state is the memory and the
    local [assign_random]. *)
Definition sweep_allowed (m : mem) (assign_random : bool) : mem * bool :=
  for_range 0 9 (λ st i,
    for_range 0 9 (λ st j,
      let '(m, assign_random) := st in
      if get (cells m) i j =? 0
      then (select_allowed m i j assign_random, false)
      else (m, assign_random)) st) (m, assign_random).

Definition single_pass (m : mem) (assign_random : bool) : mem :=
  let '(m, _) := sweep_allowed m assign_random in
  fold_left select_possible nums m.

(** ** The solving loop *)

(** How [solve] left its loop: by the first [break] (no empty cell) or by
    the second (a pass asked to assign randomly filled nothing). *)
Inductive outcome := Done | GaveUp.

(** One call of [single_pass]: the flag it received and the number of empty
    cells before and after it. *)
Record pass := Pass { p_random : bool; p_before : Z; p_after : Z }.

Record run := Run { final : mem; how : outcome; passes : list pass }.

Definition after_pass (p : pass) (r : run) : run :=
  Run (final r) (how r) (p :: passes r).

(** [while(true)] with the locals [prev_zeros] and [assign_random]; [None]
    when the fuel runs out before a [break]. *)
Fixpoint solve_loop (fuel : nat) (m : mem) (prev_zeros : Z) (assign_random : bool)
  : option run :=
  match fuel with
  | O => None
  | S fuel =>
      let zeros := number_of_empty_cells (cells m) in
      if zeros =? 0 then Some (Run m Done [])
      else if (zeros =? prev_zeros) && assign_random then Some (Run m GaveUp [])
      else
        let assign_random := if zeros =? prev_zeros then true else assign_random in
        let m' := single_pass m assign_random in
        after_pass (Pass assign_random zeros (number_of_empty_cells (cells m')))
          <$> solve_loop fuel m' zeros assign_random
  end.

Definition solve_fuel : nat := 84.

Definition solve (t : table) : option run :=
  solve_loop solve_fuel (load t) 81 false.

(** ** The validator *)

(** [++frequency[v - 1]] *)
Definition bump (frequency : list Z) (v : Z) : list Z :=
  alter Z.succ (Z.to_nat (v - 1)) frequency.

Definition expected_frequency : list Z := replicate 9 1.

(** [memcmp(frequency, expected_frequency, sizeof frequency) == 0] *)
Definition same_frequency (frequency : list Z) : bool :=
  bool_decide (frequency = expected_frequency).

Definition row_frequency (t : table) (i : nat) : list Z :=
  for_range 0 9 (λ frequency j, bump frequency (get t i j)) (replicate 9 0).

Definition col_frequency (t : table) (j : nat) : list Z :=
  for_range 0 9 (λ frequency i, bump frequency (get t i j)) (replicate 9 0).

Definition block_frequency (t : table) (i j : nat) : list Z :=
  for_range i 3 (λ frequency k,
    for_range j 3 (λ frequency l, bump frequency (get t k l)) frequency)
    (replicate 9 0).

Definition valid (t : table) : bool :=
  forallb (λ i, forallb (λ j, negb ((get t i j <? 1) || (9 <? get t i j))) (seq 0 9))
    (seq 0 9)
  && forallb (λ i, same_frequency (row_frequency t i)) (seq 0 9)
  && forallb (λ j, same_frequency (col_frequency t j)) (seq 0 9)
  && forallb (λ i, forallb (λ j, same_frequency (block_frequency t i j)) block_starts)
       block_starts.

(** ** Positions, candidates and fillings *)

(** The cells in the order in which the loop nests visit them. *)
Definition all_cells : list (nat * nat) := list_prod (seq 0 9) (seq 0 9).

Definition is_blank (t : table) (p : nat * nat) : bool := get t p.1 p.2 =? 0.

(** The first empty cell in row-major order. *)
Definition first_blank (t : table) : option (nat * nat) :=
  List.find (is_blank t) all_cells.

(** The numbers allowed at a cell, in increasing order. *)
Definition candidates (t : table) (row col : nat) : list Z :=
  List.filter (allowed_at_position t row col) nums.

Fixpoint countb {A : Type} (p : A → bool) (l : list A) : Z :=
  match l with
  | [] => 0
  | x :: l => (if p x then 1 else 0) + countb p l
  end.

(** A store that puts a digit into an empty cell of the table. *)
Definition good_write (w : write) : Prop :=
  (w_row w < 9)%nat ∧ (w_col w < 9)%nat ∧ w_old w = 0 ∧ 1 ≤ w_new w ≤ 9.

Inductive fill (m : mem) : mem → Prop :=
  | fill_store i j v :
      (i < 9)%nat → (j < 9)%nat → get (cells m) i j = 0 → 1 ≤ v ≤ 9 →
      fill m (store m i j v).

Definition fills : relation mem := rtc fill.

(** The body of the loop nest of [sweep_allowed], at one cell. *)
Definition sweep_step (st : mem * bool) (p : nat * nat) : mem * bool :=
  let '(m, assign_random) := st in
  if get (cells m) p.1 p.2 =? 0
  then (select_allowed m p.1 p.2 assign_random, false)
  else (m, assign_random).

(** The invariant of the scans for hidden singles: the count is not
    negative, and once something was counted the remembered position
    satisfies [good]. *)
Definition scan_inv {P : Type} (good : P → Prop) (st : P * Z) : Prop :=
  0 ≤ st.2 ∧ (1 ≤ st.2 → good st.1).

(** A bound on the passes still to come when the loop of [solve] is
    entered with [zeros] empty cells and the locals [prev_zeros] and
    [assign_random]. *)
Definition pass_bound (zeros prev_zeros : Z) (assign_random : bool) : Z :=
  if assign_random
  then (if zeros =? prev_zeros then 0 else zeros)
  else (if zeros =? prev_zeros then zeros else zeros + 1).

(** ** Units and occurrences *)

(** Cell [(i, j)] lies in the 3x3 block that contains [(row, col)]. *)
Definition same_block (row col i j : nat) : Prop :=
  (i / 3 = row / 3 ∧ j / 3 = col / 3)%nat.

Definition row_cells (t : table) (i : nat) : list Z :=
  (λ j, get t i j) <$> seq 0 9.

Definition col_cells (t : table) (j : nat) : list Z :=
  (λ i, get t i j) <$> seq 0 9.

Definition block_cells (t : table) (i j : nat) : list Z :=
  (λ p, get t p.1 p.2) <$> list_prod (seq i 3) (seq j 3).

(** The 27 units: nine rows, nine columns, nine blocks. *)
Definition units (t : table) : list (list Z) :=
  (row_cells t <$> seq 0 9)
  ++ (col_cells t <$> seq 0 9)
  ++ ((λ p, block_cells t p.1 p.2) <$> list_prod block_starts block_starts).

Definition digit (v : Z) : Prop := 1 ≤ v ≤ 9.

(** How often the digit [d] occurs in a unit. *)
Definition occurrences (d : Z) (u : list Z) : Z := countb (Z.eqb d) u.

(** The frequency array after [++frequency[v - 1]] for every [v] of [vs]. *)
Definition tally (vs : list Z) : list Z := fold_left bump vs (replicate 9 0).

(** ** The guess as the specification words it *)

(** Rule (a) of the deduction pass with the choice among several candidates
    left to a capability [choose] handed in from outside. *)
Definition select_allowed_spec (choose : list Z → Z)
    (m : mem) (row col : nat) (authorized : bool) : mem :=
  match candidates (cells m) row col with
  | [] => m
  | [d] => store m row col d
  | cs => if authorized then store m row col (choose cs) else m
  end.

(** A capability that returns one of the candidates it is given. *)
Definition chooser (choose : list Z → Z) : Prop :=
  ∀ cs, cs ≠ [] → choose cs ∈ cs.

Definition smallest (cs : list Z) : Z := hd 0 cs.

Definition largest (cs : list Z) : Z := foldr Z.max 0 cs.

(** ** The flag discipline the specification describes *)

(** A pass is asked to guess exactly when the pass before it filled nothing. *)
Definition guess_iff_stalled (ps : list pass) : Prop :=
  ∀ k p q, ps !! k = Some p → ps !! S k = Some q →
    (p_random q = true ↔ p_after p = p_before p).

(** ** The older variant of the program

    The repository holds an older [solve_sudoku.c] as well.  Its checks and
    [select_allowed] are those above; [select_possible] has its three scans
    inline, and the loop of [solve] computes the flag afresh in every
    iteration and has no second [break]. *)

Definition older_select_possible (m : mem) (num : Z) : mem :=
  let m := for_range 0 9 (λ m i,
    if negb (allowed_in_row (cells m) i num) then m
    else
      let '(possible_row, possible_col, count_possible) :=
        for_range 0 9 (λ st j,
          let '(possible_row, possible_col, count_possible) := st in
          if (get (cells m) i j =? 0) && allowed_at_position (cells m) i j num
          then (i, j, count_possible + 1)
          else (possible_row, possible_col, count_possible)) (0%nat, 0%nat, 0) in
      if count_possible =? 1 then store m possible_row possible_col num else m) m in
  let m := for_range 0 9 (λ m j,
    if negb (allowed_in_col (cells m) j num) then m
    else
      let '(possible_row, possible_col, count_possible) :=
        for_range 0 9 (λ st i,
          let '(possible_row, possible_col, count_possible) := st in
          if (get (cells m) i j =? 0) && allowed_at_position (cells m) i j num
          then (i, j, count_possible + 1)
          else (possible_row, possible_col, count_possible)) (0%nat, 0%nat, 0) in
      if count_possible =? 1 then store m possible_row possible_col num else m) m in
  fold_left (λ m block_row_start,
    fold_left (λ m block_col_start,
      if negb (allowed_in_block (cells m) block_row_start block_col_start num) then m
      else
        let '(possible_row, possible_col, count_possible) :=
          for_range block_row_start 3 (λ st i,
            for_range block_col_start 3 (λ st j,
              let '(possible_row, possible_col, count_possible) := st in
              if (get (cells m) i j =? 0) && allowed_at_position (cells m) i j num
              then (i, j, count_possible + 1)
              else (possible_row, possible_col, count_possible)) st)
            (0%nat, 0%nat, 0) in
        if count_possible =? 1 then store m possible_row possible_col num else m)
      block_starts m)
    block_starts m.

Definition older_single_pass (m : mem) (random : bool) : mem :=
  let '(m, _) := sweep_allowed m random in
  fold_left older_select_possible nums m.

(** The passes that the older loop makes within [fuel] iterations. *)
Fixpoint older_solve_loop (fuel : nat) (m : mem) (prev_zeros : Z) : list pass :=
  match fuel with
  | O => []
  | S fuel =>
      let zeros := number_of_empty_cells (cells m) in
      if zeros =? 0 then []
      else
        let random := if zeros =? prev_zeros then true else false in
        let m' := older_single_pass m random in
        Pass random zeros (number_of_empty_cells (cells m'))
          :: older_solve_loop fuel m' zeros
  end.

Definition older_solve (fuel : nat) (t : table) : list pass :=
  older_solve_loop fuel (load t) 81.

(** ** The claims of the specification that the program does not meet *)

(** The first pass of a run is not asked to guess. *)
Definition first_pass_disabled (t : table) : Prop :=
  ∀ r p ps, solve t = Some r → passes r = p :: ps → p_random p = false.

(** When a run gives up, no empty cell has a candidate left. *)
Definition gives_up_without_candidates (t : table) : Prop :=
  ∀ r i j, solve t = Some r → how r = GaveUp →
    (i < 9)%nat → (j < 9)%nat → get (cells (final r)) i j = 0 →
    candidates (cells (final r)) i j = [].

(** The guess of [select_allowed] is the choice of whatever capability is
    handed in. *)
Definition guess_from_capability (m : mem) (row col : nat) : Prop :=
  ∀ choose, chooser choose →
    select_allowed m row col true = select_allowed_spec choose m row col true.

(** ** Sample tables *)

Definition empty_table : table := replicate 9 (replicate 9 0).

Definition solved_table : table :=
  [ [5;3;4;6;7;8;9;1;2];
    [6;7;2;1;9;5;3;4;8];
    [1;9;8;3;4;2;5;6;7];
    [8;5;9;7;6;1;4;2;3];
    [4;2;6;8;5;3;7;9;1];
    [7;1;3;9;2;4;8;5;6];
    [9;6;1;5;3;7;2;8;4];
    [2;8;7;4;1;9;6;3;5];
    [3;4;5;2;8;6;1;7;9] ].

(** Only the top-left cell is filled. *)
Definition corner_table : table := set empty_table 0 0 9.

(** The top-left cell is empty and nothing fits there: its row holds 1..8
    and its column holds 9.  Every other empty cell has several candidates. *)
Definition stuck_table : table :=
  [ [0;1;2;3;4;5;6;7;8];
    [9;0;0;0;0;0;0;0;0];
    [0;0;0;0;0;0;0;0;0];
    [0;0;0;0;0;0;0;0;0];
    [0;0;0;0;0;0;0;0;0];
    [0;0;0;0;0;0;0;0;0];
    [0;0;0;0;0;0;0;0;0];
    [0;0;0;0;0;0;0;0;0];
    [0;0;0;0;0;0;0;0;0] ].

(** What [solve] returns on [stuck_table]. *)
Definition stuck_run : run :=
  Run (load stuck_table) GaveUp [Pass false 72 72; Pass true 72 72].

(** ** Conflicts *)

(** Cell [(k, l)] lies in the row, in the column or in the block of cell
    [(row, col)]. *)
Definition shares_unit (row col k l : nat) : Prop :=
  k = row ∨ l = col ∨ same_block row col k l.

(** No filled cell has its value repeated in its row, column or block. *)
Definition consistent (t : table) : Prop :=
  ∀ i j k l, (i < 9)%nat → (j < 9)%nat → (k < 9)%nat → (l < 9)%nat →
    (i, j) ≠ (k, l) → shares_unit i j k l →
    get t i j ≠ 0 → get t i j ≠ get t k l.

(** What [read_sudoku] can produce: every cell is 0 or a digit. *)
Definition puzzle (t : table) : Prop :=
  ∀ i j, (i < 9)%nat → (j < 9)%nat → 0 ≤ get t i j ≤ 9.

(** A store of a digit that [allowed_at_position] accepts into an empty
    cell. *)
Inductive legal_fill (m : mem) : mem → Prop :=
  | legal_fill_store i j v :
      (i < 9)%nat → (j < 9)%nat → get (cells m) i j = 0 → digit v →
      allowed_at_position (cells m) i j v = true →
      legal_fill m (store m i j v).

Definition legal_fills : relation mem := rtc legal_fill.

(** ** The positions of the units *)

Definition cell (t : table) (p : nat * nat) : Z := get t p.1 p.2.

Definition row_positions (i : nat) : list (nat * nat) :=
  (λ j, (i, j)) <$> seq 0 9.

Definition col_positions (j : nat) : list (nat * nat) :=
  (λ i, (i, j)) <$> seq 0 9.

Definition block_positions (i j : nat) : list (nat * nat) :=
  list_prod (seq i 3) (seq j 3).

Definition unit_positions : list (list (nat * nat)) :=
  (row_positions <$> seq 0 9)
  ++ (col_positions <$> seq 0 9)
  ++ ((λ p, block_positions p.1 p.2) <$> list_prod block_starts block_starts).

Definition shares_unitb (row col k l : nat) : bool :=
  (k =? row)%nat || (l =? col)%nat
  || ((k / 3 =? row / 3)%nat && (l / 3 =? col / 3)%nat).

(** The checks on the positions that are settled by evaluation. *)
Definition unit_positions_okb (ps : list (nat * nat)) : bool :=
  bool_decide (NoDup ps) && (length ps =? 9)%nat
  && forallb (λ p, (p.1 <? 9)%nat && (p.2 <? 9)%nat
                   && forallb (λ q, shares_unitb p.1 p.2 q.1 q.2) ps) ps.

Definition in_common_unitb (p q : nat * nat) : bool :=
  existsb (λ ps, bool_decide (p ∈ ps) && bool_decide (q ∈ ps)) unit_positions.

(** [consistent], as a test. *)
Definition consistentb (t : table) : bool :=
  forallb (λ p,
    forallb (λ q,
      implb (negb (bool_decide (p = q)) && shares_unitb p.1 p.2 q.1 q.2
             && negb (cell t p =? 0))
        (negb (cell t p =? cell t q))) all_cells) all_cells.

(** ** Reading and showing a puzzle

    A stream ([FILE *], standard output, standard error) is the list of its
    characters. *)

Definition newline : ascii := ascii_of_nat 10.
Definition escape : ascii := ascii_of_nat 27.

(** The characters of a string literal of the source. *)
Definition text (s : string) : list ascii := list_ascii_of_string s.

(** [isspace] in the C locale: the space and the characters 9 to 13. *)
Definition isspace (c : ascii) : bool :=
  let n := nat_of_ascii c in
  (n =? 32)%nat || ((9 <=? n)%nat && (n <=? 13)%nat).

Fixpoint skip_space (s : list ascii) : list ascii :=
  match s with
  | [] => []
  | c :: rest => if isspace c then skip_space rest else s
  end.

(** What the directive [" %c"] finds: the next character that is not white
    space and the rest of the stream, or nothing at the end of the
    stream. *)
Definition scan_char (s : list ascii) : option (ascii * list ascii) :=
  match skip_space s with
  | [] => None
  | c :: rest => Some (c, rest)
  end.

(** [EOF] of [<stdio.h>], a negative number. *)
Definition EOF : Z := -1.

(** [fscanf(fptr, " %c", &c)]: the value returned, what [c] holds after the
    call and the rest of the stream.  Past the white space the call stores
    the next character and returns 1; when the stream ends first it
    returns [EOF] and stores nothing. *)
Definition fscanf_char (s : list ascii) (c : ascii) : Z * ascii * list ascii :=
  match scan_char s with
  | Some (c', rest) => (1, c', rest)
  | None => (EOF, c, [])
  end.

(** The state of the loop nest of [read_sudoku]: still reading, or left by
    [return false].  [char c] is declared in the body of the inner loop
    without an initialiser; the object of one iteration takes the place of
    that of the iteration before, so before the call of [fscanf] it holds
    what the iteration before left there, and in the first iteration what
    the environment left there. *)
Inductive reading :=
  | Reading (rest : list ascii) (c : ascii) (t : table)
  | Rejected.

Definition read_step (st : reading) (i j : nat) : reading :=
  match st with
  | Reading s c t =>
      let '(ret, c, rest) := fscanf_char s c in
      let n := nat_of_ascii c in
      if (ret =? 0) || (negb (n =? 45)%nat && ((n <? 49)%nat || (57 <? n)%nat))
      then Rejected
      else Reading rest c
             (set t i j (if (n =? 45)%nat then 0 else Z.of_nat n - 48))
  | Rejected => Rejected
  end.

Inductive read_result :=
  | ReadOk (t : table)
  | ReadFail.

(** [input] is the content of the file or of standard input, [None] when
    [fopen] fails; [c0] is what the storage of [c] holds before the first
    call of [fscanf]; [t] is the array of the caller. *)
Definition read_sudoku (input : option (list ascii)) (c0 : ascii) (t : table)
  : read_result :=
  match input with
  | None => ReadFail
  | Some s =>
      match for_range 0 9 (λ st i,
              for_range 0 9 (λ st j, read_step st i j) st) (Reading s c0 t) with
      | Reading _ _ t => ReadOk t
      | Rejected => ReadFail
      end
  end.

(** [printf("%d", v)] *)
Definition print_int (v : Z) : list ascii := text (pretty v).

(** What [show] writes to standard output. *)
Definition show (stdout_is_terminal : bool) (t : table) : list ascii :=
  for_range 0 9 (λ out i,
    for_range 0 9 (λ out j,
      let out := out ++ text "  " in
      let colour := ((i / 3 + j / 3) mod 2 =? 0)%nat && stdout_is_terminal in
      let out :=
        if colour && (j mod 3 =? 0)%nat
        then out ++ escape :: text "[37;100m" else out in
      let out :=
        out ++ (if get t i j =? 0 then text "-" else print_int (get t i j)) in
      if colour && (j mod 3 =? 2)%nat
      then out ++ escape :: text "[0m" else out) out
    ++ [newline]) [].

(** ** The program *)

(** The exit statuses of [<stdlib.h>], with their usual values. *)
Definition EXIT_SUCCESS : Z := 0.
Definition EXIT_FAILURE : Z := 1.

Record exit := Exit { status : Z; stdout : list ascii; stderr : list ascii }.

(** [main], given what its environment supplies: the content of the input
    ([None] when the file named on the command line cannot be opened),
    what the storage of [c] in [read_sudoku] holds at first, whether
    standard output is a terminal, the running time that the two calls of
    [clock_gettime] measure, and what the array [table] holds before it is
    read into. *)
Definition main (input : option (list ascii)) (c0 : ascii)
    (stdout_is_terminal : bool) (delay_micro : Z) (table0 : table)
  : option exit :=
  match read_sudoku input c0 table0 with
  | ReadFail =>
      Some (Exit EXIT_FAILURE [] (text "Could not read the puzzle." ++ [newline]))
  | ReadOk t =>
      r ← solve t;
      let out := show stdout_is_terminal (cells (final r)) in
      if negb (valid (cells (final r)))
      then Some (Exit EXIT_FAILURE out (text "Could not solve." ++ [newline]))
      else Some (Exit EXIT_SUCCESS
                   (out ++ text "Solved in " ++ print_int delay_micro
                        ++ text " " ++ [ascii_of_nat 206; ascii_of_nat 188]
                        ++ text "s (real time)." ++ [newline])
                   [])
  end.

(** What [show] writes for the cell [(i, j)]. *)
Definition cell_text (stdout_is_terminal : bool) (t : table) (i j : nat)
  : list ascii :=
  let colour := ((i / 3 + j / 3) mod 2 =? 0)%nat && stdout_is_terminal in
  text "  "
  ++ (if colour && (j mod 3 =? 0)%nat then escape :: text "[37;100m" else [])
  ++ (if get t i j =? 0 then text "-" else print_int (get t i j))
  ++ (if colour && (j mod 3 =? 2)%nat then escape :: text "[0m" else []).

Definition row_text (stdout_is_terminal : bool) (t : table) (i : nat)
  : list ascii :=
  concat (cell_text stdout_is_terminal t i <$> seq 0 9) ++ [newline].

(** The loop nest of [read_sudoku] at one position. *)
Definition read_at (st : reading) (p : nat * nat) : reading :=
  read_step st p.1 p.2.

(** The character that [show] writes for a cell holding 0 to 9. *)
Definition cell_char (v : Z) : ascii :=
  if v =? 0 then ascii_of_nat 45 else ascii_of_nat (Z.to_nat (v + 48)).

(** White space only. *)
Definition spaces (ws : list ascii) : Prop := Forall (λ c, isspace c = true) ws.

(** Two 9s in the first row. *)
Definition clash_table : table := set corner_table 0 1 9.

(** Every cell holds 5: what [read_sudoku] delivers on a stream that ends
    after the character 5. *)
Definition fives_table : table := replicate 9 (replicate 9 5).


(** ** Solutions *)

(** The table [s] has every filled cell of [t] as it is in [t]. *)
Definition completes (s t : table) : Prop :=
  ∀ i j, (i < 9)%nat → (j < 9)%nat → get t i j ≠ 0 → get s i j = get t i j.

(** The cells that a scan for a hidden single counts. *)
Definition row_hit (t : table) (row : nat) (num : Z) (j : nat) : bool :=
  (get t row j =? 0) && allowed_in_col t j num && allowed_in_block t row j num.

Definition col_hit (t : table) (col : nat) (num : Z) (i : nat) : bool :=
  (get t i col =? 0) && allowed_in_row t i num && allowed_in_block t i col num.

Definition block_hit (t : table) (num : Z) (p : nat * nat) : bool :=
  (get t p.1 p.2 =? 0) && allowed_at_position t p.1 p.2 num.

(** [solved_table] with two cells emptied. *)
Definition easy_table : table := set (set solved_table 0 0 0) 4 4 0.

(** What [solve] returns on [easy_table]. *)
Definition easy_run : run :=
  Run (Mem solved_table [Write 4 4 0 5; Write 0 0 0 5]) Done [Pass false 2 0].

(** The memory holds a table, and [s] completes it. *)
Definition keeps (s : table) (m : mem) : Prop :=
  wf_table (cells m) ∧ completes s (cells m).

(** ** The locals that the source leaves uninitialised

    [allowed] in [select_allowed], [possible_col] in
    [select_possible_in_row], [possible_row] in [select_possible_in_col] and
    both in [select_possible_in_block] are declared without an initialiser.
    In this second embedding of the solver, what such a local holds at its
    declaration comes from the environment: [junk k] is the content of the
    [k]-th of them to be declared during the run, and the functions thread
    the number of locals declared so far along with the memory.  An index
    is the content of the local as a natural number. *)

Module Indeterminate.

Definition scan_allowed (allowed0 : Z) (t : table) (row col : nat) : Z * Z :=
  fold_left (λ '(allowed, count_allowed) num,
    if allowed_at_position t row col num
    then (num, count_allowed + 1)
    else (allowed, count_allowed)) nums (allowed0, 0).

Definition select_allowed (junk : nat → Z) (st : mem * nat) (row col : nat)
    (assign_random : bool) : mem * nat :=
  let '(m, k) := st in
  let '(allowed, count_allowed) := scan_allowed (junk k) (cells m) row col in
  (if (count_allowed =? 1) || ((1 <=? count_allowed) && assign_random)
   then store m row col allowed
   else m, S k).

Definition scan_row (possible_col0 : nat) (t : table) (row : nat) (num : Z)
  : nat * Z :=
  for_range 0 9 (λ '(possible_col, count_possible) j,
    if (get t row j =? 0) && allowed_in_col t j num && allowed_in_block t row j num
    then (j, count_possible + 1)
    else (possible_col, count_possible)) (possible_col0, 0).

Definition select_possible_in_row (junk : nat → Z) (st : mem * nat) (row : nat)
    (num : Z) : mem * nat :=
  let '(m, k) := st in
  if negb (allowed_in_row (cells m) row num) then (m, k)
  else
    let '(possible_col, count_possible) :=
      scan_row (Z.to_nat (junk k)) (cells m) row num in
    (if count_possible =? 1 then store m row possible_col num else m, S k).

Definition scan_col (possible_row0 : nat) (t : table) (col : nat) (num : Z)
  : nat * Z :=
  for_range 0 9 (λ '(possible_row, count_possible) i,
    if (get t i col =? 0) && allowed_in_row t i num && allowed_in_block t i col num
    then (i, count_possible + 1)
    else (possible_row, count_possible)) (possible_row0, 0).

Definition select_possible_in_col (junk : nat → Z) (st : mem * nat) (col : nat)
    (num : Z) : mem * nat :=
  let '(m, k) := st in
  if negb (allowed_in_col (cells m) col num) then (m, k)
  else
    let '(possible_row, count_possible) :=
      scan_col (Z.to_nat (junk k)) (cells m) col num in
    (if count_possible =? 1 then store m possible_row col num else m, S k).

Definition scan_block (possible_row0 possible_col0 : nat) (t : table)
    (row col : nat) (num : Z) : nat * nat * Z :=
  for_range row 3 (λ st i,
    for_range col 3 (λ '(possible_row, possible_col, count_possible) j,
      if (get t i j =? 0) && allowed_at_position t i j num
      then (i, j, count_possible + 1)
      else (possible_row, possible_col, count_possible)) st)
    (possible_row0, possible_col0, 0).

Definition select_possible_in_block (junk : nat → Z) (st : mem * nat)
    (row col : nat) (num : Z) : mem * nat :=
  let '(m, k) := st in
  if negb (allowed_in_block (cells m) row col num) then (m, k)
  else
    let '(possible_row, possible_col, count_possible) :=
      scan_block (Z.to_nat (junk k)) (Z.to_nat (junk (S k))) (cells m) row col num in
    (if count_possible =? 1 then store m possible_row possible_col num else m,
     S (S k)).

Definition select_possible (junk : nat → Z) (st : mem * nat) (num : Z)
  : mem * nat :=
  let st := for_range 0 9 (λ st i, select_possible_in_row junk st i num) st in
  let st := for_range 0 9 (λ st j, select_possible_in_col junk st j num) st in
  fold_left (λ st i,
    fold_left (λ st j, select_possible_in_block junk st i j num) block_starts st)
    block_starts st.

Definition sweep_allowed (junk : nat → Z) (st : mem * nat) (assign_random : bool)
  : mem * nat * bool :=
  for_range 0 9 (λ st i,
    for_range 0 9 (λ st j,
      let '(s, assign_random) := st in
      if get (cells s.1) i j =? 0
      then (select_allowed junk s i j assign_random, false)
      else (s, assign_random)) st) (st, assign_random).

Definition single_pass (junk : nat → Z) (st : mem * nat) (assign_random : bool)
  : mem * nat :=
  let '(st, _) := sweep_allowed junk st assign_random in
  fold_left (select_possible junk) nums st.

Fixpoint solve_loop (junk : nat → Z) (fuel : nat) (st : mem * nat)
    (prev_zeros : Z) (assign_random : bool) : option run :=
  match fuel with
  | O => None
  | S fuel =>
      let zeros := number_of_empty_cells (cells st.1) in
      if zeros =? 0 then Some (Run st.1 Done [])
      else if (zeros =? prev_zeros) && assign_random then Some (Run st.1 GaveUp [])
      else
        let assign_random := if zeros =? prev_zeros then true else assign_random in
        let st' := single_pass junk st assign_random in
        after_pass (Pass assign_random zeros (number_of_empty_cells (cells st'.1)))
          <$> solve_loop junk fuel st' zeros assign_random
  end.

Definition solve (junk : nat → Z) (t : table) : option run :=
  solve_loop junk solve_fuel (load t, 0%nat) 81 false.

End Indeterminate.

(** ** The journal of a run *)

(** The table after the stores [ws], oldest first, have been made in [t]. *)
Definition replay (t : table) (ws : list write) : table :=
  fold_left (λ t w, set t (w_row w) (w_col w) (w_new w)) ws t.

(** The stores of a memory, oldest first. *)
Definition journal (m : mem) : list write := rev (writes m).

(** The memory [m] came from the table [t] by the stores of its journal. *)
Definition journaled (t : table) (m : mem) : Prop :=
  cells m = replay t (journal m).

(** In the run [r] on the table [t], every pass that was asked to assign
    randomly starts at some point [ws1] of the journal, with as many empty
    cells as the pass records; and if the first empty cell of the table at
    that point has an allowed number, the next store puts the largest
    allowed number into that cell. *)
Definition guesses_store_largest (t : table) (r : run) : Prop :=
  ∀ p, p ∈ passes r → p_random p = true →
    ∃ ws1 ws2,
      journal (final r) = ws1 ++ ws2
      ∧ number_of_empty_cells (replay t ws1) = p_before p
      ∧ ∀ i j, first_blank (replay t ws1) = Some (i, j) →
          candidates (replay t ws1) i j ≠ [] →
          head ws2
          = Some (Write i j 0 (largest (candidates (replay t ws1) i j))).

(** * Proofs *)

(** Boolean tests on integers, turned into propositions for [lia]. *)
Ltac zbool :=
  repeat match goal with
  | H : _ && _ = true |- _ => apply andb_true_iff in H as [? ?]
  | H : _ || _ = false |- _ => apply orb_false_iff in H as [? ?]
  | H : _ && true = _ |- _ => rewrite andb_true_r in H
  | H : _ && false = _ |- _ => rewrite andb_false_r in H
  | H : negb _ = true |- _ => apply negb_true_iff in H
  | H : negb _ = false |- _ => apply negb_false_iff in H
  | H : (_ =? _) = true |- _ => apply Z.eqb_eq in H
  | H : (_ =? _) = false |- _ => apply Z.eqb_neq in H
  | H : (_ <=? _) = true |- _ => apply Z.leb_le in H
  | H : (_ <=? _) = false |- _ => apply Z.leb_gt in H
  | H : (_ <? _) = true |- _ => apply Z.ltb_lt in H
  | H : (_ <? _) = false |- _ => apply Z.ltb_ge in H
  end.

(** ** Folds *)

Lemma fold_left_inv {S A} (P : S → Prop) (f : S → A → S) (l : list A) (s : S) :
  P s → (∀ s x, x ∈ l → P s → P (f s x)) → P (fold_left f l s).
Proof.
  revert s. induction l as [|x l IH]; intros s Hs Hstep; simpl; [done|].
  apply IH.
  - apply Hstep; [left|done].
  - intros s' y Hy. apply Hstep. by right.
Qed.

Lemma fold_left_fmap {S A B} (f : S → B → S) (g : A → B) (l : list A) (s : S) :
  fold_left f (g <$> l) s = fold_left (λ s x, f s (g x)) l s.
Proof. revert s. induction l as [|x l IH]; intros s; simpl; [done|apply IH]. Qed.

Lemma fold_left_prod {S A B} (f : S → A → B → S) (la : list A) (lb : list B) (s : S) :
  fold_left (λ s a, fold_left (λ s b, f s a b) lb s) la s
  = fold_left (λ s p, f s p.1 p.2) (list_prod la lb) s.
Proof.
  revert s. induction la as [|a la IH]; intros s; simpl; [done|].
  rewrite fold_left_app, IH. f_equal.
  change (map (λ y : B, (a, y)) lb) with ((λ y : B, (a, y)) <$> lb).
  by rewrite (fold_left_fmap (λ (s : S) (p : A * B), f s p.1 p.2)).
Qed.

Lemma fold_left_countb {A} (p : A → bool) (l : list A) (z : Z) :
  fold_left (λ z x, if p x then z + 1 else z) l z = z + countb p l.
Proof.
  revert z. induction l as [|x l IH]; intros z; simpl; [lia|].
  rewrite IH. destruct (p x); lia.
Qed.

Lemma countb_bounds {A} (p : A → bool) (l : list A) :
  0 ≤ countb p l ≤ Z.of_nat (length l).
Proof. induction l as [|x l IH]; simpl; [lia|]. destruct (p x); lia. Qed.

Lemma countb_ext {A} (p q : A → bool) (l : list A) :
  (∀ x, x ∈ l → p x = q x) → countb p l = countb q l.
Proof.
  induction l as [|x l IH]; intros H; simpl; [done|].
  rewrite (H x) by left. rewrite IH; [done|]. intros y Hy. apply H. by right.
Qed.

(** Turning one counted element of a duplicate-free list off lowers the
    count by one. *)
Lemma countb_switch_off {A} (p q : A → bool) (l : list A) (x : A) :
  NoDup l → x ∈ l → p x = true → q x = false →
  (∀ y, y ∈ l → y ≠ x → q y = p y) →
  countb q l = countb p l - 1.
Proof.
  induction 1 as [|y l Hy Hnd IH]; intros Hx Hp Hq Hoth.
  - by apply elem_of_nil in Hx.
  - simpl. apply elem_of_cons in Hx as [->|Hx].
    + rewrite Hp, Hq. rewrite (countb_ext q p l); [lia|].
      intros z Hz. apply Hoth; [by right|]. intros ->. done.
    + assert (y ≠ x) as Hne by (intros ->; done).
      rewrite IH; [|done..|].
      * rewrite (Hoth y); [lia|left|done].
      * intros z Hz. apply Hoth. by right.
Qed.

(** ** Reading and writing cells *)

Lemma get_set_eq t i j v :
  wf_table t → (i < 9)%nat → (j < 9)%nat → get (set t i j v) i j = v.
Proof.
  intros [Hlen Hrows] Hi Hj. unfold get, set. rewrite list_lookup_alter_eq.
  destruct (t !! i) as [row|] eqn:Hrow; simpl.
  - rewrite list_lookup_insert_eq; [done|].
    rewrite Forall_lookup in Hrows. rewrite (Hrows _ _ Hrow). lia.
  - apply lookup_ge_None in Hrow. lia.
Qed.

Lemma get_set_ne t i j v i' j' :
  (i, j) ≠ (i', j') → get (set t i j v) i' j' = get t i' j'.
Proof.
  intros Hne. unfold get, set. destruct (decide (i = i')) as [->|Hi].
  - rewrite list_lookup_alter_eq. destruct (t !! i') as [row|]; simpl; [|done].
    rewrite list_lookup_insert_ne; [done|congruence].
  - by rewrite list_lookup_alter_ne.
Qed.

Lemma wf_set t i j v : wf_table t → wf_table (set t i j v).
Proof.
  intros [Hlen Hrows]. unfold set. split.
  - by rewrite length_alter.
  - apply Forall_alter; [done|]. intros row _ Hrow. by rewrite length_insert.
Qed.

Lemma elem_of_all_cells i j : (i, j) ∈ all_cells ↔ (i < 9)%nat ∧ (j < 9)%nat.
Proof.
  unfold all_cells. rewrite list_elem_of_In, in_prod_iff, !in_seq. lia.
Qed.

Lemma NoDup_all_cells : NoDup all_cells.
Proof. apply (bool_decide_unpack _). by vm_compute. Qed.

Lemma number_of_empty_cells_countb t :
  number_of_empty_cells t = countb (is_blank t) all_cells.
Proof.
  unfold number_of_empty_cells, for_range.
  rewrite (fold_left_prod (λ zeros i j, if get t i j =? 0 then zeros + 1 else zeros)).
  by rewrite (fold_left_countb (is_blank t)).
Qed.

Lemma number_of_empty_cells_bounds t : 0 ≤ number_of_empty_cells t ≤ 81.
Proof.
  rewrite number_of_empty_cells_countb.
  pose proof (countb_bounds (is_blank t) all_cells) as H.
  change (length all_cells) with 81%nat in H. lia.
Qed.

Lemma number_of_empty_cells_set t i j v :
  wf_table t → (i < 9)%nat → (j < 9)%nat → get t i j = 0 → v ≠ 0 →
  number_of_empty_cells (set t i j v) = number_of_empty_cells t - 1.
Proof.
  intros Hwf Hi Hj Hblank Hv. rewrite !number_of_empty_cells_countb.
  apply (countb_switch_off _ _ _ (i, j)).
  - apply NoDup_all_cells.
  - by apply elem_of_all_cells.
  - unfold is_blank; simpl. lia.
  - unfold is_blank; simpl. rewrite get_set_eq by done. lia.
  - intros [i' j'] _ Hne. unfold is_blank; simpl.
    rewrite get_set_ne; [done|congruence].
Qed.

(** ** Fillings *)

Lemma fills_refl m : fills m m.
Proof. apply rtc_refl. Qed.

Lemma fills_trans m1 m2 m3 : fills m1 m2 → fills m2 m3 → fills m1 m3.
Proof. intros H1 H2. unfold fills in *. by etrans. Qed.

Lemma fills_store m i j v :
  (i < 9)%nat → (j < 9)%nat → get (cells m) i j = 0 → 1 ≤ v ≤ 9 →
  fills m (store m i j v).
Proof. intros. apply rtc_once. by constructor. Qed.

Lemma fills_wf m m' : fills m m' → wf_table (cells m) → wf_table (cells m').
Proof.
  induction 1 as [|m1 m2 m3 Hfill _ IH]; [done|]. intros Hwf. apply IH.
  destruct Hfill; simpl. by apply wf_set.
Qed.

(** A filling strictly lowers the number of empty cells, unless it is no
    filling at all. *)
Lemma fills_zeros m m' :
  fills m m' → wf_table (cells m) →
  m' = m ∨ number_of_empty_cells (cells m') < number_of_empty_cells (cells m).
Proof.
  induction 1 as [|m1 m2 m3 Hfill _ IH]; [by left|]. intros Hwf. right.
  assert (number_of_empty_cells (cells m2) = number_of_empty_cells (cells m1) - 1
          ∧ wf_table (cells m2)) as [Hz Hwf2].
  { destruct Hfill; simpl. split; [|by apply wf_set].
    apply number_of_empty_cells_set; [done..|lia]. }
  destruct (IH Hwf2) as [->|Hlt]; lia.
Qed.

Lemma fills_zeros_le m m' :
  fills m m' → wf_table (cells m) →
  number_of_empty_cells (cells m') ≤ number_of_empty_cells (cells m).
Proof. intros H Hwf. destruct (fills_zeros _ _ H Hwf) as [->|]; lia. Qed.

Lemma fills_same_zeros m m' :
  fills m m' → wf_table (cells m) →
  number_of_empty_cells (cells m') = number_of_empty_cells (cells m) → m' = m.
Proof. intros H Hwf Hz. destruct (fills_zeros _ _ H Hwf) as [->|]; [done|lia]. Qed.

(** The journal grows by stores of digits into empty cells only. *)
Lemma fills_writes m m' :
  fills m m' → ∃ ws, writes m' = ws ++ writes m ∧ Forall good_write ws.
Proof.
  induction 1 as [m|m1 m2 m3 Hfill _ (ws & Hws & Hgood)].
  - by exists [].
  - destruct Hfill as [i j v Hi Hj Hblank Hv]. simpl in Hws.
    exists (ws ++ [Write i j (get (cells m1) i j) v]). split.
    + by rewrite <- app_assoc.
    + apply Forall_app. split; [done|]. apply Forall_singleton.
      unfold good_write; simpl. lia.
Qed.

(** Cells that are filled keep their value. *)
Lemma fills_keep m m' i j :
  fills m m' → get (cells m) i j ≠ 0 → get (cells m') i j = get (cells m) i j.
Proof.
  induction 1 as [|m1 m2 m3 Hfill _ IH]; [done|]. intros Hne.
  destruct Hfill as [i' j' v Hi Hj Hblank Hv]. simpl in IH.
  assert ((i', j') ≠ (i, j)) as Hpos by congruence.
  rewrite IH; rewrite get_set_ne by done; done.
Qed.

(** ** The scans *)

Lemma last_cons {A} (x : A) (l : list A) (d : A) : List.last (x :: l) d = List.last l x.
Proof.
  revert x d. induction l as [|y l IH]; intros x d; [done|].
  change (List.last (x :: y :: l) d) with (List.last (y :: l) d). by rewrite !IH.
Qed.

(** A scan that remembers the last hit and counts the hits. *)
Lemma fold_left_last_hit {A} (p : A → bool) (l : list A) (a : A) (n : Z) :
  fold_left (λ '(hit, count) x, if p x then (x, count + 1) else (hit, count)) l (a, n)
  = (List.last (List.filter p l) a, n + Z.of_nat (length (List.filter p l))).
Proof.
  revert a n. induction l as [|x l IH]; intros a n; simpl.
  - f_equal. lia.
  - destruct (p x); rewrite IH; [|done].
    rewrite last_cons. simpl. f_equal. lia.
Qed.

Lemma scan_allowed_candidates t row col :
  scan_allowed t row col
  = (List.last (candidates t row col) 0, Z.of_nat (length (candidates t row col))).
Proof. unfold scan_allowed, candidates. by rewrite fold_left_last_hit. Qed.

Lemma elem_of_nums num : num ∈ nums ↔ 1 ≤ num ≤ 9.
Proof. unfold nums. rewrite elem_of_seqZ. lia. Qed.

Lemma elem_of_candidates t row col num :
  num ∈ candidates t row col ↔
  1 ≤ num ≤ 9 ∧ allowed_at_position t row col num = true.
Proof.
  unfold candidates. rewrite list_elem_of_In, filter_In, <- list_elem_of_In.
  by rewrite elem_of_nums.
Qed.

Lemma last_elem_of {A} (l : list A) (d : A) : l ≠ [] → List.last l d ∈ l.
Proof.
  revert d. induction l as [|x l IH]; intros d Hl; [done|].
  rewrite last_cons. destruct l as [|y l]; [left|].
  right. by apply IH.
Qed.

Lemma length_pos_nonnil {A} (l : list A) : 1 ≤ Z.of_nat (length l) → l ≠ [].
Proof. destruct l; simpl; [lia|done]. Qed.

Lemma scan_row_spec t row num :
  scan_inv (λ j, (j < 9)%nat ∧ get t row j = 0) (scan_row t row num).
Proof.
  unfold scan_row, for_range. apply fold_left_inv.
  - split; simpl; lia.
  - intros [pos count] j Hj [Hcount Hgood].
    apply elem_of_seq in Hj. simpl in *.
    destruct (get t row j =? 0) eqn:Hblank; simpl; [|by split].
    destruct (allowed_in_col t j num && allowed_in_block t row j num); [|by split].
    split; simpl; [lia|]. intros _. split; lia.
Qed.

Lemma scan_col_spec t col num :
  scan_inv (λ i, (i < 9)%nat ∧ get t i col = 0) (scan_col t col num).
Proof.
  unfold scan_col, for_range. apply fold_left_inv.
  - split; simpl; lia.
  - intros [pos count] i Hi [Hcount Hgood].
    apply elem_of_seq in Hi. simpl in *.
    destruct (get t i col =? 0) eqn:Hblank; simpl; [|by split].
    destruct (allowed_in_row t i num && allowed_in_block t i col num); [|by split].
    split; simpl; [lia|]. intros _. split; lia.
Qed.

Lemma scan_block_spec t row col num :
  row ∈ block_starts → col ∈ block_starts →
  scan_inv (λ p, (p.1 < 9)%nat ∧ (p.2 < 9)%nat ∧ get t p.1 p.2 = 0)
    (scan_block t row col num).
Proof.
  intros Hrow Hcol.
  assert (row ≤ 6 ∧ col ≤ 6)%nat as [Hr Hc].
  { unfold block_starts in *. set_unfold. lia. }
  unfold scan_block, for_range. apply fold_left_inv.
  - split; simpl; lia.
  - intros st i Hi Hst. apply elem_of_seq in Hi. apply fold_left_inv; [done|].
    intros [[pr pc] count] j Hj [Hcount Hgood].
    apply elem_of_seq in Hj. simpl in *.
    destruct (get t i j =? 0) eqn:Hblank; simpl; [|by split].
    destruct (allowed_at_position t i j num); [|by split].
    split; simpl; [lia|]. intros _. repeat split; lia.
Qed.

(** ** Every operation fills empty cells with digits *)

Lemma select_allowed_fills m row col assign_random :
  (row < 9)%nat → (col < 9)%nat → get (cells m) row col = 0 →
  fills m (select_allowed m row col assign_random).
Proof.
  intros Hrow Hcol Hblank. unfold select_allowed.
  rewrite scan_allowed_candidates.
  destruct (_ || _) eqn:Htest; [|apply fills_refl].
  apply fills_store; [done..|].
  apply (elem_of_candidates (cells m) row col), last_elem_of, length_pos_nonnil.
  destruct assign_random; lia.
Qed.

Lemma select_possible_in_row_fills m row num :
  (row < 9)%nat → 1 ≤ num ≤ 9 → fills m (select_possible_in_row m row num).
Proof.
  intros Hrow Hnum. unfold select_possible_in_row.
  destruct (negb _); [apply fills_refl|].
  pose proof (scan_row_spec (cells m) row num) as [_ Hgood].
  destruct (scan_row _ _ _) as [pos count]; simpl in *.
  destruct (count =? 1) eqn:Hcount; [|apply fills_refl].
  destruct Hgood; [lia|]. by apply fills_store.
Qed.

Lemma select_possible_in_col_fills m col num :
  (col < 9)%nat → 1 ≤ num ≤ 9 → fills m (select_possible_in_col m col num).
Proof.
  intros Hcol Hnum. unfold select_possible_in_col.
  destruct (negb _); [apply fills_refl|].
  pose proof (scan_col_spec (cells m) col num) as [_ Hgood].
  destruct (scan_col _ _ _) as [pos count]; simpl in *.
  destruct (count =? 1) eqn:Hcount; [|apply fills_refl].
  destruct Hgood; [lia|]. by apply fills_store.
Qed.

Lemma select_possible_in_block_fills m row col num :
  row ∈ block_starts → col ∈ block_starts → 1 ≤ num ≤ 9 →
  fills m (select_possible_in_block m row col num).
Proof.
  intros Hrow Hcol Hnum. unfold select_possible_in_block.
  destruct (negb _); [apply fills_refl|].
  pose proof (scan_block_spec (cells m) row col num Hrow Hcol) as [_ Hgood].
  destruct (scan_block _ _ _ _) as [[pr pc] count]; simpl in *.
  destruct (count =? 1) eqn:Hcount; [|apply fills_refl].
  destruct Hgood as (? & ? & ?); [lia|]. by apply fills_store.
Qed.

Lemma select_possible_fills m num :
  1 ≤ num ≤ 9 → fills m (select_possible m num).
Proof.
  intros Hnum. unfold select_possible, for_range.
  apply (fold_left_inv (fills m)).
  - apply (fold_left_inv (fills m)).
    + apply (fold_left_inv (fills m)); [apply fills_refl|].
      intros m' i Hi Hm'. apply elem_of_seq in Hi.
      eapply fills_trans; [done|]. apply select_possible_in_row_fills; lia.
    + intros m' j Hj Hm'. apply elem_of_seq in Hj.
      eapply fills_trans; [done|]. apply select_possible_in_col_fills; lia.
  - intros m' i Hi Hm'. apply (fold_left_inv (fills m)); [done|].
    intros m'' j Hj Hm''.
    eapply fills_trans; [done|]. by apply select_possible_in_block_fills.
Qed.

Lemma sweep_allowed_fills m assign_random :
  fills m (sweep_allowed m assign_random).1.
Proof.
  unfold sweep_allowed, for_range.
  apply (fold_left_inv (λ st, fills m st.1)); [apply fills_refl|].
  intros st i Hi Hst. apply elem_of_seq in Hi.
  apply (fold_left_inv (λ st, fills m st.1)); [done|].
  intros [m' flag] j Hj Hm'. apply elem_of_seq in Hj. simpl in *.
  destruct (get (cells m') i j =? 0) eqn:Hblank; simpl; [|done].
  eapply fills_trans; [done|]. apply select_allowed_fills; lia.
Qed.

Lemma single_pass_fills m assign_random :
  fills m (single_pass m assign_random).
Proof.
  unfold single_pass.
  pose proof (sweep_allowed_fills m assign_random) as Hsweep.
  destruct (sweep_allowed m assign_random) as [m' flag]; simpl in Hsweep.
  apply (fold_left_inv (fills m)); [done|].
  intros m'' num Hnum Hm''. apply elem_of_nums in Hnum.
  eapply fills_trans; [done|]. by apply select_possible_fills.
Qed.

(** ** The solving loop *)

Lemma solve_loop_S fuel m prev_zeros assign_random :
  solve_loop (S fuel) m prev_zeros assign_random =
  let zeros := number_of_empty_cells (cells m) in
  if zeros =? 0 then Some (Run m Done [])
  else if (zeros =? prev_zeros) && assign_random then Some (Run m GaveUp [])
  else
    let assign_random := if zeros =? prev_zeros then true else assign_random in
    let m' := single_pass m assign_random in
    after_pass (Pass assign_random zeros (number_of_empty_cells (cells m')))
      <$> solve_loop fuel m' zeros assign_random.
Proof. done. Qed.

Lemma single_pass_wf m assign_random :
  wf_table (cells m) → wf_table (cells (single_pass m assign_random)).
Proof. apply fills_wf, single_pass_fills. Qed.

Lemma single_pass_zeros m assign_random :
  wf_table (cells m) →
  number_of_empty_cells (cells (single_pass m assign_random))
  ≤ number_of_empty_cells (cells m).
Proof. apply fills_zeros_le, single_pass_fills. Qed.

(** With more fuel than [pass_bound] the loop reaches a [break], after at
    most [pass_bound] passes. *)
Lemma solve_loop_terminates fuel m prev_zeros assign_random :
  wf_table (cells m) →
  pass_bound (number_of_empty_cells (cells m)) prev_zeros assign_random
    < Z.of_nat fuel →
  ∃ r, solve_loop fuel m prev_zeros assign_random = Some r
       ∧ Z.of_nat (length (passes r))
         ≤ pass_bound (number_of_empty_cells (cells m)) prev_zeros assign_random.
Proof.
  revert m prev_zeros assign_random.
  induction fuel as [|fuel IH]; intros m prev flag Hwf Hfuel.
  { pose proof (number_of_empty_cells_bounds (cells m)).
    unfold pass_bound in Hfuel. repeat case_match; lia. }
  rewrite solve_loop_S. cbv zeta.
  pose proof (number_of_empty_cells_bounds (cells m)) as Hz.
  set (z := number_of_empty_cells (cells m)) in *.
  destruct (z =? 0) eqn:Hz0.
  { eexists. split; [done|]. unfold pass_bound; simpl. repeat case_match; lia. }
  destruct ((z =? prev) && flag) eqn:Hstop.
  { eexists. split; [done|]. unfold pass_bound; simpl. repeat case_match; lia. }
  set (flag' := if z =? prev then true else flag) in *.
  pose proof (single_pass_wf m flag' Hwf) as Hwf'.
  pose proof (single_pass_zeros m flag' Hwf) as Hle. fold z in Hle.
  pose proof (number_of_empty_cells_bounds (cells (single_pass m flag'))) as Hz'.
  destruct (IH (single_pass m flag') z flag' Hwf') as (r & Hr & Hlen).
  { unfold pass_bound, flag' in *.
    destruct flag, (z =? prev) eqn:?; simpl in *; try done;
      repeat case_match; lia. }
  rewrite Hr. simpl. eexists. split; [done|]. simpl.
  unfold pass_bound, flag' in *.
  destruct flag, (z =? prev) eqn:?; simpl in *; try done;
    repeat case_match; lia.
Qed.

(** More fuel does not change the result. *)
Lemma solve_loop_more_fuel fuel fuel' m prev_zeros assign_random r :
  solve_loop fuel m prev_zeros assign_random = Some r → (fuel ≤ fuel')%nat →
  solve_loop fuel' m prev_zeros assign_random = Some r.
Proof.
  revert fuel' m prev_zeros assign_random r.
  induction fuel as [|fuel IH]; intros fuel' m prev flag r Hr Hle; [done|].
  destruct fuel' as [|fuel']; [lia|].
  rewrite solve_loop_S in *. cbv zeta in *.
  repeat case_match; try done.
  all: apply fmap_Some in Hr as (r' & Hr' & ->).
  all: erewrite IH; [done|done|lia].
Qed.

Lemma solve_loop_fills fuel m prev_zeros assign_random r :
  solve_loop fuel m prev_zeros assign_random = Some r → fills m (final r).
Proof.
  revert m prev_zeros assign_random r.
  induction fuel as [|fuel IH]; intros m prev flag r Hr; [done|].
  rewrite solve_loop_S in Hr. cbv zeta in Hr.
  destruct (_ =? 0); [injection Hr as <-; apply fills_refl|].
  destruct (_ && _); [injection Hr as <-; apply fills_refl|].
  apply fmap_Some in Hr as (r' & Hr' & ->). simpl.
  eapply fills_trans; [apply single_pass_fills|]. by eapply IH.
Qed.

(** ** A pass that was asked to guess and filled nothing *)

Lemma sweep_allowed_flat m assign_random :
  sweep_allowed m assign_random = fold_left sweep_step all_cells (m, assign_random).
Proof.
  unfold sweep_allowed, for_range, all_cells.
  exact (fold_left_prod (λ st i j, sweep_step st (i, j)) _ _ _).
Qed.

Lemma sweep_steps_fills (l : list (nat * nat)) (st : mem * bool) :
  (∀ p, p ∈ l → (p.1 < 9)%nat ∧ (p.2 < 9)%nat) →
  fills st.1 (fold_left sweep_step l st).1.
Proof.
  intros Hl. apply (fold_left_inv (λ st', fills st.1 st'.1)); [apply fills_refl|].
  intros [m' flag] p Hp Hm'. destruct (Hl p Hp). unfold sweep_step.
  destruct (_ =? 0) eqn:Hblank; [|done]. simpl in *.
  eapply fills_trans; [done|]. apply select_allowed_fills; lia.
Qed.

Lemma store_neq m i j v : store m i j v ≠ m.
Proof.
  intros H. apply (f_equal (λ m, length (writes m))) in H. simpl in H. lia.
Qed.

Lemma select_allowed_same m row col :
  select_allowed m row col true = m → candidates (cells m) row col = [].
Proof.
  unfold select_allowed. rewrite scan_allowed_candidates.
  destruct (_ || _) eqn:Htest; [by intros ?%store_neq|]. intros _.
  destruct (candidates _ _ _) eqn:Hcand; [done|]. cbn [length] in Htest. zbool. lia.
Qed.

Lemma sweep_stuck (l : list (nat * nat)) (m : mem) (p : nat * nat) :
  wf_table (cells m) →
  (∀ q, q ∈ l → (q.1 < 9)%nat ∧ (q.2 < 9)%nat) →
  (fold_left sweep_step l (m, true)).1 = m →
  List.find (is_blank (cells m)) l = Some p →
  candidates (cells m) p.1 p.2 = [].
Proof.
  intros Hwf. induction l as [|q l IH]; intros Hl Hsame Hfind; [done|].
  simpl in Hsame, Hfind. unfold is_blank in Hfind at 1.
  destruct (get (cells m) q.1 q.2 =? 0) eqn:Hblank.
  - injection Hfind as <-. apply select_allowed_same.
    destruct (Hl q) as [Hi Hj]; [left|].
    pose proof (select_allowed_fills m q.1 q.2 true Hi Hj) as Hfirst.
    pose proof (sweep_steps_fills l (select_allowed m q.1 q.2 true, false)) as Hrest.
    rewrite Hsame in Hrest. simpl in Hrest.
    apply fills_same_zeros; [apply Hfirst; lia|done|].
    pose proof (fills_zeros_le _ _ (Hfirst ltac:(lia)) Hwf).
    assert (wf_table (cells (select_allowed m q.1 q.2 true))) as Hwf'.
    { eapply fills_wf; [apply Hfirst; lia|done]. }
    assert (fills (select_allowed m q.1 q.2 true) m) as Hback.
    { apply Hrest. intros q' Hq'. apply Hl. by right. }
    pose proof (fills_zeros_le _ _ Hback Hwf'). lia.
  - apply IH; [|done..]. intros q' Hq'. apply Hl. by right.
Qed.

Lemma single_pass_stuck m p :
  wf_table (cells m) → single_pass m true = m →
  first_blank (cells m) = Some p → candidates (cells m) p.1 p.2 = [].
Proof.
  intros Hwf Hsame Hfirst.
  apply (sweep_stuck all_cells); [done| |  |done].
  { intros [i j]. apply elem_of_all_cells. }
  unfold single_pass in Hsame. rewrite <- sweep_allowed_flat.
  pose proof (sweep_allowed_fills m true) as Hsweep.
  destruct (sweep_allowed m true) as [m1 flag]; cbn [fst] in *.
  assert (fills m1 m) as Hback.
  { rewrite <- Hsame. apply (fold_left_inv (fills m1)); [apply fills_refl|].
    intros m2 num Hnum Hm2. apply elem_of_nums in Hnum.
    eapply fills_trans; [done|]. by apply select_possible_fills. }
  apply fills_same_zeros; [done..|].
  pose proof (fills_zeros_le _ _ Hsweep Hwf).
  pose proof (fills_zeros_le _ _ Hback (fills_wf _ _ Hsweep Hwf)). lia.
Qed.

Lemma countb_find {A} (p : A → bool) (l : list A) :
  countb p l ≠ 0 → ∃ x, List.find p l = Some x.
Proof.
  induction l as [|x l IH]; simpl; [done|].
  destruct (p x); [by eexists|]. intros H. apply IH. lia.
Qed.

Lemma first_blank_exists t :
  number_of_empty_cells t ≠ 0 → ∃ p, first_blank t = Some p.
Proof. rewrite number_of_empty_cells_countb. apply countb_find. Qed.

(** A run without a pass leaves the memory alone, and gives up only when
    entered with a stalled count and the flag already set. *)
Lemma solve_loop_no_pass fuel m prev_zeros assign_random r :
  solve_loop fuel m prev_zeros assign_random = Some r → passes r = [] →
  final r = m
  ∧ (how r = GaveUp →
     number_of_empty_cells (cells m) = prev_zeros ∧ assign_random = true).
Proof.
  destruct fuel as [|fuel]; [done|]. rewrite solve_loop_S. cbv zeta.
  destruct (number_of_empty_cells (cells m) =? 0) eqn:Hz0.
  { by intros [= <-]. }
  destruct ((number_of_empty_cells (cells m) =? prev_zeros) && assign_random)
    eqn:Hstop.
  { intros [= <-] _. split; [done|]. intros _. zbool. done. }
  intros (r' & _ & ->)%fmap_Some. done.
Qed.

(** When the loop gives up, the table is a fixed point of a pass that was
    asked to assign randomly, and that pass is the last one of the run. *)
Lemma solve_loop_gave_up fuel m prev_zeros assign_random r :
  wf_table (cells m) →
  solve_loop fuel m prev_zeros assign_random = Some r → how r = GaveUp →
  number_of_empty_cells (cells (final r)) ≠ 0
  ∧ (passes r = []
     ∨ (single_pass (final r) true = final r
        ∧ ∃ z, last (passes r) = Some (Pass true z z))).
Proof.
  revert m prev_zeros assign_random r.
  induction fuel as [|fuel IH]; intros m prev flag r Hwf Hr Hhow; [done|].
  rewrite solve_loop_S in Hr. cbv zeta in Hr.
  set (z := number_of_empty_cells (cells m)) in *.
  destruct (z =? 0) eqn:Hz0; [by injection Hr as <-|].
  destruct ((z =? prev) && flag) eqn:Hstop.
  { injection Hr as <-. simpl. split; [fold z; zbool; lia|by left]. }
  apply fmap_Some in Hr as (r' & Hr' & ->). simpl in *.
  set (flag' := if z =? prev then true else flag) in *.
  destruct (IH _ _ _ _ (single_pass_wf m flag' Hwf) Hr' Hhow)
    as [Hblank [Hnil|[Hfix [z' Hlast]]]]; (split; [done|right]).
  - destruct (solve_loop_no_pass _ _ _ _ _ Hr' Hnil) as [Hfinal Hstall].
    destruct (Hstall Hhow) as [Hz' Hflag]. rewrite Hflag in *.
    assert (single_pass m true = m) as Hsame.
    { apply fills_same_zeros; [apply single_pass_fills|done|done]. }
    rewrite Hfinal, Hnil, !Hsame. split; [done|]. by exists z.
  - split; [done|]. exists z'. destruct (passes r'); [done|].
    by rewrite last_cons_cons.
Qed.

(** ** The block check *)

Lemma forallb_false {A} (p : A → bool) (l : list A) :
  forallb p l = false ↔ ∃ x, x ∈ l ∧ p x = false.
Proof.
  induction l as [|x l IH]; simpl.
  - split; [done|]. intros (x & Hx & _). by apply elem_of_nil in Hx.
  - rewrite andb_false_iff, IH. split.
    + intros [Hx|(y & Hy & Hpy)]; [exists x|exists y]; (split; [|done]).
      * left.
      * by right.
    + intros (y & Hy & Hpy). apply elem_of_cons in Hy as [->|Hy]; [by left|].
      right. eauto.
Qed.

Lemma elem_of_block_range (row i : nat) :
  i ∈ seq (row - row mod 3) 3 ↔ (i / 3 = row / 3)%nat.
Proof.
  rewrite elem_of_seq.
  pose proof (Nat.div_mod_eq row 3). pose proof (Nat.div_mod_eq i 3).
  pose proof (Nat.mod_upper_bound row 3). pose proof (Nat.mod_upper_bound i 3).
  lia.
Qed.

Lemma allowed_in_block_false t row col num :
  allowed_in_block t row col num = false ↔
  ∃ i j, same_block row col i j ∧ i ≠ row ∧ j ≠ col ∧ get t i j = num.
Proof.
  unfold allowed_in_block, same_block. cbv zeta. rewrite forallb_false. split.
  - intros (i & Hi & Hrow). apply forallb_false in Hrow as (j & Hj & Hcell).
    apply elem_of_block_range in Hi, Hj. exists i, j.
    apply negb_false_iff in Hcell. zbool.
    repeat split; try done.
    + intros ->. by rewrite Nat.eqb_refl in *.
    + intros ->. by rewrite Nat.eqb_refl in *.
  - intros (i & j & [Hi Hj] & Hrow & Hcol & Hnum).
    exists i. split; [by apply elem_of_block_range|].
    apply forallb_false. exists j. split; [by apply elem_of_block_range|].
    apply Nat.eqb_neq in Hrow, Hcol. apply Z.eqb_eq in Hnum.
    by rewrite Hrow, Hcol, Hnum.
Qed.

Lemma bool_eq_false_iff (b1 b2 : bool) : (b1 = false ↔ b2 = false) → b1 = b2.
Proof. destruct b1, b2; intros [H1 H2]; try done; [by rewrite H2|by rewrite H1]. Qed.

(** ** The validator *)

Lemma row_frequency_tally t i : row_frequency t i = tally (row_cells t i).
Proof.
  unfold row_frequency, tally, row_cells, for_range. by rewrite fold_left_fmap.
Qed.

Lemma col_frequency_tally t j : col_frequency t j = tally (col_cells t j).
Proof.
  unfold col_frequency, tally, col_cells, for_range. by rewrite fold_left_fmap.
Qed.

Lemma block_frequency_tally t i j : block_frequency t i j = tally (block_cells t i j).
Proof.
  unfold block_frequency, tally, block_cells, for_range.
  rewrite fold_left_fmap.
  exact (fold_left_prod (λ frequency k l, bump frequency (get t k l)) _ _ _).
Qed.

Lemma length_fold_bump vs frequency :
  length (fold_left bump vs frequency) = length frequency.
Proof.
  revert frequency. induction vs as [|v vs IH]; intros frequency; simpl; [done|].
  rewrite IH. unfold bump. by rewrite length_alter.
Qed.

(** The entry of a digit holds its number of occurrences. *)
Lemma fold_bump_lookup vs frequency d :
  Forall digit vs → digit d →
  fold_left bump vs frequency !! Z.to_nat (d - 1)
  = (λ n, n + occurrences d vs) <$> frequency !! Z.to_nat (d - 1).
Proof.
  unfold digit. intros Hvs Hd. revert frequency.
  induction Hvs as [|v vs Hv _ IH]; intros frequency; simpl.
  - destruct (frequency !! _); simpl; [f_equal; unfold occurrences; simpl; lia|done].
  - rewrite IH. unfold bump, occurrences. simpl.
    destruct (d =? v) eqn:Hdv; zbool.
    + subst v. rewrite list_lookup_alter_eq.
      destruct (frequency !! _); simpl; [f_equal; lia|done].
    + rewrite list_lookup_alter_ne by lia.
      destruct (frequency !! _); simpl; [f_equal; lia|done].
Qed.

Lemma same_frequency_tally vs :
  Forall digit vs →
  same_frequency (tally vs) = true ↔ ∀ d, digit d → occurrences d vs = 1.
Proof.
  intros Hvs. unfold same_frequency, expected_frequency.
  rewrite bool_decide_eq_true. split.
  - intros Heq d Hd.
    pose proof (fold_bump_lookup vs (replicate 9 0) d Hvs Hd) as Hlook.
    fold (tally vs) in Hlook. rewrite Heq in Hlook. unfold digit in Hd.
    rewrite !lookup_replicate_2 in Hlook by lia. simpl in Hlook.
    injection Hlook as Hlook. lia.
  - intros Hocc. apply (list_eq_same_length _ _ 9%nat).
    + by rewrite length_replicate.
    + unfold tally. by rewrite length_fold_bump, length_replicate.
    + intros k x y Hk Hx Hy. apply lookup_replicate in Hy as [-> _].
      assert (digit (Z.of_nat k + 1)) as Hd by (unfold digit; lia).
      pose proof (fold_bump_lookup vs (replicate 9 0) _ Hvs Hd) as Hlook.
      fold (tally vs) in Hlook.
      replace (Z.to_nat (Z.of_nat k + 1 - 1)) with k in Hlook by lia.
      rewrite Hx, lookup_replicate_2, (Hocc _ Hd) in Hlook by lia.
      simpl in Hlook. by injection Hlook.
Qed.

(** The first loop nest of [valid]. *)
Lemma range_check_true t :
  forallb (λ i, forallb (λ j, negb ((get t i j <? 1) || (9 <? get t i j))) (seq 0 9))
    (seq 0 9) = true
  ↔ ∀ i j, (i < 9)%nat → (j < 9)%nat → digit (get t i j).
Proof.
  rewrite forallb_forall. unfold digit. split.
  - intros H i j Hi Hj. specialize (H i). rewrite forallb_forall in H.
    specialize (H ltac:(apply in_seq; lia) j ltac:(apply in_seq; lia)).
    zbool. lia.
  - intros H i Hi. apply forallb_forall. intros j Hj.
    apply in_seq in Hi, Hj. specialize (H i j ltac:(lia) ltac:(lia)).
    apply negb_true_iff, orb_false_iff. split; [apply Z.ltb_ge|apply Z.ltb_ge]; lia.
Qed.

Lemma units_digits t u :
  (∀ i j, (i < 9)%nat → (j < 9)%nat → digit (get t i j)) →
  u ∈ units t → Forall digit u.
Proof.
  intros Hrange Hu. unfold units in Hu.
  rewrite !elem_of_app, !list_elem_of_fmap in Hu.
  destruct Hu as [(i & -> & Hi)|[(j & -> & Hj)|([i j] & -> & Hij)]].
  - apply elem_of_seq in Hi. apply Forall_fmap, Forall_forall.
    intros j Hj%elem_of_seq. apply Hrange; lia.
  - apply elem_of_seq in Hj. apply Forall_fmap, Forall_forall.
    intros i Hi%elem_of_seq. apply Hrange; lia.
  - apply list_elem_of_In, in_prod_iff in Hij as [Hi Hj].
    assert (i ≤ 6 ∧ j ≤ 6)%nat as [? ?].
    { apply list_elem_of_In in Hi, Hj. unfold block_starts in *. set_unfold. lia. }
    apply Forall_fmap, Forall_forall. intros [k l] Hkl. simpl.
    apply list_elem_of_In, in_prod_iff in Hkl as [Hk Hl].
    apply in_seq in Hk, Hl. simpl in Hk, Hl. apply Hrange; lia.
Qed.

(** The three frequency loops of [valid], unit by unit. *)
Lemma frequency_checks t :
  forallb (λ i, same_frequency (row_frequency t i)) (seq 0 9)
  && forallb (λ j, same_frequency (col_frequency t j)) (seq 0 9)
  && forallb (λ i, forallb (λ j, same_frequency (block_frequency t i j)) block_starts)
       block_starts = true
  ↔ ∀ u, u ∈ units t → same_frequency (tally u) = true.
Proof.
  rewrite !andb_true_iff, !forallb_forall. unfold units. split.
  - intros [[Hrows Hcols] Hblocks] u.
    rewrite !elem_of_app, !list_elem_of_fmap.
    intros [(i & -> & Hi)|[(j & -> & Hj)|([i j] & -> & Hij)]].
    + rewrite <- row_frequency_tally. by apply Hrows, list_elem_of_In.
    + rewrite <- col_frequency_tally. by apply Hcols, list_elem_of_In.
    + rewrite <- block_frequency_tally.
      apply list_elem_of_In, in_prod_iff in Hij as [Hi Hj].
      specialize (Hblocks i Hi). rewrite forallb_forall in Hblocks. by apply Hblocks.
  - intros H. repeat split.
    + intros i Hi. rewrite row_frequency_tally. apply H.
      rewrite !elem_of_app, !list_elem_of_fmap. left. exists i.
      by rewrite list_elem_of_In.
    + intros j Hj. rewrite col_frequency_tally. apply H.
      rewrite !elem_of_app, !list_elem_of_fmap. right; left. exists j.
      by rewrite list_elem_of_In.
    + intros i Hi. apply forallb_forall. intros j Hj.
      rewrite block_frequency_tally. apply H.
      rewrite !elem_of_app, !list_elem_of_fmap. right; right. exists (i, j).
      split; [done|]. by apply list_elem_of_In, in_prod_iff.
Qed.

(** ** The number that a guess stores *)

Lemma StronglySorted_nums : StronglySorted Z.le nums.
Proof. repeat constructor; lia. Qed.

Lemma StronglySorted_filter {A} (R : A → A → Prop) (p : A → bool) (l : list A) :
  StronglySorted R l → StronglySorted R (List.filter p l).
Proof.
  induction 1 as [|x l _ IH Hx]; simpl; [constructor|].
  destruct (p x); [|done]. constructor; [done|].
  rewrite Forall_forall in Hx |- *. intros y Hy%list_elem_of_In%filter_In.
  apply Hx, list_elem_of_In, Hy.
Qed.

Lemma largest_ge (cs : list Z) (d : Z) : d ∈ cs → d ≤ largest cs.
Proof.
  induction 1 as [d cs|d c cs _ IH]; unfold largest in *; simpl; lia.
Qed.

Lemma largest_last (cs : list Z) :
  StronglySorted Z.le cs → Forall (λ c, 0 ≤ c) cs → largest cs = List.last cs 0.
Proof.
  induction 1 as [|c cs _ IH Hc]; intros Hpos; [done|].
  apply Forall_cons in Hpos as [Hc0 Hpos]. rewrite last_cons.
  unfold largest in *. simpl. rewrite (IH Hpos).
  destruct cs as [|c' cs]; [simpl; lia|].
  assert (List.last (c' :: cs) 0 ∈ c' :: cs) as Hin by (by apply last_elem_of).
  rewrite Forall_forall in Hc. specialize (Hc _ Hin).
  rewrite (last_cons c' cs c), <- (last_cons c' cs 0). lia.
Qed.

Lemma candidates_last_largest t row col :
  List.last (candidates t row col) 0 = largest (candidates t row col).
Proof.
  symmetry. apply largest_last.
  - apply StronglySorted_filter, StronglySorted_nums.
  - apply Forall_forall. intros c Hc%elem_of_candidates. lia.
Qed.

(** What [select_allowed] does, in terms of the candidates of the cell. *)
Lemma select_allowed_candidates m row col assign_random :
  select_allowed m row col assign_random =
  let cs := candidates (cells m) row col in
  if (Z.of_nat (length cs) =? 1) || ((1 <=? Z.of_nat (length cs)) && assign_random)
  then store m row col (largest cs)
  else m.
Proof.
  unfold select_allowed.
  by rewrite scan_allowed_candidates, candidates_last_largest.
Qed.

(** ** The flags of the older loop *)

Lemma older_solve_loop_head fuel m prev_zeros p ps :
  older_solve_loop fuel m prev_zeros = p :: ps →
  (p_random p = true ↔ number_of_empty_cells (cells m) = prev_zeros)
  ∧ ps = older_solve_loop (pred fuel) (older_single_pass m (p_random p)) (p_before p)
  ∧ p_after p
    = number_of_empty_cells (cells (older_single_pass m (p_random p))).
Proof.
  destruct fuel as [|fuel]; [done|]. simpl.
  destruct (_ =? 0); [done|]. intros [= <- <-]. simpl.
  repeat split; try done; destruct (_ =? prev_zeros) eqn:Heq; zbool; done.
Qed.

(** The older loop asks a pass to guess exactly when the pass before it
    filled nothing. *)
Lemma older_solve_loop_flags fuel m prev_zeros :
  guess_iff_stalled (older_solve_loop fuel m prev_zeros).
Proof.
  intros k. revert fuel m prev_zeros.
  induction k as [|k IH]; intros fuel m prev p q Hp Hq.
  - destruct (older_solve_loop _ _ _) as [|p' ps] eqn:Hrun; [done|].
    injection Hp as ->. simpl in Hq.
    apply older_solve_loop_head in Hrun as (_ & -> & ->).
    destruct (older_solve_loop _ _ _) as [|q' qs] eqn:Hrun'; [done|].
    injection Hq as ->.
    by apply older_solve_loop_head in Hrun' as (Hflag & _).
  - destruct (older_solve_loop _ _ _) as [|p' ps] eqn:Hrun; [done|].
    apply older_solve_loop_head in Hrun as (_ & -> & _).
    by eapply IH.
Qed.

Lemma older_solve_corner_table :
  older_solve 3 corner_table
  = [Pass false 80 80; Pass true 80 79; Pass false 79 79].
Proof. vm_compute. reflexivity. Qed.

(** ** The flags of the loop of [solve] *)

Lemma solve_loop_head fuel m prev_zeros assign_random r p ps :
  solve_loop fuel m prev_zeros assign_random = Some r → passes r = p :: ps →
  p_random p
  = (if number_of_empty_cells (cells m) =? prev_zeros then true else assign_random)
  ∧ p_before p = number_of_empty_cells (cells m)
  ∧ p_after p = number_of_empty_cells (cells (single_pass m (p_random p)))
  ∧ ∃ r', solve_loop (pred fuel) (single_pass m (p_random p)) (p_before p)
            (p_random p) = Some r'
          ∧ passes r' = ps.
Proof.
  destruct fuel as [|fuel]; [done|]. rewrite solve_loop_S. cbv zeta.
  destruct (_ =? 0); [by intros [= <-]|].
  destruct (_ && _); [by intros [= <-]|].
  intros (r' & Hr' & ->)%fmap_Some [= <- <-]. simpl.
  repeat split; try done. by exists r'.
Qed.

(** What the loop of [solve] does guarantee: a pass that filled nothing is
    followed by a pass that is asked to guess, and once a pass was asked
    to guess every later pass is asked too. *)
Lemma solve_loop_flags fuel m prev_zeros assign_random r k p q :
  solve_loop fuel m prev_zeros assign_random = Some r →
  passes r !! k = Some p → passes r !! S k = Some q →
  p_before q = p_after p
  ∧ (p_after p = p_before p → p_random q = true)
  ∧ (p_random p = true → p_random q = true).
Proof.
  revert fuel m prev_zeros assign_random r.
  induction k as [|k IH]; intros fuel m prev flag r Hr Hp Hq.
  - destruct (passes r) as [|p' ps] eqn:Hps; [done|]. injection Hp as ->.
    simpl in Hq.
    destruct (solve_loop_head _ _ _ _ _ _ _ Hr Hps)
      as (_ & Hbefore & Hafter & r' & Hr' & <-).
    destruct (passes r') as [|q' qs] eqn:Hqs; [done|]. injection Hq as ->.
    destruct (solve_loop_head _ _ _ _ _ _ _ Hr' Hqs) as (Hflag & Hbefore' & _).
    rewrite Hflag, Hbefore', <- Hafter. split; [done|]. split.
    + intros Hstall. apply Z.eqb_eq in Hstall.
      destruct (p_after p =? p_before p); [reflexivity|discriminate Hstall].
    + intros Hguess. rewrite Hguess.
      destruct (p_after p =? p_before p); reflexivity.
  - destruct (passes r) as [|p' ps] eqn:Hps; [done|].
    destruct (solve_loop_head _ _ _ _ _ _ _ Hr Hps) as (_ & _ & _ & r' & Hr' & <-).
    by eapply IH.
Qed.

(** ** Runs of [solve] *)

Lemma solve_loop_full fuel m prev_zeros assign_random :
  number_of_empty_cells (cells m) = 0 →
  solve_loop (S fuel) m prev_zeros assign_random = Some (Run m Done []).
Proof. intros Hfull. rewrite solve_loop_S. cbv zeta. by rewrite Hfull. Qed.

Lemma pass_bound_start (z : Z) : 0 ≤ z ≤ 81 → 0 ≤ pass_bound z 81 false ≤ 81.
Proof. intros Hz. unfold pass_bound. destruct (z =? 81) eqn:Heq; zbool; lia. Qed.

Lemma solve_eq (t : table) : solve t = solve_loop solve_fuel (load t) 81 false.
Proof. exact (eq_refl (solve_loop solve_fuel (load t) 81 false)). Qed.

(** [solve] always returns, whatever fuel above its own it is given, and
    makes at most 81 passes. *)
Lemma solve_total (t : table) :
  wf_table t →
  ∃ r, solve t = Some r
       ∧ (∀ fuel, (solve_fuel ≤ fuel)%nat →
            solve_loop fuel (load t) 81 false = Some r)
       ∧ (length (passes r) ≤ 81)%nat.
Proof.
  intros Hwf.
  pose proof (pass_bound_start _ (number_of_empty_cells_bounds t)) as Hbound.
  destruct (solve_loop_terminates solve_fuel (load t) 81 false Hwf)
    as (r & Hr & Hlen).
  { change (cells (load t)) with t. unfold solve_fuel. lia. }
  change (cells (load t)) with t in Hlen.
  exists r. rewrite solve_eq. split; [exact Hr|]. split; [|lia].
  intros fuel Hfuel. exact (solve_loop_more_fuel _ _ _ _ _ _ Hr Hfuel).
Qed.

Lemma wf_empty_table : wf_table empty_table.
Proof. split; [done|]. vm_compute. repeat constructor. Qed.

Lemma wf_corner_table : wf_table corner_table.
Proof. split; [done|]. vm_compute. repeat constructor. Qed.

Lemma wf_stuck_table : wf_table stuck_table.
Proof. split; [done|]. repeat constructor. Qed.

(** The first pass of a run: it is asked to guess exactly when the table
    has 81 empty cells, the initial value of [prev_zeros]. *)
Lemma solve_first_pass (t : table) :
  wf_table t → number_of_empty_cells t ≠ 0 →
  ∃ r ps, solve t = Some r
    ∧ passes r =
      Pass (number_of_empty_cells t =? 81) (number_of_empty_cells t)
        (number_of_empty_cells
           (cells (single_pass (load t) (number_of_empty_cells t =? 81))))
      :: ps.
Proof.
  intros Hwf Hblank. destruct (solve_total t Hwf) as (r & Hr & _).
  exists r. pose proof Hr as Hrun. rewrite solve_eq in Hrun.
  unfold solve_fuel in Hrun. rewrite solve_loop_S in Hrun. cbv zeta in Hrun.
  change (cells (load t)) with t in Hrun.
  destruct (number_of_empty_cells t =? 0) eqn:Hz0; [zbool; done|].
  rewrite andb_false_r in Hrun.
  apply fmap_Some in Hrun as (r' & _ & ->). exists (passes r').
  split; [exact Hr|]. simpl. by destruct (_ =? 81).
Qed.

(** The runs on the sample tables, by evaluation. *)
Lemma solve_corner_table_passes :
  passes <$> solve corner_table =
  Some [ Pass false 80 80; Pass true 80 79; Pass true 79 78; Pass true 78 77;
         Pass true 77 76; Pass true 76 75; Pass true 75 74; Pass true 74 72;
         Pass true 72 71; Pass true 71 70; Pass true 70 69; Pass true 69 68;
         Pass true 68 65; Pass true 65 65 ].
Proof. vm_compute. reflexivity. Qed.

Lemma solve_stuck_table : solve stuck_table = Some stuck_run.
Proof. vm_compute. reflexivity. Qed.

Lemma number_of_empty_cells_empty_table : number_of_empty_cells empty_table = 81.
Proof. vm_compute. reflexivity. Qed.

Lemma single_pass_empty_table :
  single_pass (load empty_table) true = store (load empty_table) 0 0 9.
Proof. vm_compute. reflexivity. Qed.

(** ** The functions on the sample tables *)

Example valid_solved_table : valid solved_table = true.
Proof. vm_compute. reflexivity. Qed.

Example valid_stuck_table : valid stuck_table = false.
Proof. vm_compute. reflexivity. Qed.

Example number_of_empty_cells_stuck_table : number_of_empty_cells stuck_table = 72.
Proof. vm_compute. reflexivity. Qed.

(** The 1 of [stuck_table] stands in the first block, in the row of the
    top-left cell: the block check at that cell does not see it, the row
    check does. *)
Example allowed_in_block_same_row :
  allowed_in_block stuck_table 0 0 1 = true
  ∧ allowed_in_row stuck_table 0 1 = false
  ∧ allowed_in_block stuck_table 1 2 1 = false.
Proof. vm_compute. done. Qed.

Example candidates_stuck_table :
  candidates stuck_table 0 0 = [] ∧ candidates stuck_table 8 8 = [1; 2; 3; 4; 5; 6; 7; 9].
Proof. vm_compute. done. Qed.

Example guess_on_empty_table :
  cells (select_allowed (load empty_table) 0 0 true) = set empty_table 0 0 9
  ∧ select_allowed (load empty_table) 0 0 false = load empty_table.
Proof. vm_compute. done. Qed.

(** * The claims *)

(** C6: for every table, [solve] terminates, and it makes at most 83 calls
    of [single_pass] before it does: the fuel of [solve] and any larger
    fuel give the same run, whose list of passes has at most 83 entries. *)
Theorem solve_terminates_within_83_passes (t : table) :
  wf_table t →
  ∃ r, solve t = Some r
       ∧ (∀ fuel, (solve_fuel ≤ fuel)%nat →
            solve_loop fuel (load t) 81 false = Some r)
       ∧ (length (passes r) ≤ 83)%nat.
Proof.
  intros Hwf. destruct (solve_total t Hwf) as (r & Hr & Hfuel & Hlen).
  exists r. split; [exact Hr|]. split; [exact Hfuel|lia].
Qed.

Lemma solve_terminates_within_83_passes_witness :
  wf_table corner_table
  ∧ ∃ r, solve corner_table = Some r
         ∧ (∀ fuel, (solve_fuel ≤ fuel)%nat →
              solve_loop fuel (load corner_table) 81 false = Some r)
         ∧ (length (passes r) ≤ 83)%nat.
Proof.
  assert (wf_table corner_table) as Hwf.
  { split; [reflexivity|]. vm_compute. repeat constructor. }
  split; [exact Hwf|]. apply (solve_terminates_within_83_passes corner_table Hwf).
Defined.

(** C8: on a table without an empty cell [solve] leaves its loop at the
    first test, without a call of [single_pass]; no store happens and every
    cell is as it was. *)
Theorem solve_full_table_untouched (t : table) :
  number_of_empty_cells t = 0 →
  ∃ r, solve t = Some r
       ∧ solve_loop 1 (load t) 81 false = Some r
       ∧ passes r = []
       ∧ writes (final r) = []
       ∧ cells (final r) = t
       ∧ ∀ i j, get (cells (final r)) i j = get t i j.
Proof.
  intros Hfull. exists (Run (load t) Done []).
  rewrite solve_eq. unfold solve_fuel. by rewrite !solve_loop_full.
Qed.

Lemma solve_full_table_untouched_witness :
  number_of_empty_cells solved_table = 0
  ∧ ∃ r, solve solved_table = Some r
         ∧ solve_loop 1 (load solved_table) 81 false = Some r
         ∧ passes r = []
         ∧ writes (final r) = []
         ∧ cells (final r) = solved_table
         ∧ ∀ i j, get (cells (final r)) i j = get solved_table i j.
Proof.
  split; [reflexivity|].
  apply (solve_full_table_untouched solved_table). reflexivity.
Defined.

(** C10: every store made during [solve] puts a digit from 1 to 9 into a
    cell that holds 0 when the store is made; so the run is a sequence of
    fillings of empty cells, and every cell that is filled in the input has
    the same value in the output. *)
Theorem solve_stores_digits_into_blanks (t : table) :
  wf_table t →
  ∃ r, solve t = Some r
       ∧ Forall good_write (writes (final r))
       ∧ fills (load t) (final r)
       ∧ ∀ i j, get t i j ≠ 0 → get (cells (final r)) i j = get t i j.
Proof.
  intros Hwf. destruct (solve_total t Hwf) as (r & Hr & _).
  exists r. split; [exact Hr|]. rewrite solve_eq in Hr.
  pose proof (solve_loop_fills _ _ _ _ _ Hr) as Hfills.
  repeat split; [|done|].
  - destruct (fills_writes _ _ Hfills) as (ws & -> & Hws). simpl.
    by rewrite app_nil_r.
  - intros i j Hfilled. by apply (fills_keep (load t)).
Qed.

Lemma solve_stores_digits_into_blanks_witness :
  wf_table corner_table
  ∧ ∃ r, solve corner_table = Some r
         ∧ Forall good_write (writes (final r))
         ∧ fills (load corner_table) (final r)
         ∧ ∀ i j, get corner_table i j ≠ 0 →
             get (cells (final r)) i j = get corner_table i j.
Proof.
  split; [exact wf_corner_table|].
  apply (solve_stores_digits_into_blanks corner_table wf_corner_table).
Defined.

(** C1 (the program departs from it): on the table whose only filled cell
    is the top-left one, the first pass fills nothing, the second pass is
    asked to guess and fills a cell, and the third pass is asked to guess
    again although the second lowered the number of empty cells. *)
Theorem solve_keeps_guessing_after_progress :
  ∃ r, solve corner_table = Some r
       ∧ take 3 (passes r)
         = [Pass false 80 80; Pass true 80 79; Pass true 79 78]
       ∧ ¬ guess_iff_stalled (passes r).
Proof.
  pose proof solve_corner_table_passes as Hpasses.
  destruct (solve corner_table) as [r|]; [|done].
  injection Hpasses as Hpasses. exists r. rewrite Hpasses.
  split; [done|]. split; [done|]. intros Hiff.
  destruct (Hiff 1%nat (Pass true 80 79) (Pass true 79 78) eq_refl eq_refl)
    as [Hstall _].
  by specialize (Hstall eq_refl).
Qed.

(** C3, as stated, fails on the empty table: its first pass is asked to
    guess. *)
Lemma first_pass_disabled_counterexample : ¬ first_pass_disabled empty_table.
Proof.
  intros Hclaim.
  destruct (solve_first_pass empty_table wf_empty_table) as (r & ps & Hr & Hps).
  { rewrite number_of_empty_cells_empty_table. lia. }
  rewrite number_of_empty_cells_empty_table in Hps.
  specialize (Hclaim r _ _ Hr Hps). simpl in Hclaim. discriminate Hclaim.
Qed.

(** C3, amended: on a table with an empty cell, the first pass is not asked
    to guess exactly when the table has fewer than 81 empty cells; on the
    empty table the first pass is asked to guess, and it fills exactly one
    cell: it stores 9 in the top-left cell and 80 cells stay empty. *)
Theorem first_pass_guesses_on_empty_table_only (t : table) :
  wf_table t → number_of_empty_cells t ≠ 0 →
  ∃ r p ps, solve t = Some r
    ∧ passes r = p :: ps
    ∧ p_before p = number_of_empty_cells t
    ∧ (p_random p = false ↔ number_of_empty_cells t < 81)
    ∧ (t = empty_table →
       p_random p = true ∧ p_after p = 80
       ∧ single_pass (load t) true = store (load t) 0 0 9).
Proof.
  intros Hwf Hblank.
  destruct (solve_first_pass t Hwf Hblank) as (r & ps & Hr & Hps).
  pose proof (number_of_empty_cells_bounds t) as Hz.
  eexists r, _, ps. split; [exact Hr|]. split; [exact Hps|]. simpl.
  split; [done|]. split.
  - destruct (number_of_empty_cells t =? 81) eqn:Heq; zbool; split; (done || lia).
  - intros ->. rewrite number_of_empty_cells_empty_table.
    change (81 =? 81) with true. rewrite single_pass_empty_table.
    split; [reflexivity|]. split; [|reflexivity]. vm_compute. reflexivity.
Qed.

Lemma first_pass_guesses_on_empty_table_only_witness :
  wf_table empty_table ∧ number_of_empty_cells empty_table ≠ 0
  ∧ ∃ r p ps, solve empty_table = Some r
      ∧ passes r = p :: ps
      ∧ p_before p = number_of_empty_cells empty_table
      ∧ (p_random p = false ↔ number_of_empty_cells empty_table < 81)
      ∧ (empty_table = empty_table →
         p_random p = true ∧ p_after p = 80
         ∧ single_pass (load empty_table) true = store (load empty_table) 0 0 9).
Proof.
  assert (wf_table empty_table) as Hwf.
  { split; [reflexivity|]. vm_compute. repeat constructor. }
  assert (number_of_empty_cells empty_table ≠ 0) as Hblank.
  { intros Hzero. vm_compute in Hzero. discriminate. }
  split; [exact Hwf|]. split; [exact Hblank|].
  apply (first_pass_guesses_on_empty_table_only empty_table Hwf Hblank).
Defined.

(** C4, as stated, fails on [stuck_table]: [solve] gives up there although
    the bottom-right cell is empty and has candidates. *)
Lemma gives_up_without_candidates_counterexample :
  ¬ gives_up_without_candidates stuck_table.
Proof.
  intros Hclaim.
  specialize (Hclaim stuck_run 8%nat 8%nat solve_stuck_table eq_refl).
  specialize (Hclaim ltac:(lia) ltac:(lia) eq_refl).
  vm_compute in Hclaim. discriminate Hclaim.
Qed.

(** C4, amended: whenever [solve] gives up, the last pass of the run was
    asked to guess and left the number of empty cells as it was, and the
    first empty cell in row-major order has no allowed digit. *)
Theorem solve_gives_up_at_dead_first_blank (t : table) (r : run) :
  wf_table t → solve t = Some r → how r = GaveUp →
  ∃ p z, first_blank (cells (final r)) = Some p
    ∧ (∀ num, digit num →
         allowed_at_position (cells (final r)) p.1 p.2 num = false)
    ∧ last (passes r) = Some (Pass true z z).
Proof.
  intros Hwf Hr Hhow. rewrite solve_eq in Hr.
  change (wf_table (cells (load t))) in Hwf.
  pose proof (fills_wf _ _ (solve_loop_fills _ _ _ _ _ Hr) Hwf) as Hwf'.
  destruct (solve_loop_gave_up _ _ _ _ _ Hwf Hr Hhow)
    as [Hblank [Hnil|[Hfix [z Hlast]]]].
  { by destruct (solve_loop_no_pass _ _ _ _ _ Hr Hnil) as [_ [_ ?]]. }
  destruct (first_blank_exists _ Hblank) as [p Hp].
  exists p, z. split; [done|]. split; [|done].
  intros num Hnum.
  pose proof (single_pass_stuck _ _ Hwf' Hfix Hp) as Hnone.
  destruct (allowed_at_position _ _ _ num) eqn:Hallowed; [|done].
  assert (num ∈ candidates (cells (final r)) p.1 p.2) as Hin
    by by apply elem_of_candidates.
  rewrite Hnone in Hin. by apply elem_of_nil in Hin.
Qed.

Lemma solve_gives_up_at_dead_first_blank_witness :
  wf_table stuck_table ∧ solve stuck_table = Some stuck_run
  ∧ how stuck_run = GaveUp
  ∧ ∃ p z, first_blank (cells (final stuck_run)) = Some p
      ∧ (∀ num, digit num →
           allowed_at_position (cells (final stuck_run)) p.1 p.2 num = false)
      ∧ last (passes stuck_run) = Some (Pass true z z).
Proof.
  assert (wf_table stuck_table) as Hwf.
  { split; [reflexivity|]. repeat constructor. }
  assert (solve stuck_table = Some stuck_run) as Hr.
  { vm_compute. reflexivity. }
  split; [exact Hwf|]. split; [exact Hr|]. split; [reflexivity|].
  apply (solve_gives_up_at_dead_first_blank stuck_table stuck_run Hwf Hr).
  reflexivity.
Defined.

(** C2, as stated, fails on the empty table: its top-left cell is empty and
    all nine digits are allowed there, yet the guess of [select_allowed] is
    not the choice of the capability that picks the first candidate. *)
Lemma guess_from_capability_counterexample :
  get empty_table 0 0 = 0
  ∧ candidates empty_table 0 0 = [1; 2; 3; 4; 5; 6; 7; 8; 9]
  ∧ chooser smallest
  ∧ ¬ guess_from_capability (load empty_table) 0 0.
Proof.
  assert (chooser smallest) as Hsmallest.
  { intros [|c cs] Hcs; [done|]. left. }
  split; [reflexivity|]. split; [vm_compute; reflexivity|]. split; [done|].
  intros Hclaim. specialize (Hclaim smallest Hsmallest).
  vm_compute in Hclaim. discriminate Hclaim.
Qed.

(** C2, amended: [select_allowed] is rule (a) with the largest candidate as
    the choice: a single allowed digit is stored; of several allowed digits
    the largest is stored when the call is asked to assign randomly; no
    capability from outside is consulted. *)
Theorem select_allowed_stores_largest
    (m : mem) (row col : nat) (assign_random : bool) :
  select_allowed m row col assign_random
  = select_allowed_spec largest m row col assign_random.
Proof.
  rewrite select_allowed_candidates. unfold select_allowed_spec. cbv zeta.
  destruct (candidates (cells m) row col) as [|c [|c' cs]] eqn:Hcs.
  - done.
  - assert (c ∈ candidates (cells m) row col) as Hc by (rewrite Hcs; left).
    apply elem_of_candidates in Hc as [Hc _].
    simpl. f_equal. unfold largest. simpl. lia.
  - replace (Z.of_nat (length (c :: c' :: cs)) =? 1) with false
      by (symmetry; apply Z.eqb_neq; simpl length; lia).
    replace (1 <=? Z.of_nat (length (c :: c' :: cs))) with true
      by (symmetry; apply Z.leb_le; simpl length; lia).
    done.
Qed.

(** C7: for [row], [col] below 9 and a digit [num], [allowed_in_block]
    returns false exactly when [num] stands in a cell [(i, j)] of the block
    of [(row, col)] with [i] other than [row] and [j] other than [col]; the
    cells of the block in row [row] or in column [col] have no influence on
    the result. *)
Theorem allowed_in_block_skips_row_and_col
    (t : table) (row col : nat) (num : Z) :
  (row < 9)%nat → (col < 9)%nat → digit num →
  (allowed_in_block t row col num = false ↔
   ∃ i j, same_block row col i j ∧ i ≠ row ∧ j ≠ col ∧ get t i j = num)
  ∧ ∀ t' : table,
      (∀ i j, same_block row col i j → i ≠ row → j ≠ col →
         get t' i j = get t i j) →
      allowed_in_block t' row col num = allowed_in_block t row col num.
Proof.
  intros _ _ _. split; [apply allowed_in_block_false|].
  intros t' Hsame. apply bool_eq_false_iff.
  rewrite !allowed_in_block_false. split.
  - intros (i & j & Hblock & Hi & Hj & Hnum). exists i, j.
    by rewrite <- Hsame.
  - intros (i & j & Hblock & Hi & Hj & Hnum). exists i, j.
    by rewrite Hsame.
Qed.

Lemma allowed_in_block_skips_row_and_col_witness :
  (4 < 9)%nat ∧ (4 < 9)%nat ∧ digit 9
  ∧ (allowed_in_block solved_table 4 4 9 = false ↔
     ∃ i j, same_block 4 4 i j ∧ i ≠ 4%nat ∧ j ≠ 4%nat
            ∧ get solved_table i j = 9)
  ∧ ∀ t' : table,
      (∀ i j, same_block 4 4 i j → i ≠ 4%nat → j ≠ 4%nat →
         get t' i j = get solved_table i j) →
      allowed_in_block t' 4 4 9 = allowed_in_block solved_table 4 4 9.
Proof.
  assert (4 < 9)%nat as Hlt by lia.
  assert (digit 9) as Hdigit by (unfold digit; lia).
  split; [exact Hlt|]. split; [exact Hlt|]. split; [exact Hdigit|].
  apply (allowed_in_block_skips_row_and_col solved_table 4 4 9 Hlt Hlt Hdigit).
Defined.

(** C5: for every table, also one with empty cells, [valid] returns true
    exactly when every cell holds a digit from 1 to 9 and every digit occurs
    exactly once in each of the nine rows, nine columns and nine blocks; a
    table with an empty cell is rejected. *)
Theorem valid_iff_every_unit_complete (t : table) :
  (valid t = true ↔
   (∀ i j, (i < 9)%nat → (j < 9)%nat → digit (get t i j))
   ∧ (∀ u d, u ∈ units t → digit d → occurrences d u = 1))
  ∧ length (units t) = 27%nat
  ∧ ∀ i j, (i < 9)%nat → (j < 9)%nat → get t i j = 0 → valid t = false.
Proof.
  assert (valid t = true ↔
          (∀ i j, (i < 9)%nat → (j < 9)%nat → digit (get t i j))
          ∧ (∀ u d, u ∈ units t → digit d → occurrences d u = 1)) as Hiff.
  { unfold valid. rewrite <- !andb_assoc, andb_true_iff.
    rewrite range_check_true, !andb_assoc, frequency_checks. split.
    - intros [Hrange Hfreq]. split; [done|]. intros u d Hu.
      by apply same_frequency_tally; [eapply units_digits|apply Hfreq].
    - intros [Hrange Hocc]. split; [done|]. intros u Hu.
      apply same_frequency_tally; [by eapply units_digits|].
      intros d. by apply Hocc. }
  split; [done|]. split; [done|].
  intros i j Hi Hj Hblank. apply not_true_is_false. intros Hvalid.
  apply Hiff in Hvalid as [Hrange _]. specialize (Hrange i j Hi Hj).
  unfold digit in Hrange. lia.
Qed.

(** * Further properties of the program *)

(** ** What the three checks test together *)

Lemma allowed_in_row_true t row num :
  allowed_in_row t row num = true ↔ ∀ j, (j < 9)%nat → get t row j ≠ num.
Proof.
  unfold allowed_in_row. rewrite forallb_forall. split.
  - intros H j Hj. specialize (H j ltac:(apply in_seq; lia)).
    apply negb_true_iff, Z.eqb_neq in H. done.
  - intros H j Hj%in_seq. apply negb_true_iff, Z.eqb_neq, H. lia.
Qed.

Lemma allowed_in_col_true t col num :
  allowed_in_col t col num = true ↔ ∀ i, (i < 9)%nat → get t i col ≠ num.
Proof.
  unfold allowed_in_col. rewrite forallb_forall. split.
  - intros H i Hi. specialize (H i ltac:(apply in_seq; lia)).
    apply negb_true_iff, Z.eqb_neq in H. done.
  - intros H i Hi%in_seq. apply negb_true_iff, Z.eqb_neq, H. lia.
Qed.

Lemma allowed_in_block_true t row col num :
  allowed_in_block t row col num = true ↔
  ∀ i j, same_block row col i j → i ≠ row → j ≠ col → get t i j ≠ num.
Proof.
  split.
  - intros Htrue i j Hblock Hi Hj Hnum.
    assert (allowed_in_block t row col num = false) as Hfalse
      by (apply allowed_in_block_false; eauto 10).
    congruence.
  - intros H. apply not_false_iff_true.
    intros (i & j & Hblock & Hi & Hj & Hnum)%allowed_in_block_false.
    by eapply H.
Qed.

Lemma same_block_lt row col i j :
  (row < 9)%nat → (col < 9)%nat → same_block row col i j →
  (i < 9)%nat ∧ (j < 9)%nat.
Proof.
  intros Hrow Hcol [Hi Hj].
  pose proof (Nat.div_mod_eq row 3). pose proof (Nat.div_mod_eq i 3).
  pose proof (Nat.mod_upper_bound row 3). pose proof (Nat.mod_upper_bound i 3).
  pose proof (Nat.div_mod_eq col 3). pose proof (Nat.div_mod_eq j 3).
  pose proof (Nat.mod_upper_bound col 3). pose proof (Nat.mod_upper_bound j 3).
  lia.
Qed.

Lemma allowed_at_position_true t row col num :
  (row < 9)%nat → (col < 9)%nat →
  allowed_at_position t row col num = true ↔
  ∀ k l, (k < 9)%nat → (l < 9)%nat → shares_unit row col k l → get t k l ≠ num.
Proof.
  intros Hrow Hcol. unfold allowed_at_position, shares_unit.
  rewrite !andb_true_iff, allowed_in_row_true, allowed_in_col_true,
    allowed_in_block_true.
  split.
  - intros [[Hr Hc] Hb] k l Hk Hl Hshare.
    destruct (decide (k = row)) as [->|Hkr]; [by apply Hr|].
    destruct (decide (l = col)) as [->|Hlc]; [by apply Hc|].
    destruct Hshare as [?|[?|Hblock]]; [done..|]. by apply Hb.
  - intros H. repeat split.
    + intros j Hj. apply H; [done..|by left].
    + intros i Hi. apply H; [done..|right; by left].
    + intros i j Hblock _ _.
      destruct (same_block_lt _ _ _ _ Hrow Hcol Hblock).
      apply H; [done..|right; by right].
Qed.

(** ** Every store is accepted by the checks *)

Lemma legal_fills_refl m : legal_fills m m.
Proof. apply rtc_refl. Qed.

Lemma legal_fills_trans m1 m2 m3 :
  legal_fills m1 m2 → legal_fills m2 m3 → legal_fills m1 m3.
Proof. intros H1 H2. unfold legal_fills in *. by etrans. Qed.

Lemma legal_fills_store m i j v :
  (i < 9)%nat → (j < 9)%nat → get (cells m) i j = 0 → digit v →
  allowed_at_position (cells m) i j v = true →
  legal_fills m (store m i j v).
Proof. intros. apply rtc_once. by constructor. Qed.

Lemma legal_fills_fills m m' : legal_fills m m' → fills m m'.
Proof.
  induction 1 as [|m1 m2 m3 Hfill _ IH]; [apply fills_refl|].
  eapply fills_trans; [|done]. destruct Hfill. by apply fills_store.
Qed.

Lemma select_allowed_legal m row col assign_random :
  (row < 9)%nat → (col < 9)%nat → get (cells m) row col = 0 →
  legal_fills m (select_allowed m row col assign_random).
Proof.
  intros Hrow Hcol Hblank. rewrite select_allowed_candidates. cbv zeta.
  destruct (_ || _) eqn:Htest; [|apply legal_fills_refl].
  assert (largest (candidates (cells m) row col) ∈ candidates (cells m) row col)
    as Hin.
  { rewrite <- candidates_last_largest. apply last_elem_of, length_pos_nonnil.
    destruct assign_random; lia. }
  apply elem_of_candidates in Hin as [Hdigit Hallowed].
  by apply legal_fills_store.
Qed.

Lemma scan_row_legal t row num :
  scan_inv (λ j, (j < 9)%nat ∧ get t row j = 0
                 ∧ allowed_in_col t j num = true
                 ∧ allowed_in_block t row j num = true)
    (scan_row t row num).
Proof.
  unfold scan_row, for_range. apply fold_left_inv.
  - split; simpl; lia.
  - intros [pos count] j Hj [Hcount Hgood].
    apply elem_of_seq in Hj. simpl in *.
    destruct (get t row j =? 0) eqn:Hblank; simpl; [|by split].
    destruct (allowed_in_col t j num) eqn:Hc; simpl; [|by split].
    destruct (allowed_in_block t row j num) eqn:Hb; simpl; [|by split].
    split; simpl; [lia|]. intros _. repeat split; try done; lia.
Qed.

Lemma scan_col_legal t col num :
  scan_inv (λ i, (i < 9)%nat ∧ get t i col = 0
                 ∧ allowed_in_row t i num = true
                 ∧ allowed_in_block t i col num = true)
    (scan_col t col num).
Proof.
  unfold scan_col, for_range. apply fold_left_inv.
  - split; simpl; lia.
  - intros [pos count] i Hi [Hcount Hgood].
    apply elem_of_seq in Hi. simpl in *.
    destruct (get t i col =? 0) eqn:Hblank; simpl; [|by split].
    destruct (allowed_in_row t i num) eqn:Hr; simpl; [|by split].
    destruct (allowed_in_block t i col num) eqn:Hb; simpl; [|by split].
    split; simpl; [lia|]. intros _. repeat split; try done; lia.
Qed.

Lemma scan_block_legal t row col num :
  row ∈ block_starts → col ∈ block_starts →
  scan_inv (λ p, (p.1 < 9)%nat ∧ (p.2 < 9)%nat ∧ get t p.1 p.2 = 0
                 ∧ allowed_at_position t p.1 p.2 num = true)
    (scan_block t row col num).
Proof.
  intros Hrow Hcol.
  assert (row ≤ 6 ∧ col ≤ 6)%nat as [Hr Hc].
  { unfold block_starts in *. set_unfold. lia. }
  unfold scan_block, for_range. apply fold_left_inv.
  - split; simpl; lia.
  - intros st i Hi Hst. apply elem_of_seq in Hi. apply fold_left_inv; [done|].
    intros [[pr pc] count] j Hj [Hcount Hgood].
    apply elem_of_seq in Hj. simpl in *.
    destruct (get t i j =? 0) eqn:Hblank; simpl; [|by split].
    destruct (allowed_at_position t i j num) eqn:Ha; [|by split].
    split; simpl; [lia|]. intros _. repeat split; try done; lia.
Qed.

Lemma select_possible_in_row_legal m row num :
  (row < 9)%nat → digit num → legal_fills m (select_possible_in_row m row num).
Proof.
  intros Hrow Hnum. unfold select_possible_in_row.
  destruct (allowed_in_row (cells m) row num) eqn:Hr; [|apply legal_fills_refl].
  simpl.
  pose proof (scan_row_legal (cells m) row num) as [_ Hgood].
  destruct (scan_row _ _ _) as [pos count]; simpl in *.
  destruct (count =? 1) eqn:Hcount; [|apply legal_fills_refl].
  destruct Hgood as (? & ? & Hc & Hb); [lia|].
  apply legal_fills_store; try done.
  unfold allowed_at_position. by rewrite Hr, Hc, Hb.
Qed.

Lemma select_possible_in_col_legal m col num :
  (col < 9)%nat → digit num → legal_fills m (select_possible_in_col m col num).
Proof.
  intros Hcol Hnum. unfold select_possible_in_col.
  destruct (allowed_in_col (cells m) col num) eqn:Hc; [|apply legal_fills_refl].
  simpl.
  pose proof (scan_col_legal (cells m) col num) as [_ Hgood].
  destruct (scan_col _ _ _) as [pos count]; simpl in *.
  destruct (count =? 1) eqn:Hcount; [|apply legal_fills_refl].
  destruct Hgood as (? & ? & Hr & Hb); [lia|].
  apply legal_fills_store; try done.
  unfold allowed_at_position. by rewrite Hr, Hc, Hb.
Qed.

Lemma select_possible_in_block_legal m row col num :
  row ∈ block_starts → col ∈ block_starts → digit num →
  legal_fills m (select_possible_in_block m row col num).
Proof.
  intros Hrow Hcol Hnum. unfold select_possible_in_block.
  destruct (negb _); [apply legal_fills_refl|].
  pose proof (scan_block_legal (cells m) row col num Hrow Hcol) as [_ Hgood].
  destruct (scan_block _ _ _ _) as [[pr pc] count]; simpl in *.
  destruct (count =? 1) eqn:Hcount; [|apply legal_fills_refl].
  destruct Hgood as (? & ? & ? & ?); [lia|]. by apply legal_fills_store.
Qed.

Lemma select_possible_legal m num :
  digit num → legal_fills m (select_possible m num).
Proof.
  intros Hnum. unfold select_possible, for_range.
  apply (fold_left_inv (legal_fills m)).
  - apply (fold_left_inv (legal_fills m)).
    + apply (fold_left_inv (legal_fills m)); [apply legal_fills_refl|].
      intros m' i Hi Hm'. apply elem_of_seq in Hi.
      eapply legal_fills_trans; [done|].
      apply select_possible_in_row_legal; [lia|done].
    + intros m' j Hj Hm'. apply elem_of_seq in Hj.
      eapply legal_fills_trans; [done|].
      apply select_possible_in_col_legal; [lia|done].
  - intros m' i Hi Hm'. apply (fold_left_inv (legal_fills m)); [done|].
    intros m'' j Hj Hm''.
    eapply legal_fills_trans; [done|]. by apply select_possible_in_block_legal.
Qed.

Lemma sweep_allowed_legal m assign_random :
  legal_fills m (sweep_allowed m assign_random).1.
Proof.
  unfold sweep_allowed, for_range.
  apply (fold_left_inv (λ st, legal_fills m st.1)); [apply legal_fills_refl|].
  intros st i Hi Hst. apply elem_of_seq in Hi.
  apply (fold_left_inv (λ st, legal_fills m st.1)); [done|].
  intros [m' flag] j Hj Hm'. apply elem_of_seq in Hj. simpl in *.
  destruct (get (cells m') i j =? 0) eqn:Hblank; simpl; [|done].
  eapply legal_fills_trans; [done|]. apply select_allowed_legal; lia.
Qed.

Lemma single_pass_legal m assign_random :
  legal_fills m (single_pass m assign_random).
Proof.
  unfold single_pass.
  pose proof (sweep_allowed_legal m assign_random) as Hsweep.
  destruct (sweep_allowed m assign_random) as [m' flag]; simpl in Hsweep.
  apply (fold_left_inv (legal_fills m)); [done|].
  intros m'' num Hnum Hm''. apply elem_of_nums in Hnum.
  eapply legal_fills_trans; [done|]. by apply select_possible_legal.
Qed.

Lemma solve_loop_legal fuel m prev_zeros assign_random r :
  solve_loop fuel m prev_zeros assign_random = Some r → legal_fills m (final r).
Proof.
  revert m prev_zeros assign_random r.
  induction fuel as [|fuel IH]; intros m prev flag r Hr; [done|].
  rewrite solve_loop_S in Hr. cbv zeta in Hr.
  destruct (_ =? 0); [injection Hr as <-; apply legal_fills_refl|].
  destruct (_ && _); [injection Hr as <-; apply legal_fills_refl|].
  apply fmap_Some in Hr as (r' & Hr' & ->). simpl.
  eapply legal_fills_trans; [apply single_pass_legal|]. by eapply IH.
Qed.

(** ** Conflicts *)

Lemma same_block_sym row col i j : same_block row col i j → same_block i j row col.
Proof. unfold same_block. lia. Qed.

Lemma shares_unit_sym row col k l : shares_unit row col k l → shares_unit k l row col.
Proof.
  unfold shares_unit. intros [->|[->|H]]; [by left|right; by left|].
  right; right. by apply same_block_sym.
Qed.

Lemma legal_fill_consistent m m' :
  wf_table (cells m) → legal_fill m m' →
  consistent (cells m) → consistent (cells m').
Proof.
  intros Hwf [a b v Ha Hb Hblank Hv Hallowed] Hcons. simpl.
  rewrite allowed_at_position_true in Hallowed by done.
  intros i j k l Hi Hj Hk Hl Hne Hshare Hfilled.
  destruct (decide ((a, b) = (i, j))) as [[= <- <-]|Hij].
  - rewrite get_set_eq by done. rewrite get_set_ne by done.
    intros Heq. by eapply (Hallowed k l).
  - rewrite (get_set_ne _ a b v i j) in * by done.
    destruct (decide ((a, b) = (k, l))) as [[= <- <-]|Hkl].
    + rewrite get_set_eq by done.
      apply (Hallowed i j); [done..|]. by apply shares_unit_sym.
    + rewrite get_set_ne by done. by apply Hcons.
Qed.

Lemma legal_fills_consistent m m' :
  legal_fills m m' → wf_table (cells m) →
  consistent (cells m) → consistent (cells m').
Proof.
  induction 1 as [|m1 m2 m3 Hfill _ IH]; [done|]. intros Hwf Hcons.
  apply IH.
  - eapply fills_wf; [|done]. apply legal_fills_fills. by apply rtc_once.
  - by eapply legal_fill_consistent.
Qed.

Lemma fills_puzzle m m' :
  fills m m' → wf_table (cells m) → puzzle (cells m) → puzzle (cells m').
Proof.
  induction 1 as [|m1 m2 m3 Hfill _ IH]; [done|]. intros Hwf Hpuzzle.
  apply IH.
  - eapply fills_wf; [|done]. by apply rtc_once.
  - destruct Hfill as [a b v Ha Hb Hblank Hv]. simpl. intros i j Hi Hj.
    destruct (decide ((a, b) = (i, j))) as [[= <- <-]|Hij].
    + rewrite get_set_eq by done. lia.
    + rewrite get_set_ne by done. by apply Hpuzzle.
Qed.

Lemma units_positions (t : table) :
  units t = (λ ps : list (nat * nat), cell t <$> ps) <$> unit_positions.
Proof.
  unfold units, unit_positions. rewrite !fmap_app, <- !list_fmap_compose.
  apply (f_equal2 app); [|apply (f_equal2 app); [|reflexivity]].
  - apply list_fmap_ext. intros _ i _. unfold row_cells, row_positions, compose.
    by rewrite <- list_fmap_compose.
  - apply list_fmap_ext. intros _ j _. unfold col_cells, col_positions, compose.
    by rewrite <- list_fmap_compose.
Qed.

Lemma shares_unitb_true row col k l :
  shares_unitb row col k l = true ↔ shares_unit row col k l.
Proof.
  unfold shares_unitb, shares_unit, same_block.
  rewrite !orb_true_iff, andb_true_iff, !Nat.eqb_eq. tauto.
Qed.

Lemma unit_positions_ok ps :
  ps ∈ unit_positions →
  NoDup ps ∧ length ps = 9%nat
  ∧ ∀ p, p ∈ ps → (p.1 < 9)%nat ∧ (p.2 < 9)%nat
      ∧ ∀ q, q ∈ ps → shares_unit p.1 p.2 q.1 q.2.
Proof.
  assert (forallb unit_positions_okb unit_positions = true) as Hall
    by (vm_compute; reflexivity).
  rewrite forallb_forall in Hall. intros Hps%list_elem_of_In%Hall.
  unfold unit_positions_okb in Hps.
  apply andb_true_iff in Hps as [[Hnd Hlen]%andb_true_iff Hps].
  apply bool_decide_eq_true in Hnd. apply Nat.eqb_eq in Hlen.
  split; [done|]. split; [done|]. rewrite forallb_forall in Hps.
  intros p Hp%list_elem_of_In%Hps.
  apply andb_true_iff in Hp as [[H1 H2]%andb_true_iff Hq].
  apply Nat.ltb_lt in H1, H2. split; [done|]. split; [done|].
  rewrite forallb_forall in Hq. intros q Hq'%list_elem_of_In%Hq.
  by apply shares_unitb_true.
Qed.

Lemma shares_unit_common i j k l :
  (i < 9)%nat → (j < 9)%nat → (k < 9)%nat → (l < 9)%nat →
  shares_unit i j k l →
  ∃ ps, ps ∈ unit_positions ∧ (i, j) ∈ ps ∧ (k, l) ∈ ps.
Proof.
  intros Hi Hj Hk Hl Hshare%shares_unitb_true.
  assert (forallb (λ p, forallb (λ q,
            implb (shares_unitb p.1 p.2 q.1 q.2) (in_common_unitb p q))
            all_cells) all_cells = true) as Hall
    by (vm_compute; reflexivity).
  rewrite forallb_forall in Hall.
  specialize (Hall (i, j)). rewrite forallb_forall in Hall.
  specialize (Hall ltac:(by apply list_elem_of_In, elem_of_all_cells) (k, l)
                ltac:(by apply list_elem_of_In, elem_of_all_cells)).
  simpl in Hall. rewrite Hshare in Hall. simpl in Hall.
  unfold in_common_unitb in Hall. apply existsb_exists in Hall as (ps & Hps & Hin).
  apply andb_true_iff in Hin as [H1%bool_decide_eq_true H2%bool_decide_eq_true].
  exists ps. by rewrite list_elem_of_In.
Qed.

(** ** Counting in duplicate-free lists *)

Lemma countb_fmap_ge_1 {A} (f : A → Z) (l : list A) (x : A) (d : Z) :
  x ∈ l → f x = d → 1 ≤ countb (Z.eqb d) (f <$> l).
Proof.
  induction 1 as [x l|x y l _ IH]; intros Hx; rewrite fmap_cons; cbn [countb].
  - rewrite Hx, Z.eqb_refl. pose proof (countb_bounds (Z.eqb d) (f <$> l)). lia.
  - specialize (IH Hx). destruct (d =? f y); lia.
Qed.

Lemma countb_fmap_ge_2 {A} (f : A → Z) (l : list A) (x y : A) (d : Z) :
  x ∈ l → y ∈ l → x ≠ y → f x = d → f y = d →
  2 ≤ countb (Z.eqb d) (f <$> l).
Proof.
  induction l as [|z l IH]; intros Hx Hy Hne Hfx Hfy; [by apply elem_of_nil in Hx|].
  rewrite fmap_cons; cbn [countb].
  apply elem_of_cons in Hx as [->|Hx], Hy as [->|Hy]; try done.
  - rewrite Hfx, Z.eqb_refl. pose proof (countb_fmap_ge_1 f l y d Hy Hfy). lia.
  - rewrite Hfy, Z.eqb_refl. pose proof (countb_fmap_ge_1 f l x d Hx Hfx). lia.
  - specialize (IH Hx Hy Hne Hfx Hfy). destruct (d =? f z); lia.
Qed.

Lemma countb_NoDup (l : list Z) (d : Z) :
  NoDup l → d ∈ l → countb (Z.eqb d) l = 1.
Proof.
  induction 1 as [|x l Hx _ IH]; intros Hd; [by apply elem_of_nil in Hd|].
  simpl. apply elem_of_cons in Hd as [->|Hd].
  - rewrite Z.eqb_refl.
    assert (countb (Z.eqb x) l = 0) as ->; [|done].
    clear IH. induction l as [|y l IH]; simpl; [done|].
    rewrite not_elem_of_cons in Hx. destruct Hx as [Hxy Hx].
    rewrite IH by done. destruct (x =? y) eqn:Heq; [|done].
    apply Z.eqb_eq in Heq. done.
  - rewrite IH by done. destruct (d =? x) eqn:Heq; [|done].
    apply Z.eqb_eq in Heq. by subst.
Qed.

(** Nine different digits are all the digits. *)
Lemma nine_digits (u : list Z) (d : Z) :
  NoDup u → Forall digit u → length u = 9%nat → digit d → d ∈ u.
Proof.
  intros Hnd Hdigits Hlen Hd.
  assert (u ⊆+ nums) as Hsub.
  { apply NoDup_submseteq; [done|]. intros x Hx. apply elem_of_nums.
    rewrite Forall_forall in Hdigits. by apply Hdigits. }
  apply submseteq_length_Permutation in Hsub; [|by rewrite Hlen].
  rewrite Hsub. by apply elem_of_nums.
Qed.

(** ** [valid] in terms of conflicts *)

Lemma valid_true t :
  valid t = true ↔
  (∀ i j, (i < 9)%nat → (j < 9)%nat → digit (get t i j))
  ∧ (∀ u d, u ∈ units t → digit d → occurrences d u = 1).
Proof.
  unfold valid. rewrite <- !andb_assoc, andb_true_iff.
  rewrite range_check_true, !andb_assoc, frequency_checks. split.
  - intros [Hrange Hfreq]. split; [done|]. intros u d Hu.
    by apply same_frequency_tally; [eapply units_digits|apply Hfreq].
  - intros [Hrange Hocc]. split; [done|]. intros u Hu.
    apply same_frequency_tally; [by eapply units_digits|].
    intros d. by apply Hocc.
Qed.

Lemma valid_complete_consistent t :
  valid t = true ↔
  (∀ i j, (i < 9)%nat → (j < 9)%nat → digit (get t i j)) ∧ consistent t.
Proof.
  rewrite valid_true. split; intros [Hrange H]; (split; [done|]).
  - intros i j k l Hi Hj Hk Hl Hne Hshare _ Heq.
    destruct (shares_unit_common i j k l) as (ps & Hps & Hp & Hq); [done..|].
    assert (cell t <$> ps ∈ units t) as Hu.
    { rewrite units_positions. apply list_elem_of_fmap. eauto. }
    specialize (H _ (get t i j) Hu (Hrange i j Hi Hj)).
    pose proof (countb_fmap_ge_2 (cell t) ps (i, j) (k, l) (get t i j)
                  Hp Hq Hne eq_refl (eq_sym Heq)) as Htwo.
    unfold occurrences in H. lia.
  - intros u d Hu Hd. rewrite units_positions in Hu.
    apply list_elem_of_fmap in Hu as (ps & -> & Hps).
    destruct (unit_positions_ok ps Hps) as (Hnd & Hlen & Hin).
    assert (NoDup (cell t <$> ps)) as Hnd'.
    { apply NoDup_fmap_2_strong; [|done]. intros [i j] [k l] Hp Hq Heq.
      destruct (decide ((i, j) = (k, l))) as [|Hne]; [done|]. exfalso.
      destruct (Hin _ Hp) as (Hi & Hj & Hshare).
      destruct (Hin _ Hq) as (Hk & Hl & _). simpl in *.
      apply (H i j k l); try done.
      - by apply (Hshare (k, l)).
      - specialize (Hrange i j Hi Hj). unfold digit in Hrange. lia. }
    unfold occurrences. apply countb_NoDup; [done|].
    apply nine_digits; [done| |by rewrite length_fmap|done].
    apply Forall_fmap, Forall_forall. intros [i j] Hp.
    destruct (Hin _ Hp) as (Hi & Hj & _). by apply Hrange.
Qed.

(** ** The outcome of a run *)

Lemma solve_loop_outcome fuel m prev_zeros assign_random r :
  solve_loop fuel m prev_zeros assign_random = Some r →
  how r = Done ↔ number_of_empty_cells (cells (final r)) = 0.
Proof.
  revert m prev_zeros assign_random r.
  induction fuel as [|fuel IH]; intros m prev flag r Hr; [done|].
  rewrite solve_loop_S in Hr. cbv zeta in Hr.
  destruct (number_of_empty_cells (cells m) =? 0) eqn:Hz0.
  { injection Hr as <-. simpl. zbool. done. }
  destruct (_ && _).
  { injection Hr as <-. simpl. zbool. done. }
  apply fmap_Some in Hr as (r' & Hr' & ->). simpl. by eapply IH.
Qed.

Lemma number_of_empty_cells_zero t :
  number_of_empty_cells t = 0 ↔
  ∀ i j, (i < 9)%nat → (j < 9)%nat → get t i j ≠ 0.
Proof.
  rewrite number_of_empty_cells_countb. split.
  - intros Hzero i j Hi Hj Hblank.
    assert ((i, j) ∈ all_cells) as Hin by by apply elem_of_all_cells.
    clear Hi Hj. induction all_cells as [|p l IH]; [by apply elem_of_nil in Hin|].
    simpl in Hzero. pose proof (countb_bounds (is_blank t) l).
    apply elem_of_cons in Hin as [<-|Hin].
    + unfold is_blank in Hzero at 1. simpl in Hzero.
      rewrite Hblank in Hzero. simpl in Hzero. lia.
    + apply IH; [|done]. destruct (is_blank t p); lia.
  - intros Hfull. rewrite (countb_ext _ (λ _, false)).
    + clear. induction all_cells as [|p l IH]; simpl; lia.
    + intros [i j] [Hi Hj]%elem_of_all_cells. unfold is_blank. simpl.
      apply Z.eqb_neq. by apply Hfull.
Qed.

(** The stores of a filling are as many as the cells it fills. *)
Lemma fills_count m m' :
  fills m m' → wf_table (cells m) →
  number_of_empty_cells (cells m')
  = number_of_empty_cells (cells m)
    - (Z.of_nat (length (writes m')) - Z.of_nat (length (writes m))).
Proof.
  induction 1 as [|m1 m2 m3 Hfill _ IH]; [lia|]. intros Hwf.
  assert (number_of_empty_cells (cells m2) = number_of_empty_cells (cells m1) - 1
          ∧ wf_table (cells m2)
          ∧ length (writes m2) = S (length (writes m1))) as (Hz & Hwf2 & Hw).
  { destruct Hfill; simpl. split; [|split; [by apply wf_set|done]].
    apply number_of_empty_cells_set; [done..|lia]. }
  rewrite (IH Hwf2), Hz, Hw. lia.
Qed.

(** ** Fixed points of a pass *)

Lemma single_pass_full m assign_random :
  wf_table (cells m) → number_of_empty_cells (cells m) = 0 →
  single_pass m assign_random = m.
Proof.
  intros Hwf Hfull. apply fills_same_zeros; [apply single_pass_fills|done|].
  pose proof (single_pass_zeros m assign_random Hwf).
  pose proof (number_of_empty_cells_bounds (cells (single_pass m assign_random))).
  lia.
Qed.

Lemma select_allowed_no_candidate m row col assign_random :
  candidates (cells m) row col = [] →
  select_allowed m row col assign_random = m.
Proof. intros Hnone. rewrite select_allowed_candidates. cbv zeta. by rewrite Hnone. Qed.

Lemma sweep_stuck_any_flag (l : list (nat * nat)) (m : mem) (flag : bool) :
  wf_table (cells m) →
  (∀ q, q ∈ l → (q.1 < 9)%nat ∧ (q.2 < 9)%nat) →
  (fold_left sweep_step l (m, true)).1 = m →
  (fold_left sweep_step l (m, flag)).1 = m.
Proof.
  intros Hwf. induction l as [|q l IH]; intros Hl Hsame; [done|].
  simpl in *.
  destruct (get (cells m) q.1 q.2 =? 0) eqn:Hblank.
  - assert (candidates (cells m) q.1 q.2 = []) as Hnone.
    { apply (sweep_stuck (q :: l) m q Hwf Hl).
      - simpl. by rewrite Hblank.
      - simpl. unfold is_blank. by rewrite Hblank. }
    rewrite (select_allowed_no_candidate _ _ _ true Hnone) in Hsame.
    by rewrite (select_allowed_no_candidate _ _ _ flag Hnone).
  - apply IH; [|done]. intros q' Hq'. apply Hl. by right.
Qed.

Lemma single_pass_stuck_sweep m :
  wf_table (cells m) → single_pass m true = m →
  (sweep_allowed m true).1 = m ∧ fold_left select_possible nums m = m.
Proof.
  intros Hwf Hsame. unfold single_pass in Hsame.
  pose proof (sweep_allowed_fills m true) as Hsweep.
  destruct (sweep_allowed m true) as [m1 flag]; cbn [fst] in *.
  assert (fills m1 m) as Hback.
  { rewrite <- Hsame. apply (fold_left_inv (fills m1)); [apply fills_refl|].
    intros m2 num Hnum Hm2. apply elem_of_nums in Hnum.
    eapply fills_trans; [done|]. by apply select_possible_fills. }
  assert (m1 = m) as ->; [|done].
  apply fills_same_zeros; [done..|].
  pose proof (fills_zeros_le _ _ Hsweep Hwf).
  pose proof (fills_zeros_le _ _ Hback (fills_wf _ _ Hsweep Hwf)). lia.
Qed.

Lemma single_pass_stuck_any_flag m flag :
  wf_table (cells m) → single_pass m true = m → single_pass m flag = m.
Proof.
  intros Hwf Hsame.
  destruct (single_pass_stuck_sweep m Hwf Hsame) as [Hsweep Hrest].
  assert ((sweep_allowed m flag).1 = m) as Hflag.
  { rewrite sweep_allowed_flat in *.
    apply sweep_stuck_any_flag; [done| |done].
    intros [i j]. apply elem_of_all_cells. }
  unfold single_pass. destruct (sweep_allowed m flag) as [m1 flag'].
  cbn [fst] in Hflag. by subst m1.
Qed.

(** The memory in which a run ends is a fixed point of a pass. *)
Lemma solve_loop_fixed_point fuel m r flag :
  wf_table (cells m) → solve_loop fuel m 81 false = Some r →
  single_pass (final r) flag = final r.
Proof.
  intros Hwf Hr.
  pose proof (fills_wf _ _ (solve_loop_fills _ _ _ _ _ Hr) Hwf) as Hwf'.
  destruct (how r) eqn:Hhow.
  - apply single_pass_full; [done|]. by eapply solve_loop_outcome.
  - destruct (solve_loop_gave_up _ _ _ _ _ Hwf Hr Hhow)
      as [_ [Hnil|[Hfix _]]].
    + by destruct (solve_loop_no_pass _ _ _ _ _ Hr Hnil) as [_ [_ ?]].
    + by apply single_pass_stuck_any_flag.
Qed.

(** A pass that may guess fills a cell as soon as the first empty cell
    has a candidate. *)
Lemma single_pass_guess_progress m p :
  wf_table (cells m) → first_blank (cells m) = Some p →
  candidates (cells m) p.1 p.2 ≠ [] →
  number_of_empty_cells (cells (single_pass m true))
  < number_of_empty_cells (cells m).
Proof.
  intros Hwf Hfirst Hcand.
  destruct (fills_zeros _ _ (single_pass_fills m true) Hwf) as [Hsame|Hlt];
    [|done].
  by pose proof (single_pass_stuck _ _ Hwf Hsame Hfirst).
Qed.

(** ** The older pass and the newer one *)

Lemma fold_left_ext_in {S A} (f g : S → A → S) (l : list A) (s s' : S) :
  (∀ s x, x ∈ l → f s x = g s x) → s = s' →
  fold_left f l s = fold_left g l s'.
Proof.
  intros Hext <-. revert s. induction l as [|x l IH]; intros s; simpl; [done|].
  rewrite (Hext s x) by left. apply IH. intros s' y Hy. apply Hext. by right.
Qed.

Lemma fold_left_rel {S1 S2 A} (R : S1 → S2 → Prop)
    (f : S1 → A → S1) (g : S2 → A → S2) (l : list A) (s1 : S1) (s2 : S2) :
  R s1 s2 → (∀ s1 s2 x, x ∈ l → R s1 s2 → R (f s1 x) (g s2 x)) →
  R (fold_left f l s1) (fold_left g l s2).
Proof.
  revert s1 s2. induction l as [|x l IH]; intros s1 s2 Hs Hstep; simpl; [done|].
  apply IH.
  - apply Hstep; [left|done].
  - intros s1' s2' y Hy. apply Hstep. by right.
Qed.

(** The inline scan of a row in the older [select_possible] against
    [scan_row]: in a row that allows [num] they count the same cells. *)
Lemma older_row_scan t i num :
  allowed_in_row t i num = true →
  let older :=
    for_range 0 9 (λ st j,
      let '(possible_row, possible_col, count_possible) := st in
      if (get t i j =? 0) && allowed_at_position t i j num
      then (i, j, count_possible + 1)
      else (possible_row, possible_col, count_possible)) (0%nat, 0%nat, 0) in
  older.2 = (scan_row t i num).2
  ∧ older.1.2 = (scan_row t i num).1
  ∧ (1 ≤ older.2 → older.1.1 = i).
Proof.
  intros Hrow. cbv zeta. unfold scan_row, for_range.
  apply (fold_left_rel
    (λ (st : nat * nat * Z) (st' : nat * Z),
       st.2 = st'.2 ∧ st.1.2 = st'.1 ∧ (1 ≤ st.2 → st.1.1 = i))).
  - simpl. repeat split; lia.
  - intros [[pr pc] cnt] [pc' cnt'] j _ (Hcnt & Hpc & Hpr). simpl in *.
    subst cnt' pc'. unfold allowed_at_position. rewrite Hrow. simpl.
    rewrite andb_assoc.
    destruct (_ && _ && _); simpl; repeat split; try done.
Qed.

Lemma older_col_scan t j num :
  allowed_in_col t j num = true →
  let older :=
    for_range 0 9 (λ st i,
      let '(possible_row, possible_col, count_possible) := st in
      if (get t i j =? 0) && allowed_at_position t i j num
      then (i, j, count_possible + 1)
      else (possible_row, possible_col, count_possible)) (0%nat, 0%nat, 0) in
  older.2 = (scan_col t j num).2
  ∧ older.1.1 = (scan_col t j num).1
  ∧ (1 ≤ older.2 → older.1.2 = j).
Proof.
  intros Hcol. cbv zeta. unfold scan_col, for_range.
  apply (fold_left_rel
    (λ (st : nat * nat * Z) (st' : nat * Z),
       st.2 = st'.2 ∧ st.1.1 = st'.1 ∧ (1 ≤ st.2 → st.1.2 = j))).
  - simpl. repeat split; lia.
  - intros [[pr pc] cnt] [pr' cnt'] i _ (Hcnt & Hpr & Hpc). simpl in *.
    subst cnt' pr'. unfold allowed_at_position. rewrite Hcol. simpl.
    rewrite andb_true_r, andb_assoc.
    destruct (_ && _ && _); simpl; repeat split; try done.
Qed.

Lemma older_block_scan t row col num :
  for_range row 3 (λ st i,
    for_range col 3 (λ st j,
      let '(possible_row, possible_col, count_possible) := st in
      if (get t i j =? 0) && allowed_at_position t i j num
      then (i, j, count_possible + 1)
      else (possible_row, possible_col, count_possible)) st) (0%nat, 0%nat, 0)
  = scan_block t row col num.
Proof.
  unfold scan_block, for_range.
  apply fold_left_ext_in; [|done]. intros st i _.
  apply fold_left_ext_in; [|done]. by intros [[pr pc] cnt] j _.
Qed.

Lemma older_select_possible_eq m num :
  older_select_possible m num = select_possible m num.
Proof.
  unfold older_select_possible, select_possible. cbv zeta.
  apply fold_left_ext_in.
  { intros m1 i _. apply fold_left_ext_in; [|done]. intros m2 j _.
    unfold select_possible_in_block. rewrite older_block_scan.
    destruct (negb _); [done|]. by destruct (scan_block _ _ _ _) as [[pr pc] cnt]. }
  unfold for_range. apply fold_left_ext_in.
  { intros m1 j _. unfold select_possible_in_col.
    destruct (allowed_in_col (cells m1) j num) eqn:Hcol; [|done]. cbn [negb].
    pose proof (older_col_scan (cells m1) j num Hcol) as Hscan. cbv zeta in Hscan.
    unfold for_range in Hscan.
    destruct (fold_left _ _ _) as [[pr pc] cnt].
    destruct (scan_col _ _ _) as [pr' cnt']. simpl in Hscan.
    destruct Hscan as (-> & -> & Hpc).
    destruct (cnt' =? 1) eqn:Hone; [|done]. zbool. by rewrite Hpc by lia. }
  apply fold_left_ext_in; [|done].
  intros m1 i _. unfold select_possible_in_row.
  destruct (allowed_in_row (cells m1) i num) eqn:Hrow; [|done]. cbn [negb].
  pose proof (older_row_scan (cells m1) i num Hrow) as Hscan. cbv zeta in Hscan.
  unfold for_range in Hscan.
  destruct (fold_left _ _ _) as [[pr pc] cnt].
  destruct (scan_row _ _ _) as [pc' cnt']. simpl in Hscan.
  destruct Hscan as (-> & -> & Hpr).
  destruct (cnt' =? 1) eqn:Hone; [|done]. zbool. by rewrite Hpr by lia.
Qed.

Lemma older_single_pass_eq m random :
  older_single_pass m random = single_pass m random.
Proof.
  unfold older_single_pass, single_pass.
  destruct (sweep_allowed m random) as [m1 flag].
  apply fold_left_ext_in; [|done]. intros m2 num _. apply older_select_possible_eq.
Qed.

(** On a memory that no pass changes the older loop makes a pass in every
    iteration, for ever. *)
Lemma older_solve_loop_stuck fuel m prev_zeros :
  wf_table (cells m) → number_of_empty_cells (cells m) ≠ 0 →
  single_pass m true = m →
  length (older_solve_loop fuel m prev_zeros) = fuel.
Proof.
  intros Hwf Hblank Hfix. revert prev_zeros.
  induction fuel as [|fuel IH]; intros prev; simpl; [done|].
  destruct (_ =? 0) eqn:Hz0; [zbool; done|].
  rewrite older_single_pass_eq, single_pass_stuck_any_flag by done.
  simpl. by rewrite IH.
Qed.

(** ** Tables with the same cells *)

Lemma table_ext (t t' : table) :
  wf_table t → wf_table t' →
  (∀ i j, (i < 9)%nat → (j < 9)%nat → get t i j = get t' i j) → t = t'.
Proof.
  intros [Hlen Hrows] [Hlen' Hrows'] Hget.
  apply (list_eq_same_length _ _ 9%nat); [done..|].
  intros i row row' Hi Hrow Hrow'.
  rewrite Forall_lookup in Hrows, Hrows'.
  apply (list_eq_same_length _ _ 9%nat); [by eapply Hrows'|by eapply Hrows|].
  intros j x y Hj Hx Hy. specialize (Hget i j Hi Hj). unfold get in Hget.
  by rewrite Hrow, Hrow' in Hget; simpl in Hget; rewrite Hx, Hy in Hget.
Qed.

(** ** Reading *)

Lemma read_sudoku_flat s c t :
  for_range 0 9 (λ st i, for_range 0 9 (λ st j, read_step st i j) st)
    (Reading s c t)
  = fold_left read_at all_cells (Reading s c t).
Proof.
  unfold for_range, all_cells.
  exact (fold_left_prod (λ st i j, read_at st (i, j)) _ _ _).
Qed.

Lemma read_at_rejected l : fold_left read_at l Rejected = Rejected.
Proof. induction l; simpl; done. Qed.

(** One step that goes on reading stores 0 or a digit. *)
Lemma read_at_reading s c t p s' c' t' :
  read_at (Reading s c t) p = Reading s' c' t' →
  ∃ v, 0 ≤ v ≤ 9 ∧ t' = set t p.1 p.2 v.
Proof.
  unfold read_at, read_step.
  destruct (fscanf_char s c) as [[ret c1] rest]. cbv zeta.
  destruct (_ || _) eqn:Htest; [done|]. intros [= <- <- <-].
  apply orb_false_iff in Htest as [_ Htest].
  eexists. split; [|done].
  destruct (nat_of_ascii c1 =? 45)%nat eqn:Hdash; [lia|]. simpl in Htest.
  apply orb_false_iff in Htest as [H1%Nat.ltb_ge H2%Nat.ltb_ge]. lia.
Qed.

Lemma read_at_table_irrelevant s c t t' p :
  match read_at (Reading s c t) p, read_at (Reading s c t') p with
  | Reading s1 c1 t1, Reading s2 c2 t2 =>
      s1 = s2 ∧ c1 = c2 ∧ ∃ v, t1 = set t p.1 p.2 v ∧ t2 = set t' p.1 p.2 v
  | Rejected, Rejected => True
  | _, _ => False
  end.
Proof.
  unfold read_at, read_step.
  destruct (fscanf_char s c) as [[ret c1] rest]. cbv zeta.
  destruct (_ || _); [done|]. eauto.
Qed.

Lemma read_fold_puzzle l s c t s' c' t' :
  (∀ p, p ∈ l → (p.1 < 9)%nat ∧ (p.2 < 9)%nat) → wf_table t →
  fold_left read_at l (Reading s c t) = Reading s' c' t' →
  wf_table t'
  ∧ (∀ p, p ∈ l → 0 ≤ cell t' p ≤ 9)
  ∧ (∀ p, p ∉ l → cell t' p = cell t p).
Proof.
  revert s c t. induction l as [|p l IH]; intros s c t Hl Hwf Hrun.
  - injection Hrun as <- <- <-. split; [done|]. split; [|done].
    intros p Hp. by apply elem_of_nil in Hp.
  - revert Hrun. cbn [fold_left].
    destruct (read_at (Reading s c t) p) as [s1 c1 t1|] eqn:Hstep; intros Hrun.
    2:{ by rewrite read_at_rejected in Hrun. }
    apply read_at_reading in Hstep as (v & Hv & ->).
    destruct (Hl p) as [Hi Hj]; [left|].
    destruct (IH _ _ _ ltac:(intros q Hq; apply Hl; by right)
                ltac:(by apply wf_set) Hrun) as (Hwf' & Hin & Hout).
    split; [done|]. split.
    + intros q Hq. destruct (decide (q ∈ l)) as [|Hnot]; [by apply Hin|].
      apply elem_of_cons in Hq as [->|?]; [|done].
      rewrite (Hout p Hnot). unfold cell. by rewrite get_set_eq.
    + intros q Hq. apply not_elem_of_cons in Hq as [Hqp Hq].
      rewrite (Hout q Hq). unfold cell. apply get_set_ne.
      destruct p, q; simpl. congruence.
Qed.

Lemma read_fold_independent l s c t t' :
  (∀ p, p ∈ l → (p.1 < 9)%nat ∧ (p.2 < 9)%nat) →
  wf_table t → wf_table t' →
  (∀ p, (p.1 < 9)%nat → (p.2 < 9)%nat → p ∉ l → cell t p = cell t' p) →
  fold_left read_at l (Reading s c t) = fold_left read_at l (Reading s c t').
Proof.
  revert s c t t'. induction l as [|p l IH]; intros s c t t' Hl Hwf Hwf' Hout.
  - simpl. f_equal. apply table_ext; [done..|]. intros i j Hi Hj.
    apply (Hout (i, j)); [done..|]. apply not_elem_of_nil.
  - cbn [fold_left]. pose proof (read_at_table_irrelevant s c t t' p) as Hstep.
    destruct (read_at (Reading s c t) p) as [s1 c1 t1|],
             (read_at (Reading s c t') p) as [s2 c2 t2|]; try done.
    destruct Hstep as (<- & <- & v & -> & ->).
    destruct (Hl p) as [Hi Hj]; [left|].
    apply IH; [|by apply wf_set..|].
    + intros q Hq. apply Hl. by right.
    + intros q Hqi Hqj Hq. unfold cell.
      destruct (decide (p = q)) as [<-|Hne].
      * by rewrite !get_set_eq.
      * rewrite !get_set_ne by (destruct p, q; simpl; congruence).
        apply Hout; [done..|]. by apply not_elem_of_cons.
Qed.

(** ** Showing *)

Lemma fold_left_append {A B} (f : A → list B) (l : list A) (out : list B) :
  fold_left (λ out x, out ++ f x) l out = out ++ concat (f <$> l).
Proof.
  revert out. induction l as [|x l IH]; intros out; simpl.
  - by rewrite app_nil_r.
  - by rewrite IH, app_assoc.
Qed.

Lemma show_rows stdout_is_terminal t :
  show stdout_is_terminal t = concat (row_text stdout_is_terminal t <$> seq 0 9).
Proof.
  unfold show, for_range.
  rewrite <- (app_nil_l (concat _)), <- fold_left_append.
  apply fold_left_ext_in; [|done]. intros out i _. unfold row_text.
  rewrite app_assoc. f_equal. rewrite <- fold_left_append.
  apply fold_left_ext_in; [|done]. intros out' j _. unfold cell_text. cbv zeta.
  destruct (_ && (j mod 3 =? 0)%nat), (_ && (j mod 3 =? 2)%nat);
    rewrite ?app_nil_r, <- ?app_assoc; simpl; rewrite <- ?app_assoc; done.
Qed.

Lemma cell_char_read v :
  0 ≤ v ≤ 9 →
  isspace (cell_char v) = false
  ∧ (let n := nat_of_ascii (cell_char v) in
     negb (n =? 45)%nat && ((n <? 49)%nat || (57 <? n)%nat) = false
     ∧ (if (n =? 45)%nat then 0 else Z.of_nat n - 48) = v).
Proof.
  intros Hv.
  assert (v = 0 ∨ v = 1 ∨ v = 2 ∨ v = 3 ∨ v = 4 ∨ v = 5 ∨ v = 6 ∨ v = 7
          ∨ v = 8 ∨ v = 9) as Hcases by lia.
  repeat (destruct Hcases as [->|Hcases]; [by vm_compute|]). subst. by vm_compute.
Qed.

Lemma cell_text_plain t i j :
  0 ≤ get t i j ≤ 9 →
  cell_text false t i j = text "  " ++ [cell_char (get t i j)].
Proof.
  intros Hv. unfold cell_text. cbv zeta. rewrite andb_false_r. simpl.
  rewrite app_nil_r. do 2 f_equal.
  assert (get t i j = 0 ∨ get t i j = 1 ∨ get t i j = 2 ∨ get t i j = 3
          ∨ get t i j = 4 ∨ get t i j = 5 ∨ get t i j = 6 ∨ get t i j = 7
          ∨ get t i j = 8 ∨ get t i j = 9) as Hcases by lia.
  repeat (destruct Hcases as [->|Hcases]; [by vm_compute|]).
  rewrite Hcases. by vm_compute.
Qed.

Lemma skip_space_app ws s : spaces ws → skip_space (ws ++ s) = skip_space s.
Proof. induction 1 as [|c ws Hc _ IH]; simpl; [done|]. by rewrite Hc. Qed.

Lemma read_at_cell ws v rest c t p :
  spaces ws → 0 ≤ v ≤ 9 →
  read_at (Reading (ws ++ text "  " ++ [cell_char v] ++ rest) c t) p
  = Reading rest (cell_char v) (set t p.1 p.2 v).
Proof.
  intros Hws Hv. destruct (cell_char_read v Hv) as (Hspace & Hdigit & Hvalue).
  unfold read_at, read_step, fscanf_char, scan_char.
  rewrite skip_space_app by done.
  simpl. rewrite Hspace. cbv zeta in *. by rewrite Hdigit, Hvalue.
Qed.

Lemma read_cells (js : list nat) i tsrc ws rest c t :
  spaces ws → (∀ j, j ∈ js → 0 ≤ get tsrc i j ≤ 9) →
  ∃ ws' c', spaces ws'
    ∧ fold_left read_at ((λ j, (i, j)) <$> js)
        (Reading (ws ++ concat (cell_text false tsrc i <$> js) ++ rest) c t)
      = Reading (ws' ++ rest) c'
          (fold_left (λ t p, set t p.1 p.2 (cell tsrc p)) ((λ j, (i, j)) <$> js) t).
Proof.
  revert ws c t. induction js as [|j js IH]; intros ws c t Hws Hrange.
  - exists ws, c. by split.
  - rewrite !fmap_cons. cbn [fold_left concat].
    rewrite cell_text_plain by (apply Hrange; left).
    rewrite <- !app_assoc, read_at_cell; [|done|apply Hrange; left].
    destruct (IH [] (cell_char (get tsrc i j))
                (set t (i, j).1 (i, j).2 (get tsrc i j)))
      as (ws' & c' & Hws' & Hrun); [constructor| |].
    { intros j' Hj'. apply Hrange. by right. }
    exists ws', c'. split; [done|]. apply Hrun.
Qed.

Lemma read_rows (rows js : list nat) tsrc ws rest c t :
  spaces ws → (∀ i j, i ∈ rows → j ∈ js → 0 ≤ get tsrc i j ≤ 9) →
  ∃ ws' c', spaces ws'
    ∧ fold_left read_at (list_prod rows js)
        (Reading
           (ws ++ concat ((λ i, concat (cell_text false tsrc i <$> js) ++ [newline])
                            <$> rows) ++ rest) c t)
      = Reading (ws' ++ rest) c'
          (fold_left (λ t p, set t p.1 p.2 (cell tsrc p)) (list_prod rows js) t).
Proof.
  revert ws c t. induction rows as [|i rows IH]; intros ws c t Hws Hrange.
  - exists ws, c. by split.
  - rewrite fmap_cons. cbn [concat list_prod]. rewrite !fold_left_app.
    change (map (λ y : nat, (i, y)) js) with ((λ j, (i, j)) <$> js).
    rewrite <- !app_assoc.
    destruct (read_cells js i tsrc ws
                ([newline] ++ concat ((λ i, concat (cell_text false tsrc i <$> js)
                                              ++ [newline]) <$> rows) ++ rest) c t Hws)
      as (ws1 & c1 & Hws1 & ->).
    { intros j Hj. apply Hrange; [left|done]. }
    rewrite app_assoc.
    destruct (IH (ws1 ++ [newline]) c1
                (fold_left (λ t p, set t p.1 p.2 (cell tsrc p))
                   ((λ j, (i, j)) <$> js) t)) as (ws' & c' & Hws' & ->).
    { apply Forall_app. split; [done|]. by repeat constructor. }
    { intros i' j Hi' Hj. apply Hrange; [by right|done]. }
    by exists ws', c'.
Qed.

Lemma fold_set_cell (l : list (nat * nat)) (f : nat * nat → Z) (t : table) :
  wf_table t → (∀ p, p ∈ l → (p.1 < 9)%nat ∧ (p.2 < 9)%nat) →
  wf_table (fold_left (λ t p, set t p.1 p.2 (f p)) l t)
  ∧ (∀ q, q ∈ l → cell (fold_left (λ t p, set t p.1 p.2 (f p)) l t) q = f q)
  ∧ (∀ q, q ∉ l → cell (fold_left (λ t p, set t p.1 p.2 (f p)) l t) q = cell t q).
Proof.
  revert t. induction l as [|p l IH]; intros t Hwf Hl; cbn [fold_left].
  - split; [done|]. split; [|done]. intros q Hq. by apply elem_of_nil in Hq.
  - destruct (Hl p) as [Hi Hj]; [left|].
    destruct (IH (set t p.1 p.2 (f p)) ltac:(by apply wf_set)
                ltac:(intros q Hq; apply Hl; by right)) as (Hwf' & Hin & Hout).
    split; [done|]. split.
    + intros q Hq. destruct (decide (q ∈ l)) as [|Hnot]; [by apply Hin|].
      apply elem_of_cons in Hq as [->|?]; [|done].
      rewrite (Hout p Hnot). unfold cell. by rewrite get_set_eq.
    + intros q Hq. apply not_elem_of_cons in Hq as [Hqp Hq].
      rewrite (Hout q Hq). unfold cell. apply get_set_ne.
      destruct p, q; simpl. congruence.
Qed.

Lemma read_sudoku_show (t t0 : table) (rest : list ascii) (c0 : ascii) :
  wf_table t → puzzle t → wf_table t0 →
  read_sudoku (Some (show false t ++ rest)) c0 t0 = ReadOk t.
Proof.
  intros Hwf Hpuzzle Hwf0. unfold read_sudoku. rewrite read_sudoku_flat.
  rewrite show_rows. unfold all_cells.
  destruct (read_rows (seq 0 9) (seq 0 9) t [] rest c0 t0)
    as (ws' & c' & _ & Hrun).
  { constructor. }
  { intros i j Hi%elem_of_seq Hj%elem_of_seq. apply Hpuzzle; lia. }
  rewrite app_nil_l in Hrun. unfold row_text. rewrite Hrun. f_equal.
  destruct (fold_set_cell (list_prod (seq 0 9) (seq 0 9)) (cell t) t0 Hwf0)
    as (Hwf' & Hin & _).
  { intros [i j]. apply elem_of_all_cells. }
  apply table_ext; [done..|]. intros i j Hi Hj.
  apply (Hin (i, j)). by apply elem_of_all_cells.
Qed.

(** The first thing [show] writes on a terminal is two spaces and an escape
    sequence, which [read_sudoku] rejects. *)
Lemma read_sudoku_show_terminal (t t0 : table) (rest : list ascii) (c0 : ascii) :
  read_sudoku (Some (show true t ++ rest)) c0 t0 = ReadFail.
Proof.
  unfold read_sudoku. rewrite read_sudoku_flat, show_rows.
  change (seq 0 9) with (0%nat :: seq 1 8) at 1.
  rewrite fmap_cons. cbn [concat]. unfold row_text at 1.
  change (seq 0 9) with (0%nat :: seq 1 8) at 1.
  rewrite fmap_cons. cbn [concat]. unfold cell_text at 1. cbv zeta.
  change (((0 / 3 + 0 / 3) mod 2 =? 0)%nat && true && (0 mod 3 =? 0)%nat)
    with true. cbv iota.
  change all_cells with ((0%nat, 0%nat) :: tail all_cells).
  rewrite <- !app_assoc. cbn [fold_left].
  assert (∀ s, read_at (Reading (text "  " ++ (escape :: text "[37;100m") ++ s)
                          c0 t0)
                 (0%nat, 0%nat) = Rejected) as -> by done.
  by rewrite read_at_rejected.
Qed.

Lemma consistentb_true t : consistentb t = true → consistent t.
Proof.
  unfold consistentb. rewrite forallb_forall.
  intros Hall i j k l Hi Hj Hk Hl Hne Hshare Hfilled Heq.
  specialize (Hall (i, j) ltac:(by apply list_elem_of_In, elem_of_all_cells)).
  rewrite forallb_forall in Hall.
  specialize (Hall (k, l) ltac:(by apply list_elem_of_In, elem_of_all_cells)).
  apply shares_unitb_true in Hshare. unfold cell in Hall. simpl in Hall.
  rewrite Hshare, bool_decide_eq_false_2 in Hall by done.
  apply Z.eqb_neq in Hfilled. apply Z.eqb_eq in Heq.
  by rewrite Hfilled, Heq in Hall.
Qed.

Lemma consistent_stuck_table : consistent stuck_table.
Proof. apply consistentb_true. vm_compute. reflexivity. Qed.

Lemma consistent_solved_table : consistent solved_table.
Proof. apply consistentb_true. vm_compute. reflexivity. Qed.

Lemma puzzle_true t :
  forallb (λ p, (0 <=? cell t p) && (cell t p <=? 9)) all_cells = true → puzzle t.
Proof.
  rewrite forallb_forall. intros Hall i j Hi Hj.
  specialize (Hall (i, j) ltac:(by apply list_elem_of_In, elem_of_all_cells)).
  unfold cell in Hall. simpl in Hall. zbool. lia.
Qed.

Lemma puzzle_stuck_table : puzzle stuck_table.
Proof. apply puzzle_true. vm_compute. reflexivity. Qed.

Lemma puzzle_solved_table : puzzle solved_table.
Proof. apply puzzle_true. vm_compute. reflexivity. Qed.

Lemma wf_solved_table : wf_table solved_table.
Proof. split; [done|]. repeat constructor. Qed.

Lemma solve_solved_table : solve solved_table = Some (Run (load solved_table) Done []).
Proof. vm_compute. reflexivity. Qed.

Lemma wf_easy_table : wf_table easy_table.
Proof. split; [done|]. repeat constructor. Qed.

Lemma solve_easy_table : solve easy_table = Some easy_run.
Proof. vm_compute. reflexivity. Qed.

Lemma puzzle_easy_table : puzzle easy_table.
Proof. apply puzzle_true. vm_compute. reflexivity. Qed.

Lemma consistent_easy_table : consistent easy_table.
Proof. apply consistentb_true. vm_compute. reflexivity. Qed.

Lemma consistent_corner_table : consistent corner_table.
Proof. apply consistentb_true. vm_compute. reflexivity. Qed.

Lemma single_pass_stuck_table : single_pass (load stuck_table) true = load stuck_table.
Proof. vm_compute. reflexivity. Qed.

(** ** Solving and validity *)

Lemma solve_complete_is_done t r :
  solve t = Some r →
  how r = Done ↔ number_of_empty_cells (cells (final r)) = 0.
Proof. rewrite solve_eq. apply solve_loop_outcome. Qed.

Lemma digits_no_blank t :
  (∀ i j, (i < 9)%nat → (j < 9)%nat → digit (get t i j)) ↔
  puzzle t ∧ number_of_empty_cells t = 0.
Proof.
  rewrite number_of_empty_cells_zero. unfold puzzle, digit. split.
  - intros H. split; intros i j Hi Hj; specialize (H i j Hi Hj); lia.
  - intros [H1 H2] i j Hi Hj. specialize (H1 i j Hi Hj).
    specialize (H2 i j Hi Hj). lia.
Qed.

(** ** The loop on a table that no pass changes *)

Lemma solve_loop_stalled_flag_set fuel m :
  number_of_empty_cells (cells m) ≠ 0 →
  solve_loop (S fuel) m (number_of_empty_cells (cells m)) true
  = Some (Run m GaveUp []).
Proof.
  intros Hblank. rewrite solve_loop_S. cbv zeta.
  apply Z.eqb_neq in Hblank. by rewrite Hblank, Z.eqb_refl.
Qed.

Lemma solve_loop_stuck fuel m prev_zeros assign_random :
  wf_table (cells m) → number_of_empty_cells (cells m) ≠ 0 →
  single_pass m true = m →
  ∃ ps, solve_loop (S (S (S fuel))) m prev_zeros assign_random
        = Some (Run m GaveUp ps).
Proof.
  intros Hwf Hblank Hfix.
  pose proof (λ flag, single_pass_stuck_any_flag m flag Hwf Hfix) as Hany.
  pose proof Hblank as Hz0. apply Z.eqb_neq in Hz0.
  rewrite solve_loop_S. cbv zeta. rewrite Hz0.
  destruct (_ && _) eqn:Hstop; [by eexists|].
  rewrite Hany.
  destruct (if _ =? prev_zeros then true else assign_random) eqn:Hflag.
  - eexists. by rewrite (solve_loop_stalled_flag_set (S fuel) m Hblank).
  - eexists. rewrite solve_loop_S. cbv zeta. rewrite Hz0, Z.eqb_refl.
    cbn [andb]. rewrite Hany.
    by rewrite (solve_loop_stalled_flag_set fuel m Hblank).
Qed.

Lemma solve_stuck t :
  wf_table t → number_of_empty_cells t ≠ 0 →
  single_pass (load t) true = load t →
  ∃ ps, solve t = Some (Run (load t) GaveUp ps).
Proof.
  intros Hwf Hblank Hfix. rewrite solve_eq. unfold solve_fuel.
  by apply solve_loop_stuck.
Qed.

(** On a puzzle without conflict a run ends with a full table exactly
    when the table passes [valid]. *)
Lemma solve_done_valid t r :
  wf_table t → puzzle t → consistent t → solve t = Some r →
  how r = Done ↔ valid (cells (final r)) = true.
Proof.
  intros Hwf Hpuzzle Hcons Hr.
  rewrite (solve_complete_is_done t r Hr), valid_complete_consistent,
    digits_no_blank.
  rewrite solve_eq in Hr.
  pose proof (solve_loop_legal _ _ _ _ _ Hr) as Hlegal.
  pose proof (legal_fills_consistent _ _ Hlegal Hwf Hcons) as Hcons'.
  pose proof (fills_puzzle _ _ (legal_fills_fills _ _ Hlegal) Hwf Hpuzzle)
    as Hpuzzle'.
  tauto.
Qed.

(** * Further properties, one theorem each *)

(** X1: at a cell of the table, [allowed_at_position] accepts a number
    exactly when the number stands nowhere in the row, the column and the
    block of the cell: what the block check skips, the row and column checks
    cover. *)
Theorem allowed_at_position_whole_units (t : table) (row col : nat) (num : Z) :
  (row < 9)%nat → (col < 9)%nat →
  allowed_at_position t row col num = true ↔
  ∀ k l, (k < 9)%nat → (l < 9)%nat → shares_unit row col k l → get t k l ≠ num.
Proof. apply allowed_at_position_true. Qed.

Lemma allowed_at_position_whole_units_witness :
  (0 < 9)%nat ∧ (0 < 9)%nat
  ∧ (allowed_at_position stuck_table 0 0 1 = true ↔
     ∀ k l, (k < 9)%nat → (l < 9)%nat → shares_unit 0 0 k l →
       get stuck_table k l ≠ 1).
Proof.
  assert (0 < 9)%nat as Hlt by lia.
  split; [exact Hlt|]. split; [exact Hlt|].
  apply (allowed_at_position_whole_units stuck_table 0 0 1 Hlt Hlt).
Defined.

(** X2: [number_of_empty_cells] lies between 0 and 81, and it is 0 exactly
    when no cell of the table holds 0. *)
Theorem number_of_empty_cells_counts_blanks (t : table) :
  0 ≤ number_of_empty_cells t ≤ 81
  ∧ (number_of_empty_cells t = 0 ↔
     ∀ i j, (i < 9)%nat → (j < 9)%nat → get t i j ≠ 0).
Proof.
  split; [apply number_of_empty_cells_bounds|apply number_of_empty_cells_zero].
Qed.

(** X3: a run of [solve] is a sequence of stores, each of a digit that
    [allowed_at_position] accepts, at that moment, for the empty cell it is
    stored in. *)
Theorem solve_stores_allowed_digits (t : table) :
  wf_table t → ∃ r, solve t = Some r ∧ legal_fills (load t) (final r).
Proof.
  intros Hwf. destruct (solve_total t Hwf) as (r & Hr & _).
  exists r. split; [exact Hr|]. rewrite solve_eq in Hr.
  by eapply solve_loop_legal.
Qed.

Lemma solve_stores_allowed_digits_witness :
  wf_table corner_table
  ∧ ∃ r, solve corner_table = Some r ∧ legal_fills (load corner_table) (final r).
Proof.
  split; [exact wf_corner_table|].
  apply (solve_stores_allowed_digits corner_table wf_corner_table).
Defined.

(** X4: [solve] creates no conflict: if no filled cell of the input has its
    value repeated in its row, column or block, the same holds of the
    output. *)
Theorem solve_keeps_consistent (t : table) :
  wf_table t → consistent t →
  ∃ r, solve t = Some r ∧ consistent (cells (final r)).
Proof.
  intros Hwf Hcons. destruct (solve_total t Hwf) as (r & Hr & _).
  exists r. split; [exact Hr|]. rewrite solve_eq in Hr.
  by apply (legal_fills_consistent (load t) _ (solve_loop_legal _ _ _ _ _ Hr)).
Qed.

Lemma solve_keeps_consistent_witness :
  wf_table corner_table ∧ consistent corner_table
  ∧ ∃ r, solve corner_table = Some r ∧ consistent (cells (final r)).
Proof.
  split; [exact wf_corner_table|]. split; [exact consistent_corner_table|].
  apply (solve_keeps_consistent corner_table wf_corner_table
           consistent_corner_table).
Defined.

(** X5: [valid] accepts a table exactly when every cell holds a digit from
    1 to 9 and no cell has its value repeated in its row, column or
    block. *)
Theorem valid_iff_complete_and_consistent (t : table) :
  valid t = true ↔
  (∀ i j, (i < 9)%nat → (j < 9)%nat → digit (get t i j)) ∧ consistent t.
Proof. apply valid_complete_consistent. Qed.

(** X6: on a puzzle without conflict, [solve] ends with no empty cell
    exactly when its output passes [valid]: a run that fills the table has
    solved the puzzle. *)
Theorem solve_done_iff_valid (t : table) (r : run) :
  wf_table t → puzzle t → consistent t → solve t = Some r →
  how r = Done ↔ valid (cells (final r)) = true.
Proof.
  apply solve_done_valid.
Qed.

Lemma solve_done_iff_valid_witness :
  wf_table easy_table ∧ puzzle easy_table ∧ consistent easy_table
  ∧ solve easy_table = Some easy_run
  ∧ (how easy_run = Done ↔ valid (cells (final easy_run)) = true).
Proof.
  split; [exact wf_easy_table|]. split; [exact puzzle_easy_table|].
  split; [exact consistent_easy_table|]. split; [exact solve_easy_table|].
  apply (solve_done_iff_valid easy_table _ wf_easy_table puzzle_easy_table
           consistent_easy_table solve_easy_table).
Defined.

(** X7: a table in which a filled cell has its value repeated in its row,
    column or block never comes out of [solve] as a table that [valid]
    accepts. *)
Theorem solve_conflict_never_valid (t : table) (i j k l : nat) :
  wf_table t →
  (i < 9)%nat → (j < 9)%nat → (k < 9)%nat → (l < 9)%nat →
  (i, j) ≠ (k, l) → shares_unit i j k l →
  get t i j ≠ 0 → get t i j = get t k l →
  ∃ r, solve t = Some r ∧ valid (cells (final r)) = false.
Proof.
  intros Hwf Hi Hj Hk Hl Hne Hshare Hfilled Heq.
  destruct (solve_total t Hwf) as (r & Hr & _).
  exists r. split; [exact Hr|]. rewrite solve_eq in Hr.
  pose proof (solve_loop_fills _ _ _ _ _ Hr) as Hfills.
  apply not_true_is_false. intros [_ Hcons]%valid_complete_consistent.
  assert (get (cells (final r)) i j = get t i j) as Hij
    by (by apply (fills_keep (load t))).
  assert (get (cells (final r)) k l = get t k l) as Hkl
    by (apply (fills_keep (load t)); [done|]; simpl; congruence).
  apply (Hcons i j k l); try done; congruence.
Qed.

Lemma wf_clash_table : wf_table clash_table.
Proof. split; [done|]. vm_compute. repeat constructor. Qed.

Lemma solve_conflict_never_valid_witness :
  wf_table clash_table
  ∧ (0 < 9)%nat ∧ (0 < 9)%nat ∧ (0 < 9)%nat ∧ (1 < 9)%nat
  ∧ (0%nat, 0%nat) ≠ (0%nat, 1%nat) ∧ shares_unit 0 0 0 1
  ∧ get clash_table 0 0 ≠ 0 ∧ get clash_table 0 0 = get clash_table 0 1
  ∧ ∃ r, solve clash_table = Some r ∧ valid (cells (final r)) = false.
Proof.
  assert (0 < 9)%nat as H0 by lia. assert (1 < 9)%nat as H1 by lia.
  assert ((0%nat, 0%nat) ≠ (0%nat, 1%nat)) as Hne by discriminate.
  assert (shares_unit 0 0 0 1) as Hshare by (by left).
  assert (get clash_table 0 0 ≠ 0) as Hfilled by (vm_compute; discriminate).
  assert (get clash_table 0 0 = get clash_table 0 1) as Heq by reflexivity.
  repeat (split; [first [exact wf_clash_table|exact H0|exact H1|exact Hne
                        |exact Hshare|exact Hfilled|exact Heq]|]).
  apply (solve_conflict_never_valid clash_table 0 0 0 1 wf_clash_table
           H0 H0 H0 H1 Hne Hshare Hfilled Heq).
Defined.

(** X8: a pass over a table without an empty cell stores nothing, whether it
    may guess or not. *)
Theorem single_pass_on_full_table (m : mem) (assign_random : bool) :
  wf_table (cells m) → number_of_empty_cells (cells m) = 0 →
  single_pass m assign_random = m.
Proof. apply single_pass_full. Qed.

Lemma single_pass_on_full_table_witness :
  wf_table (cells (load solved_table))
  ∧ number_of_empty_cells (cells (load solved_table)) = 0
  ∧ single_pass (load solved_table) true = load solved_table.
Proof.
  assert (number_of_empty_cells (cells (load solved_table)) = 0) as Hfull
    by (vm_compute; reflexivity).
  split; [exact wf_solved_table|]. split; [exact Hfull|].
  apply (single_pass_on_full_table (load solved_table) true wf_solved_table Hfull).
Defined.

(** X9: [solve] stops only where a further pass would change nothing: the
    memory it ends in is a fixed point of [single_pass], with the guess
    allowed or not. *)
Theorem solve_ends_in_fixed_point (t : table) (r : run) (assign_random : bool) :
  wf_table t → solve t = Some r →
  single_pass (final r) assign_random = final r.
Proof.
  intros Hwf Hr. rewrite solve_eq in Hr.
  exact (solve_loop_fixed_point _ (load t) r assign_random Hwf Hr).
Qed.

Lemma solve_ends_in_fixed_point_witness :
  wf_table stuck_table ∧ solve stuck_table = Some stuck_run
  ∧ single_pass (final stuck_run) false = final stuck_run.
Proof.
  split; [exact wf_stuck_table|]. split; [exact solve_stuck_table|].
  apply (solve_ends_in_fixed_point stuck_table stuck_run false wf_stuck_table
           solve_stuck_table).
Defined.

(** X10: a pass that may guess fills at least one cell whenever the first
    empty cell in row-major order has an allowed digit. *)
Theorem single_pass_guess_fills (m : mem) (p : nat * nat) :
  wf_table (cells m) → first_blank (cells m) = Some p →
  candidates (cells m) p.1 p.2 ≠ [] →
  number_of_empty_cells (cells (single_pass m true))
  < number_of_empty_cells (cells m).
Proof. apply single_pass_guess_progress. Qed.

Lemma single_pass_guess_fills_witness :
  wf_table (cells (load empty_table))
  ∧ first_blank (cells (load empty_table)) = Some (0%nat, 0%nat)
  ∧ candidates (cells (load empty_table)) 0 0 ≠ []
  ∧ number_of_empty_cells (cells (single_pass (load empty_table) true))
    < number_of_empty_cells (cells (load empty_table)).
Proof.
  assert (first_blank (cells (load empty_table)) = Some (0%nat, 0%nat)) as Hfirst
    by (vm_compute; reflexivity).
  assert (candidates (cells (load empty_table)) 0 0 ≠ []) as Hcand
    by (vm_compute; discriminate).
  split; [exact wf_empty_table|]. split; [exact Hfirst|]. split; [exact Hcand|].
  apply (single_pass_guess_fills (load empty_table) (0%nat, 0%nat)
           wf_empty_table Hfirst Hcand).
Defined.

(** X11: [solve] makes at most one pass more than the input has empty
    cells, and the stores it makes are exactly as many as the cells it
    fills. *)
Theorem solve_pass_and_store_count (t : table) :
  wf_table t →
  ∃ r, solve t = Some r
    ∧ Z.of_nat (length (passes r)) ≤ number_of_empty_cells t + 1
    ∧ number_of_empty_cells (cells (final r))
      = number_of_empty_cells t - Z.of_nat (length (writes (final r))).
Proof.
  intros Hwf.
  pose proof (number_of_empty_cells_bounds t) as Hz.
  destruct (solve_loop_terminates solve_fuel (load t) 81 false Hwf)
    as (r & Hr & Hlen).
  { pose proof (pass_bound_start _ Hz). change (cells (load t)) with t.
    unfold solve_fuel. lia. }
  change (cells (load t)) with t in Hlen.
  exists r. rewrite solve_eq. split; [exact Hr|]. split.
  - unfold pass_bound in Hlen. destruct (_ =? 81); lia.
  - rewrite (fills_count _ _ (solve_loop_fills _ _ _ _ _ Hr) Hwf). simpl. lia.
Qed.

Lemma solve_pass_and_store_count_witness :
  wf_table corner_table
  ∧ ∃ r, solve corner_table = Some r
      ∧ Z.of_nat (length (passes r)) ≤ number_of_empty_cells corner_table + 1
      ∧ number_of_empty_cells (cells (final r))
        = number_of_empty_cells corner_table
          - Z.of_nat (length (writes (final r))).
Proof.
  split; [exact wf_corner_table|].
  apply (solve_pass_and_store_count corner_table wf_corner_table).
Defined.

(** X12: the older [select_possible], with its three scans inline, and the
    newer one, split into three functions, do the same to every memory; so
    do the two versions of [single_pass]. *)
Theorem older_single_pass_same (m : mem) (num : Z) (random : bool) :
  older_select_possible m num = select_possible m num
  ∧ older_single_pass m random = single_pass m random.
Proof. split; [apply older_select_possible_eq|apply older_single_pass_eq]. Qed.

(** X13: on a table with an empty cell that a guessing pass leaves as it
    is, the older loop makes a pass in every iteration and never comes to
    its [break], while [solve] gives up and returns the table unchanged. *)
Theorem older_solve_never_stops_where_solve_gives_up (t : table) (fuel : nat) :
  wf_table t → number_of_empty_cells t ≠ 0 →
  single_pass (load t) true = load t →
  length (older_solve fuel t) = fuel
  ∧ ∃ ps, solve t = Some (Run (load t) GaveUp ps).
Proof.
  intros Hwf Hblank Hfix. split.
  - by apply older_solve_loop_stuck.
  - by apply solve_stuck.
Qed.

Lemma older_solve_never_stops_where_solve_gives_up_witness :
  wf_table stuck_table ∧ number_of_empty_cells stuck_table ≠ 0
  ∧ single_pass (load stuck_table) true = load stuck_table
  ∧ length (older_solve 1000 stuck_table) = 1000%nat
  ∧ ∃ ps, solve stuck_table = Some (Run (load stuck_table) GaveUp ps).
Proof.
  assert (number_of_empty_cells stuck_table ≠ 0) as Hblank
    by (vm_compute; discriminate).
  split; [exact wf_stuck_table|]. split; [exact Hblank|].
  split; [exact single_pass_stuck_table|].
  apply (older_solve_never_stops_where_solve_gives_up stuck_table 1000
           wf_stuck_table Hblank single_pass_stuck_table).
Defined.

Lemma read_sudoku_yields_puzzle_aux input c0 t0 t :
  wf_table t0 → read_sudoku input c0 t0 = ReadOk t → wf_table t ∧ puzzle t.
Proof.
  intros Hwf0. unfold read_sudoku. destruct input as [s|]; [|done].
  rewrite read_sudoku_flat.
  destruct (fold_left read_at all_cells (Reading s c0 t0)) as [s' c' t'|] eqn:Hrun;
    [|done].
  intros [= <-].
  destruct (read_fold_puzzle all_cells s c0 t0 s' c' t') as (Hwf & Hin & _);
    [by intros [i j] ?%elem_of_all_cells|done..|].
  split; [done|].
  intros i j Hi Hj. apply (Hin (i, j)). by apply elem_of_all_cells.
Qed.

(** X14: a table that [read_sudoku] delivers has every cell at 0 or at a
    digit from 1 to 9, also when the stream ended before the 81st cell; and
    it does not depend on what the array held before. *)
Theorem read_sudoku_yields_puzzle
    (input : option (list ascii)) (c0 : ascii) (t0 t : table) :
  wf_table t0 → read_sudoku input c0 t0 = ReadOk t →
  wf_table t ∧ puzzle t
  ∧ ∀ t0', wf_table t0' → read_sudoku input c0 t0' = ReadOk t.
Proof.
  intros Hwf0. unfold read_sudoku. destruct input as [s|]; [|done].
  rewrite read_sudoku_flat.
  destruct (fold_left read_at all_cells (Reading s c0 t0)) as [s' c' t'|] eqn:Hrun;
    [|done].
  intros [= <-].
  destruct (read_fold_puzzle all_cells s c0 t0 s' c' t') as (Hwf & Hin & _);
    [by intros [i j] ?%elem_of_all_cells|done..|].
  split; [done|]. split.
  - intros i j Hi Hj. apply (Hin (i, j)). by apply elem_of_all_cells.
  - intros t0' Hwf0'. rewrite read_sudoku_flat.
    rewrite (read_fold_independent all_cells s c0 t0' t0), Hrun; try done.
    + by intros [i j] ?%elem_of_all_cells.
    + intros [i j] Hi Hj Hnot. destruct Hnot. by apply elem_of_all_cells.
Qed.

Lemma wf_fives_table : wf_table fives_table.
Proof. split; [done|]. repeat constructor. Qed.

Lemma read_sudoku_five :
  read_sudoku (Some (text "5")) "x" empty_table = ReadOk fives_table.
Proof. vm_compute. reflexivity. Qed.

Lemma read_sudoku_stuck_text :
  read_sudoku (Some (show false stuck_table)) "x" empty_table
  = ReadOk stuck_table.
Proof. vm_compute. reflexivity. Qed.

Lemma read_sudoku_yields_puzzle_witness :
  wf_table empty_table
  ∧ read_sudoku (Some (text "5")) "x" empty_table = ReadOk fives_table
  ∧ wf_table fives_table ∧ puzzle fives_table
  ∧ ∀ t0', wf_table t0' →
      read_sudoku (Some (text "5")) "x" t0' = ReadOk fives_table.
Proof.
  split; [exact wf_empty_table|]. split; [exact read_sudoku_five|].
  apply (read_sudoku_yields_puzzle (Some (text "5")) "x" empty_table
           fives_table wf_empty_table read_sudoku_five).
Defined.

(** X15: what [show] writes when standard output is no terminal,
    [read_sudoku] reads back as the same table, whatever follows it in the
    stream; this holds for every table whose cells are 0 to 9. *)
Theorem read_sudoku_show_round_trip
    (t t0 : table) (rest : list ascii) (c0 : ascii) :
  wf_table t → puzzle t → wf_table t0 →
  read_sudoku (Some (show false t ++ rest)) c0 t0 = ReadOk t.
Proof. apply read_sudoku_show. Qed.

Lemma read_sudoku_show_round_trip_witness :
  wf_table stuck_table ∧ puzzle stuck_table ∧ wf_table empty_table
  ∧ read_sudoku (Some (show false stuck_table ++ text "Solved")) "x" empty_table
    = ReadOk stuck_table.
Proof.
  split; [exact wf_stuck_table|]. split; [exact puzzle_stuck_table|].
  split; [exact wf_empty_table|].
  apply (read_sudoku_show_round_trip stuck_table empty_table (text "Solved") "x"
           wf_stuck_table puzzle_stuck_table wf_empty_table).
Defined.

(** X16: what [show] writes to a terminal, [read_sudoku] rejects, for every
    table: the first cell is preceded by an escape sequence. *)
Theorem read_sudoku_rejects_terminal_output
    (t t0 : table) (rest : list ascii) (c0 : ascii) :
  read_sudoku (Some (show true t ++ rest)) c0 t0 = ReadFail.
Proof. apply read_sudoku_show_terminal. Qed.

(** ** The program as a whole *)

Lemma main_read_ok input c0 tty delay t0 t r :
  read_sudoku input c0 t0 = ReadOk t → solve t = Some r →
  main input c0 tty delay t0
  = if negb (valid (cells (final r)))
    then Some (Exit EXIT_FAILURE (show tty (cells (final r)))
                 (text "Could not solve." ++ [newline]))
    else Some (Exit EXIT_SUCCESS
                 (show tty (cells (final r)) ++ text "Solved in "
                    ++ print_int delay ++ text " "
                    ++ [ascii_of_nat 206; ascii_of_nat 188]
                    ++ text "s (real time)." ++ [newline])
                 []).
Proof. intros Hread Hsolve. unfold main. by rewrite Hread, Hsolve. Qed.




(** X18: on an input that is read as a puzzle without conflict, [main]
    exits with [EXIT_SUCCESS] when [solve] fills the table; otherwise
    [solve] has given up, and [main] shows the table as far as it was
    filled, reports that it could not solve and exits with
    [EXIT_FAILURE]. *)
Theorem main_exit_status
    (input : option (list ascii)) (c0 : ascii) (stdout_is_terminal : bool)
    (delay_micro : Z) (table0 t : table) :
  wf_table table0 → read_sudoku input c0 table0 = ReadOk t → consistent t →
  ∃ r e, solve t = Some r
    ∧ main input c0 stdout_is_terminal delay_micro table0 = Some e
    ∧ ((how r = Done ∧ status e = EXIT_SUCCESS)
       ∨ (how r = GaveUp ∧ status e = EXIT_FAILURE
          ∧ stdout e = show stdout_is_terminal (cells (final r))
          ∧ stderr e = text "Could not solve." ++ [newline])).
Proof.
  intros Hwf0 Hread Hcons.
  destruct (read_sudoku_yields_puzzle_aux input c0 table0 t Hwf0 Hread)
    as (Hwf & Hpuzzle).
  destruct (solve_total t Hwf) as (r & Hr & _).
  pose proof (solve_done_valid t r Hwf Hpuzzle Hcons Hr) as Hdone.
  exists r. rewrite (main_read_ok _ _ _ _ _ _ _ Hread Hr).
  destruct (valid (cells (final r))) eqn:Hvalid; cbn [negb]; eexists.
  - split; [exact Hr|]. split; [reflexivity|]. left. split; [by apply Hdone|done].
  - split; [exact Hr|]. split; [reflexivity|]. right.
    split; [|done]. destruct (how r); [|done].
    by destruct Hdone as [Hdone _]; specialize (Hdone eq_refl).
Qed.

Lemma main_exit_status_witness :
  wf_table empty_table
  ∧ read_sudoku (Some (show false stuck_table)) "x" empty_table
    = ReadOk stuck_table
  ∧ consistent stuck_table
  ∧ ∃ r e, solve stuck_table = Some r
      ∧ main (Some (show false stuck_table)) "x" true 7 empty_table = Some e
      ∧ ((how r = Done ∧ status e = EXIT_SUCCESS)
         ∨ (how r = GaveUp ∧ status e = EXIT_FAILURE
            ∧ stdout e = show true (cells (final r))
            ∧ stderr e = text "Could not solve." ++ [newline])).
Proof.
  split; [exact wf_empty_table|]. split; [exact read_sudoku_stuck_text|].
  split; [exact consistent_stuck_table|].
  apply (main_exit_status (Some (show false stuck_table)) "x" true 7 empty_table
           stuck_table wf_empty_table read_sudoku_stuck_text
           consistent_stuck_table).
Defined.

(** X19: along a run of [solve], each pass starts with the number of empty
    cells that the pass before it left; a pass that filled nothing is
    followed by a pass that may guess; and after a pass that may guess
    every later pass may guess too. *)
Theorem solve_flag_stays_set (t : table) (r : run) (k : nat) (p q : pass) :
  solve t = Some r → passes r !! k = Some p → passes r !! S k = Some q →
  p_before q = p_after p
  ∧ (p_after p = p_before p → p_random q = true)
  ∧ (p_random p = true → p_random q = true).
Proof. rewrite solve_eq. apply solve_loop_flags. Qed.

Lemma solve_flag_stays_set_witness :
  solve stuck_table = Some stuck_run
  ∧ passes stuck_run !! 0%nat = Some (Pass false 72 72)
  ∧ passes stuck_run !! 1%nat = Some (Pass true 72 72)
  ∧ p_before (Pass true 72 72) = p_after (Pass false 72 72)
  ∧ (p_after (Pass false 72 72) = p_before (Pass false 72 72) →
     p_random (Pass true 72 72) = true)
  ∧ (p_random (Pass false 72 72) = true → p_random (Pass true 72 72) = true).
Proof.
  split; [exact solve_stuck_table|]. split; [reflexivity|]. split; [reflexivity|].
  apply (solve_flag_stays_set stuck_table stuck_run 0 (Pass false 72 72)
           (Pass true 72 72) solve_stuck_table eq_refl eq_refl).
Defined.

(** X20: in the older loop a pass may guess exactly when the pass before it
    filled nothing, for every table and any number of iterations. *)
Theorem older_solve_guesses_iff_stalled (fuel : nat) (t : table) :
  guess_iff_stalled (older_solve fuel t).
Proof. apply older_solve_loop_flags. Qed.

(** ** What the passes without a guess do to a solution *)

(** In an empty cell of a table, the checks accept the digit that a
    solution of the table has there. *)
Lemma solution_allowed s t row col :
  valid s = true → completes s t →
  (row < 9)%nat → (col < 9)%nat → get t row col = 0 →
  allowed_at_position t row col (get s row col) = true.
Proof.
  intros [Hdigits Hcons]%valid_complete_consistent Hext Hrow Hcol Hblank.
  apply allowed_at_position_true; [done..|].
  intros k l Hk Hl Hshare Heq.
  pose proof (Hdigits row col Hrow Hcol) as Hd. unfold digit in Hd.
  assert (get s k l = get t k l) as Hkl by (apply Hext; [done..|lia]).
  apply (Hcons row col k l); try done.
  - intros [= -> ->]. lia.
  - lia.
  - congruence.
Qed.

Lemma completes_set s t i j :
  wf_table t → (i < 9)%nat → (j < 9)%nat →
  completes s t → completes s (set t i j (get s i j)).
Proof.
  intros Hwf Hi Hj Hext k l Hk Hl.
  destruct (decide ((i, j) = (k, l))) as [[= <- <-]|Hne].
  - by rewrite get_set_eq.
  - rewrite get_set_ne by done. by apply Hext.
Qed.

(** A count of one means one hit, and the position remembered is that
    hit. *)
Lemma last_hit_unique {A} (p : A → bool) (l : list A) (d x : A) :
  Z.of_nat (length (List.filter p l)) = 1 → x ∈ l → p x = true →
  List.last (List.filter p l) d = x.
Proof.
  intros Hone Hx Hp.
  assert (x ∈ List.filter p l) as Hin by (by apply list_elem_of_In, filter_In;
    rewrite <- list_elem_of_In).
  destruct (List.filter p l) as [|y [|z l']]; simpl in Hone; try lia.
  apply list_elem_of_singleton in Hin. by subst.
Qed.

Lemma no_hit {A} (p : A → bool) (l : list A) (x : A) :
  Z.of_nat (length (List.filter p l)) = 1 → x ∈ l → p x = true →
  List.filter p l ≠ [].
Proof.
  intros _ Hx Hp Hnil.
  assert (In x (List.filter p l)) as Hin by (apply filter_In; by rewrite <- list_elem_of_In).
  by rewrite Hnil in Hin.
Qed.

Lemma scan_row_hits t row num :
  scan_row t row num
  = (List.last (List.filter (row_hit t row num) (seq 0 9)) 0%nat,
     Z.of_nat (length (List.filter (row_hit t row num) (seq 0 9)))).
Proof.
  unfold scan_row, for_range.
  by rewrite (fold_left_last_hit (row_hit t row num)).
Qed.

Lemma scan_col_hits t col num :
  scan_col t col num
  = (List.last (List.filter (col_hit t col num) (seq 0 9)) 0%nat,
     Z.of_nat (length (List.filter (col_hit t col num) (seq 0 9)))).
Proof.
  unfold scan_col, for_range.
  by rewrite (fold_left_last_hit (col_hit t col num)).
Qed.

Lemma scan_block_hits t row col num :
  scan_block t row col num
  = (List.last (List.filter (block_hit t num) (list_prod (seq row 3) (seq col 3)))
       (0%nat, 0%nat),
     Z.of_nat (length (List.filter (block_hit t num)
                         (list_prod (seq row 3) (seq col 3))))).
Proof.
  unfold scan_block, for_range.
  transitivity
    (fold_left (λ '(hit, count) x,
       if block_hit t num x then (x, count + 1) else (hit, count))
       (list_prod (seq row 3) (seq col 3)) ((0%nat, 0%nat), 0)).
  - pose (G := λ (st : nat * nat * Z) (i j : nat),
              let '(hit, count) := st in
              if block_hit t num (i, j) then ((i, j), count + 1)
              else (hit, count)).
    transitivity
      (fold_left (λ st i, fold_left (λ st j, G st i j) (seq col 3) st)
         (seq row 3) ((0%nat, 0%nat), 0)).
    { apply fold_left_ext_in; [|done]. intros st i _.
      apply fold_left_ext_in; [|done]. by intros [[pr pc] cnt] j _. }
    rewrite (fold_left_prod G).
    apply fold_left_ext_in; [|done]. by intros [[pr pc] cnt] [i j] _.
  - rewrite fold_left_last_hit. f_equal.
Qed.

Lemma countb_fmap_pos {A} (f : A → Z) (l : list A) (d : Z) :
  1 ≤ countb (Z.eqb d) (f <$> l) → ∃ x, x ∈ l ∧ f x = d.
Proof.
  induction l as [|x l IH]; rewrite ?fmap_cons; cbn [countb fmap list_fmap].
  - simpl. lia.
  - destruct (d =? f x) eqn:Heq.
    + intros _. exists x. split; [left|]. by apply Z.eqb_eq in Heq.
    + intros H. destruct IH as (y & Hy & Hfy); [lia|]. exists y.
      split; [by right|done].
Qed.

Lemma solution_row_contains s row num :
  valid s = true → (row < 9)%nat → digit num →
  ∃ j, (j < 9)%nat ∧ get s row j = num.
Proof.
  intros [_ Hocc]%valid_true Hrow Hnum.
  assert (row_cells s row ∈ units s) as Hu.
  { unfold units. rewrite !elem_of_app, !list_elem_of_fmap. left.
    exists row. split; [done|]. apply elem_of_seq. lia. }
  specialize (Hocc _ num Hu Hnum). unfold occurrences, row_cells in Hocc.
  destruct (countb_fmap_pos (λ j, get s row j) (seq 0 9) num) as (j & Hj & Hget);
    [lia|].
  apply elem_of_seq in Hj. exists j. split; [lia|done].
Qed.

Lemma solution_col_contains s col num :
  valid s = true → (col < 9)%nat → digit num →
  ∃ i, (i < 9)%nat ∧ get s i col = num.
Proof.
  intros [_ Hocc]%valid_true Hcol Hnum.
  assert (col_cells s col ∈ units s) as Hu.
  { unfold units. rewrite !elem_of_app, !list_elem_of_fmap. right; left.
    exists col. split; [done|]. apply elem_of_seq. lia. }
  specialize (Hocc _ num Hu Hnum). unfold occurrences, col_cells in Hocc.
  destruct (countb_fmap_pos (λ i, get s i col) (seq 0 9) num) as (i & Hi & Hget);
    [lia|].
  apply elem_of_seq in Hi. exists i. split; [lia|done].
Qed.

Lemma solution_block_contains s row col num :
  valid s = true → row ∈ block_starts → col ∈ block_starts → digit num →
  ∃ p, p ∈ list_prod (seq row 3) (seq col 3) ∧ get s p.1 p.2 = num.
Proof.
  intros [_ Hocc]%valid_true Hrow Hcol Hnum.
  assert (block_cells s row col ∈ units s) as Hu.
  { unfold units. rewrite !elem_of_app, !list_elem_of_fmap. right; right.
    exists (row, col). split; [done|].
    apply list_elem_of_In, in_prod_iff. by rewrite <- !list_elem_of_In. }
  specialize (Hocc _ num Hu Hnum). unfold occurrences, block_cells in Hocc.
  apply (countb_fmap_pos (λ p : nat * nat, get s p.1 p.2)). lia.
Qed.

Lemma keeps_store s m i j :
  (i < 9)%nat → (j < 9)%nat → keeps s m → keeps s (store m i j (get s i j)).
Proof.
  intros Hi Hj [Hwf Hext]. split; simpl; [by apply wf_set|by apply completes_set].
Qed.

Lemma select_allowed_keeps s m row col :
  valid s = true → (row < 9)%nat → (col < 9)%nat → get (cells m) row col = 0 →
  keeps s m → keeps s (select_allowed m row col false).
Proof.
  intros Hvalid Hrow Hcol Hblank Hkeeps. rewrite select_allowed_candidates.
  cbv zeta. rewrite andb_false_r, orb_false_r.
  destruct (_ =? 1) eqn:Hone; [|done]. apply Z.eqb_eq in Hone.
  assert (get s row col ∈ candidates (cells m) row col) as Hin.
  { apply elem_of_candidates. split.
    - by apply valid_complete_consistent in Hvalid as [Hdigits _]; apply Hdigits.
    - apply solution_allowed; try done. apply Hkeeps. }
  assert (largest (candidates (cells m) row col) = get s row col) as ->.
  { rewrite <- candidates_last_largest.
    destruct (candidates (cells m) row col) as [|c [|c' cs]]; simpl in Hone;
      try lia.
    apply list_elem_of_singleton in Hin. by subst. }
  by apply keeps_store.
Qed.

Lemma allowed_at_position_parts t row col num :
  allowed_at_position t row col num = true →
  allowed_in_row t row num = true ∧ allowed_in_col t col num = true
  ∧ allowed_in_block t row col num = true.
Proof. unfold allowed_at_position. rewrite !andb_true_iff. tauto. Qed.

Lemma select_possible_in_row_keeps s m row num :
  valid s = true → (row < 9)%nat → digit num →
  keeps s m → keeps s (select_possible_in_row m row num).
Proof.
  intros Hvalid Hrow Hnum Hkeeps. unfold select_possible_in_row.
  destruct (allowed_in_row (cells m) row num) eqn:Hr; [|done]. cbn [negb].
  rewrite scan_row_hits.
  destruct (_ =? 1) eqn:Hone; [|done]. apply Z.eqb_eq in Hone.
  destruct (solution_row_contains s row num Hvalid Hrow Hnum) as (j & Hj & Hget).
  destruct Hkeeps as [Hwf Hext].
  assert (get (cells m) row j = 0) as Hblank.
  { destruct (decide (get (cells m) row j = 0)) as [|Hfilled]; [done|].
    rewrite allowed_in_row_true in Hr. destruct (Hr j Hj).
    by rewrite <- (Hext row j Hrow Hj Hfilled). }
  pose proof (solution_allowed s (cells m) row j Hvalid Hext Hrow Hj Hblank)
    as Hallowed.
  rewrite Hget in Hallowed.
  apply allowed_at_position_parts in Hallowed as (_ & Hc & Hb).
  rewrite (last_hit_unique _ _ _ j Hone).
  - rewrite <- Hget. by apply keeps_store.
  - apply elem_of_seq. lia.
  - unfold row_hit. rewrite Hblank, Hc, Hb. done.
Qed.

Lemma select_possible_in_col_keeps s m col num :
  valid s = true → (col < 9)%nat → digit num →
  keeps s m → keeps s (select_possible_in_col m col num).
Proof.
  intros Hvalid Hcol Hnum Hkeeps. unfold select_possible_in_col.
  destruct (allowed_in_col (cells m) col num) eqn:Hc; [|done]. cbn [negb].
  rewrite scan_col_hits.
  destruct (_ =? 1) eqn:Hone; [|done]. apply Z.eqb_eq in Hone.
  destruct (solution_col_contains s col num Hvalid Hcol Hnum) as (i & Hi & Hget).
  destruct Hkeeps as [Hwf Hext].
  assert (get (cells m) i col = 0) as Hblank.
  { destruct (decide (get (cells m) i col = 0)) as [|Hfilled]; [done|].
    rewrite allowed_in_col_true in Hc. destruct (Hc i Hi).
    by rewrite <- (Hext i col Hi Hcol Hfilled). }
  pose proof (solution_allowed s (cells m) i col Hvalid Hext Hi Hcol Hblank)
    as Hallowed.
  rewrite Hget in Hallowed.
  apply allowed_at_position_parts in Hallowed as (Hr & _ & Hb).
  rewrite (last_hit_unique _ _ _ i Hone).
  - rewrite <- Hget. by apply keeps_store.
  - apply elem_of_seq. lia.
  - unfold col_hit. rewrite Hblank, Hr, Hb. done.
Qed.

Lemma block_range row col p :
  row ∈ block_starts → col ∈ block_starts →
  p ∈ list_prod (seq row 3) (seq col 3) →
  (p.1 < 9)%nat ∧ (p.2 < 9)%nat ∧ (p.1 / 3 = row / 3)%nat ∧ (p.2 / 3 = col / 3)%nat.
Proof.
  intros Hrow Hcol Hp. destruct p as [i j].
  apply list_elem_of_In, in_prod_iff in Hp as [Hi Hj].
  apply in_seq in Hi, Hj. cbn [fst snd].
  assert (∀ a b, a ∈ block_starts → (a ≤ b < a + 3)%nat →
                 (b < 9)%nat ∧ (b / 3 = a / 3)%nat) as Haux.
  { intros a b Ha Hb. unfold block_starts in Ha.
    apply elem_of_cons in Ha as [-> | Ha];
      [|apply elem_of_cons in Ha as [-> | Ha];
        [|apply list_elem_of_singleton in Ha as ->]].
    all: assert (b = 0 ∨ b = 1 ∨ b = 2 ∨ b = 3 ∨ b = 4 ∨ b = 5 ∨ b = 6
                 ∨ b = 7 ∨ b = 8)%nat as Hb' by lia.
    all: repeat destruct Hb' as [-> | Hb']; subst;
      first [exfalso; lia | by split; [lia|reflexivity]]. }
  destruct (Haux row i Hrow) as [? ?]; [lia|].
  destruct (Haux col j Hcol) as [? ?]; [lia|]. done.
Qed.

Lemma last_hit_is_hit {A} (p : A → bool) (l : list A) (d : A) :
  Z.of_nat (length (List.filter p l)) = 1 →
  List.last (List.filter p l) d ∈ l ∧ p (List.last (List.filter p l) d) = true.
Proof.
  intros Hone.
  assert (List.last (List.filter p l) d ∈ List.filter p l) as Hin.
  { destruct (List.filter p l) as [|y [|z l']]; simpl in Hone; try lia.
    simpl. by left. }
  apply list_elem_of_In, filter_In in Hin as [Hin Hp].
  by rewrite list_elem_of_In.
Qed.

Lemma select_possible_in_block_keeps s m row col num :
  valid s = true → row ∈ block_starts → col ∈ block_starts → digit num →
  keeps s m → keeps s (select_possible_in_block m row col num).
Proof.
  intros Hvalid Hrow Hcol Hnum Hkeeps. unfold select_possible_in_block.
  destruct (allowed_in_block (cells m) row col num) eqn:Hb; [|done]. cbn [negb].
  rewrite scan_block_hits.
  set (cellsof := list_prod (seq row 3) (seq col 3)).
  destruct (List.last (List.filter (block_hit (cells m) num) cellsof) (0%nat, 0%nat))
    as [pr pc] eqn:Hlast.
  destruct (_ =? 1) eqn:Hone; [|done]. apply Z.eqb_eq in Hone.
  destruct (solution_block_contains s row col num Hvalid Hrow Hcol Hnum)
    as ([k l] & Hq & Hget). fold cellsof in Hq. cbn [fst snd] in Hget.
  destruct (block_range row col (k, l) Hrow Hcol Hq) as (Hk & Hl & Hkr & Hlc).
  cbn [fst snd] in *.
  destruct Hkeeps as [Hwf Hext].
  destruct (last_hit_is_hit (block_hit (cells m) num) cellsof (0%nat, 0%nat) Hone)
    as [Hpin Hphit].
  rewrite Hlast in Hpin, Hphit.
  destruct (block_range row col (pr, pc) Hrow Hcol Hpin) as (Hpr & Hpc & Hprr & Hpcc).
  cbn [fst snd] in *.
  assert (get (cells m) k l = 0) as Hblank.
  { destruct (decide (get (cells m) k l = 0)) as [|Hfilled]; [done|].
    unfold block_hit in Hphit. cbn [fst snd] in Hphit.
    apply andb_true_iff in Hphit as [_ Hallowed].
    rewrite allowed_at_position_true in Hallowed by done.
    destruct (Hallowed k l Hk Hl).
    - right; right. unfold same_block. lia.
    - by rewrite <- (Hext k l Hk Hl Hfilled). }
  pose proof (solution_allowed s (cells m) k l Hvalid Hext Hk Hl Hblank)
    as Hallowed.
  rewrite Hget in Hallowed.
  assert ((pr, pc) = (k, l)) as Heq.
  { rewrite <- Hlast. apply last_hit_unique; [done..|].
    unfold block_hit. cbn [fst snd]. by rewrite Hblank, Hallowed. }
  injection Heq as -> ->. rewrite <- Hget. by apply keeps_store.
Qed.

Lemma select_possible_keeps s m num :
  valid s = true → digit num → keeps s m → keeps s (select_possible m num).
Proof.
  intros Hvalid Hnum Hkeeps. unfold select_possible, for_range.
  apply (fold_left_inv (keeps s)).
  - apply (fold_left_inv (keeps s)).
    + apply (fold_left_inv (keeps s)); [done|].
      intros m' i Hi Hm'. apply elem_of_seq in Hi.
      apply select_possible_in_row_keeps; [done|lia|done..].
    + intros m' j Hj Hm'. apply elem_of_seq in Hj.
      apply select_possible_in_col_keeps; [done|lia|done..].
  - intros m' i Hi Hm'. apply (fold_left_inv (keeps s)); [done|].
    intros m'' j Hj Hm''. by apply select_possible_in_block_keeps.
Qed.

Lemma sweep_allowed_keeps s m :
  valid s = true → keeps s m → keeps s (sweep_allowed m false).1.
Proof.
  intros Hvalid Hkeeps. unfold sweep_allowed, for_range.
  cut (let st := fold_left (λ st i,
         fold_left (λ st j,
           let '(m, assign_random) := st in
           if get (cells m) i j =? 0
           then (select_allowed m i j assign_random, false)
           else (m, assign_random)) (seq 0 9) st) (seq 0 9) (m, false)
       in keeps s st.1 ∧ st.2 = false); [by intros [? _]|].
  apply (fold_left_inv (λ st, keeps s st.1 ∧ st.2 = false)); [done|].
  intros st i Hi Hst. apply elem_of_seq in Hi.
  apply (fold_left_inv (λ st, keeps s st.1 ∧ st.2 = false)); [done|].
  intros [m' flag] j Hj [Hm' Hflag]. apply elem_of_seq in Hj.
  cbn [fst snd] in *. subst flag.
  destruct (get (cells m') i j =? 0) eqn:Hblank; cbn [fst snd]; [|done].
  apply Z.eqb_eq in Hblank. split; [|done].
  apply select_allowed_keeps; [done|lia|lia|done..].
Qed.

Lemma single_pass_keeps s m :
  valid s = true → keeps s m → keeps s (single_pass m false).
Proof.
  intros Hvalid Hkeeps. unfold single_pass.
  pose proof (sweep_allowed_keeps s m Hvalid Hkeeps) as Hsweep.
  destruct (sweep_allowed m false) as [m' flag]; cbn [fst] in Hsweep.
  apply (fold_left_inv (keeps s)); [done|].
  intros m'' num Hnum Hm''. apply elem_of_nums in Hnum.
  by apply select_possible_keeps.
Qed.

Lemma solve_loop_keeps s fuel m prev_zeros assign_random r :
  valid s = true → keeps s m →
  solve_loop fuel m prev_zeros assign_random = Some r →
  Forall (λ p, p_random p = false) (passes r) →
  keeps s (final r).
Proof.
  intros Hvalid. revert m prev_zeros assign_random r.
  induction fuel as [|fuel IH]; intros m prev flag r Hkeeps Hr Hpasses; [done|].
  rewrite solve_loop_S in Hr. cbv zeta in Hr.
  destruct (_ =? 0); [by injection Hr as <-|].
  destruct (_ && _); [by injection Hr as <-|].
  apply fmap_Some in Hr as (r' & Hr' & ->). cbn [after_pass final passes] in *.
  apply Forall_cons in Hpasses as [Hflag Hpasses]. cbn [p_random] in Hflag.
  rewrite Hflag in Hr'.
  eapply IH; [|exact Hr'|done]. by apply single_pass_keeps.
Qed.

Lemma completes_easy_table : completes solved_table easy_table.
Proof.
  intros i j Hi Hj. unfold easy_table.
  destruct (decide ((i, j) = (4, 4)%nat)) as [[= -> ->]|Hne1]; [done|].
  rewrite get_set_ne by done.
  destruct (decide ((i, j) = (0, 0)%nat)) as [[= -> ->]|Hne2]; [done|].
  by rewrite get_set_ne by done.
Qed.

(** X21: as long as no pass of [solve] is asked to guess, nothing it stores
    rules a solution out: a table that [valid] accepts and that has the
    filled cells of the input as they are has the filled cells of the output
    as they are too. *)
Theorem solve_without_guess_keeps_solutions (t s : table) (r : run) :
  wf_table t → valid s = true → completes s t →
  solve t = Some r →
  Forall (λ p, p_random p = false) (passes r) →
  completes s (cells (final r)).
Proof.
  intros Hwf Hvalid Hext Hr Hpasses. rewrite solve_eq in Hr.
  assert (keeps s (load t)) as Hkeeps by (by split).
  apply (solve_loop_keeps s _ _ _ _ r Hvalid Hkeeps Hr Hpasses).
Qed.

Lemma solve_without_guess_keeps_solutions_witness :
  wf_table easy_table ∧ valid solved_table = true
  ∧ completes solved_table easy_table
  ∧ solve easy_table = Some easy_run
  ∧ Forall (λ p, p_random p = false) (passes easy_run)
  ∧ completes solved_table (cells (final easy_run)).
Proof.
  assert (Forall (λ p, p_random p = false) (passes easy_run)) as Hpasses
    by (repeat constructor).
  split; [exact wf_easy_table|]. split; [exact valid_solved_table|].
  split; [exact completes_easy_table|]. split; [exact solve_easy_table|].
  split; [exact Hpasses|].
  exact (solve_without_guess_keeps_solutions easy_table solved_table easy_run
           wf_easy_table valid_solved_table completes_easy_table
           solve_easy_table Hpasses).
Defined.

(** X22: when [solve] fills the table without a pass that was asked to
    guess, its output is the only solution of the input: every table that
    [valid] accepts and that has the filled cells of the input as they are
    equals the output cell by cell. *)
Theorem solve_without_guess_finds_the_solution (t s : table) (r : run) :
  wf_table t → valid s = true → completes s t →
  solve t = Some r → how r = Done →
  Forall (λ p, p_random p = false) (passes r) →
  ∀ i j, (i < 9)%nat → (j < 9)%nat → get (cells (final r)) i j = get s i j.
Proof.
  intros Hwf Hvalid Hext Hr Hdone Hpasses i j Hi Hj. rewrite solve_eq in Hr.
  assert (keeps s (load t)) as Hload by (by split).
  destruct (solve_loop_keeps s _ _ _ _ r Hvalid Hload Hr Hpasses) as [_ Hkeeps].
  symmetry. apply Hkeeps; [done..|].
  apply (solve_loop_outcome _ _ _ _ _ Hr) in Hdone.
  by apply number_of_empty_cells_zero.
Qed.

Lemma solve_without_guess_finds_the_solution_witness :
  wf_table easy_table ∧ valid solved_table = true
  ∧ completes solved_table easy_table
  ∧ solve easy_table = Some easy_run ∧ how easy_run = Done
  ∧ Forall (λ p, p_random p = false) (passes easy_run)
  ∧ ∀ i j, (i < 9)%nat → (j < 9)%nat →
      get (cells (final easy_run)) i j = get solved_table i j.
Proof.
  assert (Forall (λ p, p_random p = false) (passes easy_run)) as Hpasses
    by (repeat constructor).
  split; [exact wf_easy_table|]. split; [exact valid_solved_table|].
  split; [exact completes_easy_table|]. split; [exact solve_easy_table|].
  split; [reflexivity|]. split; [exact Hpasses|].
  exact (solve_without_guess_finds_the_solution easy_table solved_table easy_run
           wf_easy_table valid_solved_table completes_easy_table
           solve_easy_table eq_refl Hpasses).
Defined.

(** * Determinism *)

(** ** The uninitialised locals never reach a store *)

Lemma last_filter_default {A} (p : A → bool) (l : list A) (d d' : A) :
  1 ≤ Z.of_nat (length (List.filter p l)) →
  List.last (List.filter p l) d = List.last (List.filter p l) d'.
Proof.
  destruct (List.filter p l) as [|x l'] eqn:Hf; simpl; [lia|]. intros _.
  clear Hf. revert x. induction l' as [|y l' IH]; intros x; [done|].
  apply (IH y).
Qed.

Lemma indeterminate_select_allowed junk m k row col assign_random :
  Indeterminate.select_allowed junk (m, k) row col assign_random
  = (select_allowed m row col assign_random, S k).
Proof.
  unfold Indeterminate.select_allowed, Indeterminate.scan_allowed,
    select_allowed, scan_allowed.
  rewrite !(fold_left_last_hit (allowed_at_position (cells m) row col)).
  f_equal.
  destruct (_ || _) eqn:Htest; [|done]. f_equal.
  apply last_filter_default.
  apply orb_true_iff in Htest as [Hone|[Hsome _]%andb_true_iff]; lia.
Qed.

Lemma indeterminate_select_possible_in_row junk m k row num :
  (Indeterminate.select_possible_in_row junk (m, k) row num).1
  = select_possible_in_row m row num.
Proof.
  unfold Indeterminate.select_possible_in_row, Indeterminate.scan_row,
    select_possible_in_row, scan_row, for_range.
  destruct (negb _); [done|].
  rewrite !(fold_left_last_hit (row_hit (cells m) row num)). cbn [fst].
  destruct (_ =? 1) eqn:Hone; [|done]. f_equal.
  apply last_filter_default. lia.
Qed.

Lemma indeterminate_select_possible_in_col junk m k col num :
  (Indeterminate.select_possible_in_col junk (m, k) col num).1
  = select_possible_in_col m col num.
Proof.
  unfold Indeterminate.select_possible_in_col, Indeterminate.scan_col,
    select_possible_in_col, scan_col, for_range.
  destruct (negb _); [done|].
  rewrite !(fold_left_last_hit (col_hit (cells m) col num)). cbn [fst].
  destruct (_ =? 1) eqn:Hone; [|done]. f_equal.
  apply last_filter_default. lia.
Qed.

Lemma indeterminate_scan_block a b t row col num :
  Indeterminate.scan_block a b t row col num
  = (List.last (List.filter (block_hit t num) (list_prod (seq row 3) (seq col 3)))
       (a, b),
     Z.of_nat (length (List.filter (block_hit t num)
                         (list_prod (seq row 3) (seq col 3))))).
Proof.
  unfold Indeterminate.scan_block, for_range.
  transitivity
    (fold_left (λ '(hit, count) x,
       if block_hit t num x then (x, count + 1) else (hit, count))
       (list_prod (seq row 3) (seq col 3)) ((a, b), 0)).
  - pose (G := λ (st : nat * nat * Z) (i j : nat),
              let '(hit, count) := st in
              if block_hit t num (i, j) then ((i, j), count + 1)
              else (hit, count)).
    transitivity
      (fold_left (λ st i, fold_left (λ st j, G st i j) (seq col 3) st)
         (seq row 3) ((a, b), 0)).
    { apply fold_left_ext_in; [|done]. intros st i _.
      apply fold_left_ext_in; [|done]. by intros [[pr pc] cnt] j _. }
    rewrite (fold_left_prod G).
    apply fold_left_ext_in; [|done]. by intros [[pr pc] cnt] [i j] _.
  - rewrite fold_left_last_hit. f_equal.
Qed.

Lemma indeterminate_select_possible_in_block junk m k row col num :
  (Indeterminate.select_possible_in_block junk (m, k) row col num).1
  = select_possible_in_block m row col num.
Proof.
  unfold Indeterminate.select_possible_in_block, select_possible_in_block.
  destruct (negb _); [done|].
  rewrite indeterminate_scan_block, scan_block_hits.
  rewrite (surjective_pairing (List.last _ (Z.to_nat _, _))).
  rewrite (surjective_pairing (List.last _ (0%nat, _))). cbn [fst].
  destruct (_ =? 1) eqn:Hone; [|done].
  rewrite (last_filter_default _ _ (0%nat, 0%nat)
             (Z.to_nat (junk k), Z.to_nat (junk (S k)))) by lia.
  done.
Qed.

Lemma indeterminate_select_possible junk st num :
  (Indeterminate.select_possible junk st num).1 = select_possible st.1 num.
Proof.
  unfold Indeterminate.select_possible, select_possible, for_range. cbv zeta.
  apply (fold_left_rel (λ (st : mem * nat) (m : mem), st.1 = m)).
  - apply (fold_left_rel (λ (st : mem * nat) (m : mem), st.1 = m)).
    + apply (fold_left_rel (λ (st : mem * nat) (m : mem), st.1 = m)); [done|].
      intros [m k] m' i _ <-. apply indeterminate_select_possible_in_row.
    + intros [m k] m' j _ <-. apply indeterminate_select_possible_in_col.
  - intros st1 m1 i _ Hst1.
    apply (fold_left_rel (λ (st : mem * nat) (m : mem), st.1 = m)); [done|].
    intros [m k] m' j _ <-. apply indeterminate_select_possible_in_block.
Qed.

Lemma indeterminate_sweep_allowed junk st assign_random :
  ((Indeterminate.sweep_allowed junk st assign_random).1.1,
   (Indeterminate.sweep_allowed junk st assign_random).2)
  = sweep_allowed st.1 assign_random.
Proof.
  unfold Indeterminate.sweep_allowed, sweep_allowed, for_range.
  apply (fold_left_rel
    (λ (s : mem * nat * bool) (s' : mem * bool), (s.1.1, s.2) = s')); [done|].
  intros s1 s1' i _ Hs1.
  apply (fold_left_rel
    (λ (s : mem * nat * bool) (s' : mem * bool), (s.1.1, s.2) = s')); [done|].
  intros [[m k] flag] s' j _ <-. cbn [fst snd].
  destruct (_ =? 0); [|done].
  by rewrite indeterminate_select_allowed.
Qed.

Lemma indeterminate_single_pass junk st assign_random :
  (Indeterminate.single_pass junk st assign_random).1
  = single_pass st.1 assign_random.
Proof.
  unfold Indeterminate.single_pass, single_pass.
  pose proof (indeterminate_sweep_allowed junk st assign_random) as Hsweep.
  destruct (Indeterminate.sweep_allowed junk st assign_random) as [st1 flag1].
  destruct (sweep_allowed st.1 assign_random) as [m1 flag].
  cbn [fst snd] in Hsweep. injection Hsweep as Hm _.
  apply (fold_left_rel (λ (st : mem * nat) (m : mem), st.1 = m)); [done|].
  intros st2 m2 num _ <-. apply indeterminate_select_possible.
Qed.

Lemma indeterminate_solve_loop junk fuel st prev_zeros assign_random :
  Indeterminate.solve_loop junk fuel st prev_zeros assign_random
  = solve_loop fuel st.1 prev_zeros assign_random.
Proof.
  revert st prev_zeros assign_random.
  induction fuel as [|fuel IH]; intros st prev flag; [done|].
  rewrite solve_loop_S. cbn [Indeterminate.solve_loop]. cbv zeta.
  destruct (_ =? 0); [done|]. destruct (_ && _); [done|].
  by rewrite IH, !indeterminate_single_pass.
Qed.

(** ** The journal *)

Lemma replay_app t ws1 ws2 : replay t (ws1 ++ ws2) = replay (replay t ws1) ws2.
Proof. apply fold_left_app. Qed.

Lemma journaled_load t : journaled t (load t).
Proof. done. Qed.

Lemma journaled_fills t m m' : fills m m' → journaled t m → journaled t m'.
Proof.
  induction 1 as [|m1 m2 m3 Hfill _ IH]; [done|]. intros Hm1. apply IH.
  destruct Hfill as [i j v _ _ _ _]. unfold journaled, journal in *.
  cbn [store cells writes rev]. by rewrite replay_app, <- Hm1.
Qed.

Lemma journal_fills m m' : fills m m' → ∃ ws, journal m' = journal m ++ ws.
Proof.
  intros (ws & Hws & _)%fills_writes. exists (rev ws).
  unfold journal. by rewrite Hws, rev_app_distr.
Qed.

(** A sweep that may guess stores, first of all, the largest number allowed
    at the first empty cell, if there is one. *)
Lemma sweep_guess (l : list (nat * nat)) (m : mem) (p : nat * nat) :
  (∀ q, q ∈ l → (q.1 < 9)%nat ∧ (q.2 < 9)%nat) →
  List.find (is_blank (cells m)) l = Some p →
  candidates (cells m) p.1 p.2 ≠ [] →
  ∃ ws, journal (fold_left sweep_step l (m, true)).1
        = journal m
          ++ Write p.1 p.2 0 (largest (candidates (cells m) p.1 p.2)) :: ws.
Proof.
  induction l as [|q l IH]; intros Hl Hfind Hcand; [done|].
  cbn [fold_left]. simpl in Hfind. unfold is_blank in Hfind at 1.
  unfold sweep_step at 2.
  destruct (get (cells m) q.1 q.2 =? 0) eqn:Hblank.
  - injection Hfind as <-. apply Z.eqb_eq in Hblank.
    rewrite select_allowed_candidates. cbv zeta.
    replace (1 <=? Z.of_nat (length (candidates (cells m) q.1 q.2))) with true.
    2:{ symmetry. apply Z.leb_le.
        destruct (candidates (cells m) q.1 q.2); [done|simpl length; lia]. }
    rewrite orb_true_r.
    destruct (journal_fills _ _
      (sweep_steps_fills l
         (store m q.1 q.2 (largest (candidates (cells m) q.1 q.2)), false)
         ltac:(intros q' Hq'; apply Hl; by right))) as (ws & Hws).
    exists ws. rewrite Hws. unfold journal. cbn [fst store writes rev].
    by rewrite Hblank, <- app_assoc.
  - apply IH; [|done..]. intros q' Hq'. apply Hl. by right.
Qed.

Lemma single_pass_guess m i j :
  first_blank (cells m) = Some (i, j) →
  candidates (cells m) i j ≠ [] →
  ∃ ws, journal (single_pass m true)
        = journal m ++ Write i j 0 (largest (candidates (cells m) i j)) :: ws.
Proof.
  intros Hfirst Hcand.
  destruct (sweep_guess all_cells m (i, j)) as (ws & Hws);
    [by intros [a b] ?%elem_of_all_cells|done..|].
  rewrite <- sweep_allowed_flat in Hws. cbn [fst snd] in Hws.
  assert (fills (sweep_allowed m true).1 (single_pass m true)) as Hrest.
  { unfold single_pass. destruct (sweep_allowed m true) as [m' flag]. cbn [fst].
    apply (fold_left_inv (fills m')); [apply fills_refl|].
    intros m'' num Hnum Hm''. apply elem_of_nums in Hnum.
    eapply fills_trans; [done|]. by apply select_possible_fills. }
  apply journal_fills in Hrest as (ws' & Hws').
  exists (ws ++ ws'). by rewrite Hws', Hws, <- app_assoc.
Qed.

Lemma solve_loop_guesses t fuel m prev_zeros assign_random r :
  journaled t m →
  solve_loop fuel m prev_zeros assign_random = Some r →
  ∀ p, p ∈ passes r → p_random p = true →
    ∃ ws1 ws2,
      journal (final r) = ws1 ++ ws2
      ∧ number_of_empty_cells (replay t ws1) = p_before p
      ∧ ∀ i j, first_blank (replay t ws1) = Some (i, j) →
          candidates (replay t ws1) i j ≠ [] →
          head ws2
          = Some (Write i j 0 (largest (candidates (replay t ws1) i j))).
Proof.
  revert m prev_zeros assign_random r.
  induction fuel as [|fuel IH]; intros m prev flag r Hm Hr p Hp Hrandom; [done|].
  rewrite solve_loop_S in Hr. cbv zeta in Hr.
  destruct (_ =? 0); [injection Hr as <-; by apply elem_of_nil in Hp|].
  destruct (_ && _); [injection Hr as <-; by apply elem_of_nil in Hp|].
  apply fmap_Some in Hr as (r' & Hr' & ->).
  cbn [after_pass final passes] in *.
  pose proof (single_pass_fills m (if number_of_empty_cells (cells m) =? prev
                                   then true else flag)) as Hpass.
  apply elem_of_cons in Hp as [->|Hp].
  - cbn [p_random p_before] in *. rewrite Hrandom in Hr', Hpass.
    destruct (journal_fills _ _ (solve_loop_fills _ _ _ _ _ Hr')) as (ws' & Hws').
    destruct (journal_fills _ _ Hpass) as (ws0 & Hws0).
    exists (journal m), (ws0 ++ ws'). unfold journaled in Hm. rewrite <- Hm.
    split; [by rewrite Hws', Hws0, <- app_assoc|]. split; [done|].
    intros i j Hfirst Hcand.
    destruct (single_pass_guess m i j Hfirst Hcand) as (ws & Hws).
    rewrite Hws in Hws0. apply app_inv_head in Hws0 as <-. done.
  - eapply IH; [|exact Hr'|done..]. by eapply journaled_fills.
Qed.

(** C9: [solve] is deterministic, also when guesses fire.  Whatever the
    locals that the source leaves uninitialised hold when they are
    declared, every run on a table returns one and the same result, the
    one the embedding without such locals computes, with whatever fuel;
    and in that run every pass that was asked to assign randomly and finds
    an allowed number at the first empty cell stores, first of all, the
    largest allowed number there: no random source is consulted. *)
Theorem solve_deterministic (t : table) :
  wf_table t →
  ∃ r, solve t = Some r
    ∧ (∀ junk, Indeterminate.solve junk t = Some r)
    ∧ (∀ junk fuel r',
         Indeterminate.solve_loop junk fuel (load t, 0%nat) 81 false = Some r' →
         r' = r)
    ∧ guesses_store_largest t r.
Proof.
  intros Hwf. destruct (solve_total t Hwf) as (r & Hr & Hfuel & _).
  pose proof (Hfuel solve_fuel (le_n _)) as Hloop.
  exists r. split; [exact Hr|]. split; [|split].
  - intros junk. unfold Indeterminate.solve.
    rewrite indeterminate_solve_loop. exact Hloop.
  - intros junk fuel r' Hr'. rewrite indeterminate_solve_loop in Hr'.
    cbn [fst] in Hr'.
    pose proof (solve_loop_more_fuel _ (Nat.max fuel solve_fuel) _ _ _ _ Hr'
                  ltac:(lia)) as H1.
    rewrite (Hfuel (Nat.max fuel solve_fuel) ltac:(lia)) in H1.
    by injection H1.
  - intros p Hp Hrandom.
    exact (solve_loop_guesses t _ _ _ _ r (journaled_load t) Hloop p Hp Hrandom).
Qed.

Lemma solve_deterministic_witness :
  wf_table corner_table
  ∧ ∃ r, solve corner_table = Some r
      ∧ (∀ junk, Indeterminate.solve junk corner_table = Some r)
      ∧ (∀ junk fuel r',
           Indeterminate.solve_loop junk fuel (load corner_table, 0%nat) 81 false
           = Some r' →
           r' = r)
      ∧ guesses_store_largest corner_table r.
Proof.
  split; [exact wf_corner_table|].
  apply (solve_deterministic corner_table wf_corner_table).
Defined.
